(** * Label-based inbox expiration: the passes of [email-expirer.py]
    modelled over an in-memory mail store, with the properties of its
    countdown state machine, age annotator and paginated fetch. *)

From Stdlib Require Import ZArith String Ascii List Bool Lia.
From Stdlib Require Import Decimal DecimalString DecimalNat DecimalPos SpecFloat.
From stdpp Require Import base gmap sets list strings.

Set Warnings "-clear-no-such-hyp".
Local Open Scope string_scope.
Local Open Scope Z_scope.

(** ** Python values used by the script *)

(** [str(n)] / an f-string field holding an [int]. *)
Definition str (z : Z) : string := NilZero.string_of_int (Z.to_int z).

(** What is left of [s] after the prefix [p], if [s] starts with it. *)
Fixpoint strip_prefix (p s : string) : option string :=
  match p, s with
  | EmptyString, _ => Some s
  | String a p', String b s' => if Ascii.eqb a b then strip_prefix p' s' else None
  | String _ _, EmptyString => None
  end.

(** Binary64 floats, after the IEEE-754 specification of the standard
    library ([prec = 53], [emax = 1024]). *)
Module Float.

Definition prec : Z := 53.
Definition emax : Z := 1024.

(** [float(n)] for an [int]; [None] is [OverflowError]. *)
Definition of_int (z : Z) : option spec_float :=
  match binary_normalize prec emax z 0 false with
  | S754_infinity _ => None
  | f => Some f
  end.

(** [a / b] on two [int]s: the correctly rounded quotient; [None] is
    [ZeroDivisionError] or [OverflowError]. *)
Definition int_true_divide (a b : Z) : option spec_float :=
  match b with
  | Z0 => None
  | _ =>
      match a with
      | Z0 => Some (S754_zero (b <? 0))
      | _ =>
          match SFdiv prec emax
                  (S754_finite (a <? 0) (Z.to_pos (Z.abs a)) 0)
                  (S754_finite (b <? 0) (Z.to_pos (Z.abs b)) 0) with
          | S754_infinity _ => None
          | f => Some f
          end
      end
  end.

(** [x / y] on two floats; [None] is [ZeroDivisionError]. *)
Definition true_divide (x y : spec_float) : option spec_float :=
  match y with
  | S754_zero _ => None
  | _ => Some (SFdiv prec emax x y)
  end.

(** The integer nearest to [m * 2^e], ties going to the even one. *)
Definition round_half_even (m : positive) (e : Z) : Z :=
  match e with
  | Zneg p =>
      let d := Z.pow_pos 2 p in
      let q := Z.pos m / d in
      let r := Z.pos m mod d in
      match 2 * r ?= d with
      | Lt => q
      | Gt => q + 1
      | Eq => if Z.even q then q else q + 1
      end
  | _ => Z.pos m * 2 ^ e
  end.

(** The integer nearest to [m * 2^e], ties going up. *)
Definition round_half_up (m : positive) (e : Z) : Z :=
  match e with
  | Zneg p =>
      let d := Z.pow_pos 2 p in
      let q := Z.pos m / d in
      let r := Z.pos m mod d in
      match 2 * r ?= d with
      | Lt => q
      | _ => q + 1
      end
  | _ => Z.pos m * 2 ^ e
  end.

(** [round(x)] with one argument: an [int], ties to even; [None] is the
    exception raised on infinities and NaN. *)
Definition round (f : spec_float) : option Z :=
  match f with
  | S754_zero _ => Some 0
  | S754_finite s m e => Some (cond_Zopp s (round_half_even m e))
  | _ => None
  end.

(** The same with ties away from zero, for comparison. *)
Definition round_ties_up (f : spec_float) : option Z :=
  match f with
  | S754_zero _ => Some 0
  | S754_finite s m e => Some (cond_Zopp s (round_half_up m e))
  | _ => None
  end.

(** [math.modf(x)]: fractional part and integral part, both carrying the
    sign of [x]; the integral part is kept as an integer. *)
Definition modf (f : spec_float) : option (spec_float * Z) :=
  match f with
  | S754_zero s => Some (S754_zero s, 0)
  | S754_finite s m e =>
      match e with
      | Zneg p =>
          let d := Z.pow_pos 2 p in
          Some (binary_normalize prec emax (cond_Zopp s (Z.pos m mod d)) e s,
                cond_Zopp s (Z.pos m / d))
      | _ => Some (S754_zero s, cond_Zopp s (Z.pos m * 2 ^ e))
      end
  | _ => None
  end.

Definition mul (x y : spec_float) : spec_float := SFmul prec emax x y.

End Float.

(** ** Dates, as [datetime] computes them *)

Record datetime := mk_datetime {
  year : Z; month : Z; day : Z;
  hour : Z; minute : Z; second : Z; microsecond : Z
}.

Module Calendar.

Definition is_leap (y : Z) : bool :=
  (y mod 4 =? 0) && (negb (y mod 100 =? 0) || (y mod 400 =? 0)).

Definition days_before_year (y : Z) : Z :=
  let p := y - 1 in p * 365 + p / 4 - p / 100 + p / 400.

Definition days_in_month (y m : Z) : Z :=
  if (m =? 2) && is_leap y then 29
  else nth (Z.to_nat m) [0; 31; 28; 31; 30; 31; 30; 31; 31; 30; 31; 30; 31] 0.

Definition days_before_month_table (m : Z) : Z :=
  nth (Z.to_nat m) [0; 0; 31; 59; 90; 120; 151; 181; 212; 243; 273; 304; 334] 0.

Definition days_before_month (y m : Z) : Z :=
  days_before_month_table m + (if (2 <? m) && is_leap y then 1 else 0).

(** Proleptic Gregorian ordinal of a date; 0001-01-01 is day 1. *)
Definition ymd2ord (y m d : Z) : Z :=
  days_before_year y + days_before_month y m + d.

(** The inverse, by 400-, 100-, 4- and 1-year cycles. *)
Definition ord2ymd (ordinal : Z) : Z * Z * Z :=
  let n := ordinal - 1 in
  let n400 := n / 146097 in let n := n mod 146097 in
  let n100 := n / 36524 in let n := n mod 36524 in
  let n4 := n / 1461 in let n := n mod 1461 in
  let n1 := n / 365 in let n := n mod 365 in
  let y := n400 * 400 + 1 + n100 * 100 + n4 * 4 + n1 in
  if (n1 =? 4) || (n100 =? 4) then (y - 1, 12, 31)
  else
    let leapyear := (n1 =? 3) && (negb (n4 =? 24) || (n100 =? 3)) in
    let m := Z.shiftr (n + 50) 5 in
    let preceding :=
      days_before_month_table m + (if (2 <? m) && leapyear then 1 else 0) in
    if n <? preceding then
      let m' := m - 1 in
      let preceding' :=
        preceding
        - (nth (Z.to_nat m') [0; 31; 28; 31; 30; 31; 30; 31; 31; 30; 31; 30; 31] 0
           + (if (m' =? 2) && leapyear then 1 else 0)) in
      (y, m', n - preceding' + 1)
    else (y, m, n - preceding + 1).

(** The checks of the [datetime] constructor. *)
Definition valid (d : datetime) : bool :=
  (1 <=? year d) && (year d <=? 9999) && (1 <=? month d) && (month d <=? 12)
  && (1 <=? day d) && (day d <=? days_in_month (year d) (month d))
  && (0 <=? hour d) && (hour d <=? 23) && (0 <=? minute d) && (minute d <=? 59)
  && (0 <=? second d) && (second d <=? 59)
  && (0 <=? microsecond d) && (microsecond d <=? 999999).

(** [datetime(y, m, d, hh, mm, ss, us)]; [None] is [ValueError]. *)
Definition make (y m d hh mm ss us : Z) : option datetime :=
  let r := mk_datetime y m d hh mm ss us in
  if valid r then Some r else None.

(** [(d2 - d1).days]: the day count of the normalised difference. *)
Definition sub_days (d2 d1 : datetime) : Z :=
  let secs d := hour d * 3600 + minute d * 60 + second d in
  let us :=
    ((ymd2ord (year d2) (month d2) (day d2)
      - ymd2ord (year d1) (month d1) (day d1)) * 86400
     + (secs d2 - secs d1)) * 1000000
    + (microsecond d2 - microsecond d1) in
  us / 86400000000.

(** [time.gmtime] followed by the constructor. *)
Definition of_utc_seconds (t us : Z) : option datetime :=
  let '(y, m, d) := ord2ymd (t / 86400 + 719163) in
  let r := t mod 86400 in
  make y m d (r / 3600) (r mod 3600 / 60) (Z.min (r mod 60) 59) us.

(** [datetime.fromtimestamp(t, tz=timezone.utc)] on a float [t]. *)
Definition fromtimestamp (t : spec_float) : option datetime :=
  match Float.modf t with
  | None => None
  | Some (frac, secs) =>
      match Float.round (Float.mul frac (S754_finite false 8589934592000000 (-33))) with
      | None => None
      | Some us =>
          if 1000000 <=? us then of_utc_seconds (secs + 1) (us - 1000000)
          else if us <? 0 then of_utc_seconds (secs - 1) (us + 1000000)
          else of_utc_seconds secs us
      end
  end.

End Calendar.

(** [datetime_to_date(d)]; [None] is an exception of the constructor. *)
Definition datetime_to_date (d : datetime) : option datetime :=
  Calendar.make (year d) (month d) (day d) 0 0 0 0.

(** [date_diff_in_days(d1, d2)]. *)
Definition date_diff_in_days (d1 d2 : datetime) : option Z :=
  match datetime_to_date d2, datetime_to_date d1 with
  | Some a, Some b => Some (Calendar.sub_days a b)
  | _, _ => None
  end.

(** ** The remote mail store

    The script talks to the mail service through [service.users()];
    every [.execute()] is one remote call.  The store below is the
    service as the script sees it: labels with a name and an opaque
    identifier, threads with a set of label identifiers and their
    messages, a search endpoint answering in pages. *)

Record Label := mk_label { label_name : string; label_id : string }.
Record Message := mk_message { internalDate : Z }.
Record Thread := mk_thread {
  thread_id : string;
  thread_labels : gset string;
  thread_messages : list Message
}.
Record Store := mk_store { store_labels : list Label; store_threads : list Thread }.

(** What the endpoints answer; a key the service leaves out of the JSON
    answer is [None]. *)
Record ThreadRef := mk_ref { ref_id : string }.
Record LabelsResponse := mk_labels_response { resp_labels : option (list Label) }.
Record ThreadsResponse := mk_threads_response {
  resp_threads : option (list ThreadRef);
  nextPageToken : option string
}.
Record ThreadResource := mk_thread_resource { resp_messages : option (list Message) }.

Module Query.

(** The search terms the script composes, joined by single spaces. *)
Inductive atom := InInbox | IsStarred | HasLabel (name : string).
Record term := mk_term { negated : bool; term_atom : atom }.

(** Splitting at every space. *)
Fixpoint split_go (cur : string) (s : string) : list string :=
  match s with
  | EmptyString => [String.rev cur]
  | String c s' =>
      if Ascii.eqb c " "%char then String.rev cur :: split_go EmptyString s'
      else split_go (String c cur) s'
  end.
Definition split (s : string) : list string := split_go EmptyString s.

Definition parse_atom (s : string) : option atom :=
  if String.eqb s "in:inbox" then Some InInbox
  else if String.eqb s "is:starred" then Some IsStarred
  else match strip_prefix "label:" s with
       | Some EmptyString => None
       | Some name => Some (HasLabel name)
       | None => None
       end.

Definition parse_term (s : string) : option term :=
  match s with
  | String "-"%char s' => mk_term true <$> parse_atom s'
  | _ => mk_term false <$> parse_atom s
  end.

Definition parse (q : string) : option (list term) := mapM parse_term (split q).

End Query.

Module Remote.

Definition label_ids (st : Store) : list string := label_id <$> store_labels st.

(** Whether a set of label identifiers has the label of that name. *)
Definition holds (st : Store) (ids : gset string) (name : string) : bool :=
  existsb (λ l, String.eqb (label_name l) name && bool_decide (label_id l ∈ ids))
          (store_labels st).

Definition atom_matches (st : Store) (t : Thread) (a : Query.atom) : bool :=
  match a with
  | Query.InInbox => bool_decide ("INBOX" ∈ thread_labels t)
  | Query.IsStarred => bool_decide ("STARRED" ∈ thread_labels t)
  | Query.HasLabel name => holds st (thread_labels t) name
  end.

Definition term_matches (st : Store) (t : Thread) (tm : Query.term) : bool :=
  xorb (Query.negated tm) (atom_matches st t (Query.term_atom tm)).

Definition matches (st : Store) (tms : list Query.term) (t : Thread) : bool :=
  forallb (term_matches st t) tms.

(** The threads a query selects, in the order the store keeps them. *)
Definition search (st : Store) (tms : list Query.term) : list Thread :=
  List.filter (matches st tms) (store_threads st).

(** Page tokens are the decimal offset of the next page. *)
Definition token_of_offset (n : nat) : string :=
  NilEmpty.string_of_uint (Nat.to_uint n).
Definition offset_of_token (s : string) : option nat :=
  Nat.of_uint <$> NilEmpty.uint_of_string s.

Definition some_unless_empty {A} (l : list A) : option (list A) :=
  match l with [] => None | _ => Some l end.

(** [labels().list(userId="me")]. *)
Definition labels_list (st : Store) : option (LabelsResponse * Store) :=
  Some (mk_labels_response (some_unless_empty (store_labels st)), st).

(** The identifier given to a new label: none in use. *)
Definition new_label_id (st : Store) : string :=
  "Label_" +:+ fresh (omap (strip_prefix "Label_") (label_ids st)).

(** [labels().create(userId="me", body={"name": name})]; the service
    refuses a name that exists. *)
Definition labels_create (name : string) (st : Store) : option (Label * Store) :=
  if existsb (λ l, String.eqb (label_name l) name) (store_labels st) then None
  else
    let l := mk_label name (new_label_id st) in
    Some (l, mk_store (store_labels st ++ [l])%list (store_threads st)).

(** [labels().delete(userId="me", id=id)]: the label goes, and with it
    its identifier on every thread. *)
Definition labels_delete (id : string) (st : Store) : option (unit * Store) :=
  if bool_decide (id ∈ label_ids st) then
    Some (tt, mk_store
                (List.filter (λ l, negb (String.eqb (label_id l) id)) (store_labels st))
                ((λ t, mk_thread (thread_id t) (thread_labels t ∖ {[id]})
                                 (thread_messages t)) <$> store_threads st))
  else None.

(** [threads().list(userId="me", q=q, maxResults=n, pageToken=tok)]. *)
Definition threads_list (q : string) (max_results : Z) (tok : option string)
    (st : Store) : option (ThreadsResponse * Store) :=
  match Query.parse q with
  | None => None
  | Some tms =>
      let offset :=
        match tok with
        | None => Some O
        | Some s => offset_of_token s
        end in
      match offset with
      | None => None
      | Some off =>
          if max_results <=? 0 then None
          else
            let found := search st tms in
            let size := Z.to_nat max_results in
            let page := take size (drop off found) in
            let next :=
              if (off + size <? length found)%nat
              then Some (token_of_offset (off + size)) else None in
            Some (mk_threads_response
                    (some_unless_empty ((λ t, mk_ref (thread_id t)) <$> page)) next,
                  st)
      end
  end.

(** [threads().get(userId="me", id=id)]. *)
Definition threads_get (id : string) (st : Store) : option (ThreadResource * Store) :=
  match List.find (λ t, String.eqb (thread_id t) id) (store_threads st) with
  | Some t => Some (mk_thread_resource (some_unless_empty (thread_messages t)), st)
  | None => None
  end.

Definition valid_label_id (st : Store) (id : option string) : bool :=
  match id with
  | Some s => bool_decide (s ∈ label_ids st)
  | None => false
  end.

Definition known_ids (ids : list (option string)) : gset string :=
  list_to_set (omap id ids).

(** [threads().modify(userId="me", id=id, body={"addLabelIds": add,
    "removeLabelIds": remove})]; an identifier the service does not
    know, [None] among them, is refused. *)
Definition threads_modify (id : string) (add remove : list (option string))
    (st : Store) : option (unit * Store) :=
  if forallb (valid_label_id st) add && forallb (valid_label_id st) remove
     && existsb (λ t, String.eqb (thread_id t) id) (store_threads st)
  then
    Some (tt, mk_store (store_labels st)
                ((λ t, if String.eqb (thread_id t) id
                       then mk_thread (thread_id t)
                              (thread_labels t ∖ known_ids remove ∪ known_ids add)
                              (thread_messages t)
                       else t) <$> store_threads st))
  else None.

End Remote.

(** ** Running the script against the store

    A computation of the script reads and mutates the remote store and
    may raise.  [calls_left] is the number of remote calls the transport
    still serves: the next one after that fails, which aborts the run
    where it stands.  A run that is not interrupted is a run with enough
    calls left. *)

Inductive outcome (A : Type) : Type :=
| Returned (a : A)
| Raised.
Arguments Returned {A} a.
Arguments Raised {A}.

Record World := mk_world { remote : Store; calls_left : nat }.

Definition M (A : Type) : Type := World → outcome A * World.

Definition ret {A} (a : A) : M A := λ w, (Returned a, w).

Definition raise {A} : M A := λ w, (Raised, w).

Definition bind {A B} (m : M A) (k : A → M B) : M B :=
  λ w, match m w with
       | (Returned a, w') => k a w'
       | (Raised, w') => (Raised, w')
       end.

Notation "'let*' x ':=' m 'in' k" := (bind m (λ x, k))
  (at level 10, x name, m at level 100, k at level 200).

(** One [.execute()]. *)
Definition execute {A} (request : Store → option (A * Store)) : M A :=
  λ w, match calls_left w with
       | O => (Raised, w)
       | S n =>
           match request (remote w) with
           | Some (a, st') => (Returned a, mk_world st' n)
           | None => (Raised, mk_world (remote w) n)
           end
       end.

(** [for x in xs: body(x)]. *)
Fixpoint for_each {A} (xs : list A) (body : A → M unit) : M unit :=
  match xs with
  | [] => ret tt
  | x :: xs' => let* _ := body x in for_each xs' body
  end.

(** A comprehension [[f(x) for x in xs]] whose [f] calls the service. *)
Fixpoint collect {A B} (xs : list A) (f : A → M B) : M (list B) :=
  match xs with
  | [] => ret []
  | x :: xs' => let* y := f x in let* ys := collect xs' f in ret (y :: ys)
  end.

(** [range(n)]. *)
Definition range (n : Z) : list Z := Z.of_nat <$> seq 0 (Z.to_nat n).

(** ** The script *)

Definition INBOX_DAYS : Z := 7.
Definition LABEL_PREFIX : string :=
  String (ascii_of_nat 226) (String (ascii_of_nat 140) (String (ascii_of_nat 155) "/")).
Definition MIN_AGE_TO_APPEND_LABEL : Z := 21.
Definition PAGE_SIZE : Z := 100.

Definition get_label_id (name : string) : M (option string) :=
  let* response := execute Remote.labels_list in
  let labels := default [] (resp_labels response) in
  ret (label_id <$> List.find (λ label, String.eqb (label_name label) name) labels).

(** [not x] on an optional string: [None] and the empty string are false. *)
Definition falsy (x : option string) : bool :=
  match x with
  | None => true
  | Some s => String.eqb s ""
  end.

Definition create_label_if_missing (name : string) : M unit :=
  let* found := get_label_id name in
  if falsy found then
    let* _ := execute (Remote.labels_create name) in ret tt
  else ret tt.

Definition setup : M unit :=
  let* _ := for_each (range (INBOX_DAYS + 1))
              (λ i, create_label_if_missing ("x" +:+ str i)) in
  create_label_if_missing "auto-archived".

(** The dictionary [{i: get_label_id(f"x{i}") for i in range(...)}], in
    insertion order. *)
Definition day_labels : M (list (Z * option string)) :=
  collect (range (INBOX_DAYS + 1))
          (λ i, let* id := get_label_id ("x" +:+ str i) in ret (i, id)).

(** [labels[i]]; a missing key raises. *)
Definition getitem (labels : list (Z * option string)) (i : Z) : M (option string) :=
  match List.find (λ kv, kv.1 =? i) labels with
  | Some kv => ret kv.2
  | None => raise
  end.

(** The [while True] loop of [fetch_all_threads].  Every turn makes one
    remote call, so the loop takes at most one turn more than there are
    calls left; [fuel] counts the turns. *)
Fixpoint fetch_loop (fuel : nat) (query : string) (page_size : Z)
    (page_token : option string) (threads : list ThreadRef) : M (list ThreadRef) :=
  match fuel with
  | O => raise
  | S fuel' =>
      let* response := execute (Remote.threads_list query page_size page_token) in
      let threads := (threads ++ default [] (resp_threads response))%list in
      let page_token := nextPageToken response in
      if falsy page_token then ret threads
      else fetch_loop fuel' query page_size page_token threads
  end.

Definition fetch_all_threads_by (page_size : Z) (query : string) : M (list ThreadRef) :=
  λ w, fetch_loop (S (calls_left w)) query page_size None [] w.

Definition fetch_all_threads (query : string) : M (list ThreadRef) :=
  fetch_all_threads_by PAGE_SIZE query.

(** [" ".join(filters)]. *)
Fixpoint join (sep : string) (parts : list string) : string :=
  match parts with
  | [] => ""
  | [p] => p
  | p :: ps => p +:+ sep +:+ join sep ps
  end.

Definition add_inbox_expiration : M unit :=
  let* label_id := get_label_id ("x" +:+ str INBOX_DAYS) in
  let filters :=
    (["in:inbox"; "-is:starred"]
     ++ ((λ i, "-label:x" +:+ str i) <$> range (INBOX_DAYS + 1)))%list in
  let* threads := fetch_all_threads (join " " filters) in
  for_each threads
    (λ thread, execute (Remote.threads_modify (ref_id thread) [label_id] [])).

Definition strip_tags_on_archived_emails : M unit :=
  let* labels := day_labels in
  for_each labels
    (λ item,
       let* threads := fetch_all_threads ("-in:inbox label:x" +:+ str item.1) in
       for_each threads
         (λ thread, execute (Remote.threads_modify (ref_id thread) [] [item.2]))).

(** The advance pass, with the order of the buckets left open;
    the script runs it on [range(INBOX_DAYS + 1)]. *)
Definition step_expiration_in (order : list Z) : M unit :=
  let* labels := day_labels in
  let* auto_label := get_label_id "auto-archived" in
  for_each order
    (λ i,
       let* label_id := getitem labels i in
       let* threads := fetch_all_threads ("label:x" +:+ str i) in
       for_each threads
         (λ thread,
            if i =? 0 then
              let* _ := execute (Remote.threads_modify (ref_id thread)
                                   [auto_label] [label_id]) in
              execute (Remote.threads_modify (ref_id thread) [] [Some "INBOX"])
            else
              let* previous := getitem labels (i - 1) in
              execute (Remote.threads_modify (ref_id thread) [previous] [label_id]))).

Definition step_expiration : M unit := step_expiration_in (range (INBOX_DAYS + 1)).

Definition get_all_labels : M (list Label) :=
  let* results := execute Remote.labels_list in
  ret (default [] (resp_labels results)).

Definition get_or_create_label (label_name' : string) : M string :=
  let* labels := get_all_labels in
  match List.find (λ label, String.eqb (label_name label) label_name') labels with
  | Some label => ret (label_id label)
  | None =>
      let* result := execute (Remote.labels_create label_name') in
      ret (label_id result)
  end.

(** [round(age / n)], or [None] where Python raises. *)
Definition round_div (age n : Z) : option Z :=
  Float.int_true_divide age n ≫= Float.round.

(** The text after the prefix in the name [add_age_label] gives. *)
Definition age_string (age : Z) : option string :=
  if age <? 31 then Some (str age +:+ "d")
  else if age <? 365 then (λ k, str k +:+ "m") <$> round_div age 31
  else (λ k, str k +:+ "y") <$> round_div age 365.

Definition add_age_label (thread_id' : string) (age : Z) : M unit :=
  match age_string age with
  | None => raise
  | Some age_string' =>
      let label_name' := LABEL_PREFIX +:+ age_string' in
      let* label_id' := get_or_create_label label_name' in
      execute (Remote.threads_modify thread_id' [Some label_id'] [])
  end.

(** The timestamp of a message as a date:
    [datetime.fromtimestamp(int(internalDate) / 1000.0, tz=timezone.utc)]. *)
Definition message_date (msg : Message) : option datetime :=
  f ← Float.of_int (internalDate msg);
  q ← Float.true_divide f (S754_finite false 8796093022208000 (-43));
  Calendar.fromtimestamp q.

(** The age in days the annotator computes for a list of messages, when it
    computes one: [Some None] is a thread without messages, [None] an
    exception. *)
Definition thread_age (now : datetime) (messages : list Message) : option (option Z) :=
  match last messages with
  | None => Some None
  | Some last_msg =>
      match message_date last_msg with
      | None => None
      | Some last_msg_date => Some <$> date_diff_in_days last_msg_date now
      end
  end.

Section Annotator.

(** [\d] at the head of a string: whether it starts with a character of
    the Unicode category of decimal digits.  The table belongs to the
    regular expression engine. *)
Variable starts_with_digit : string → bool.

(** [re.compile(r"^⌛[ /]\d+").match(name)]. *)
Definition age_label_re_match (name : string) : bool :=
  match strip_prefix (String (ascii_of_nat 226)
                        (String (ascii_of_nat 140) (String (ascii_of_nat 155) ""))) name with
  | Some (String c rest) =>
      (Ascii.eqb c " " || Ascii.eqb c "/") && starts_with_digit rest
  | _ => false
  end.

Definition remove_all_age_labels : M unit :=
  let* labels := get_all_labels in
  let matching_labels :=
    List.filter (λ label, age_label_re_match (label_name label)) labels in
  for_each matching_labels
    (λ label, execute (Remote.labels_delete (label_id label))).

(** The pass; [now] is the clock when the sweep is over. *)
Definition append_too_old_labels (now : datetime) : M unit :=
  let* _ := remove_all_age_labels in
  let* threads := fetch_all_threads "in:inbox" in
  for_each threads
    (λ thread,
       let* thread_meta := execute (Remote.threads_get (ref_id thread)) in
       let messages := default [] (resp_messages thread_meta) in
       match thread_age now messages with
       | None => raise
       | Some None => ret tt
       | Some (Some age) =>
           if MIN_AGE_TO_APPEND_LABEL <=? age
           then add_age_label (ref_id thread) age
           else ret tt
       end).

End Annotator.

(** The ASCII digits, which every table of decimal digits contains. *)
Definition ascii_digit (c : ascii) : bool :=
  (48 <=? nat_of_ascii c)%nat && (nat_of_ascii c <=? 57)%nat.
Definition starts_with_ascii_digit (s : string) : bool :=
  match s with
  | String c _ => ascii_digit c
  | EmptyString => false
  end.

(** ** Uninterrupted runs *)

(** [runs m st a st' c]: started on the store [st] with at least [c]
    calls left, [m] returns [a], leaves the store [st'] and has made
    exactly [c] calls. *)
Definition runs {A} (m : M A) (st : Store) (a : A) (st' : Store) (cost : nat) : Prop :=
  ∀ n, m (mk_world st (cost + n)) = (Returned a, mk_world st' n).

Section Runs.

Context {A B : Type}.

Lemma runs_ret (a : A) st : runs (ret a) st a st 0.
Proof. by intros n. Qed.

Lemma runs_bind (m : M A) (k : A → M B) st a st1 c1 b st2 c2 :
  runs m st a st1 c1 → runs (k a) st1 b st2 c2 →
  runs (bind m k) st b st2 (c1 + c2).
Proof.
  intros Hm Hk n. unfold bind.
  replace (c1 + c2 + n)%nat with (c1 + (c2 + n))%nat by lia.
  by rewrite Hm, Hk.
Qed.

Lemma runs_execute (request : Store → option (A * Store)) st a st' :
  request st = Some (a, st') → runs (execute request) st a st' 1.
Proof. intros Hr n. unfold execute. simpl. by rewrite Hr. Qed.

Lemma runs_cost_eq (m : M A) st a st' c c' :
  c = c' → runs m st a st' c → runs m st a st' c'.
Proof. by intros ->. Qed.

End Runs.

Lemma bind_runs {A B} (m : M A) (k : A → M B) st a st1 c n :
  runs m st a st1 c → bind m k (mk_world st (c + n)) = k a (mk_world st1 n).
Proof. intros Hm. unfold bind. by rewrite Hm. Qed.

(** The loop over a list, each turn of which runs. *)
Lemma runs_for_each {A} (I : list A → Store → Prop) (body : A → M unit) :
  ∀ xs st,
    I xs st →
    (∀ x rest st1, I (x :: rest) st1 →
       ∃ st2 c, runs (body x) st1 tt st2 c ∧ I rest st2) →
    ∃ st' c, runs (for_each xs body) st tt st' c ∧ I [] st'.
Proof.
  induction xs as [|x xs IH]; intros st HI Hbody.
  - exists st, O. split; [apply runs_ret | done].
  - destruct (Hbody x xs st HI) as (st2 & c & Hrun & HI2).
    destruct (IH st2 HI2 Hbody) as (st' & c' & Hrun' & HI').
    exists st', (c + c')%nat. split; [|done].
    simpl. eapply runs_bind; eauto.
Qed.

(** ** The label registry *)

Lemma default_some_unless_empty {A} (l : list A) :
  default [] (Remote.some_unless_empty l) = l.
Proof. by destruct l. Qed.

Definition find_label (st : Store) (name : string) : option Label :=
  List.find (λ label, String.eqb (label_name label) name) (store_labels st).

Lemma runs_get_label_id name st :
  runs (get_label_id name) st (label_id <$> find_label st name) st 1.
Proof.
  unfold get_label_id. eapply (runs_bind _ _ _ _ _ 1 _ _ 0).
  - by apply runs_execute.
  - simpl. rewrite default_some_unless_empty. apply runs_ret.
Qed.

Lemma runs_get_all_labels st :
  runs get_all_labels st (store_labels st) st 1.
Proof.
  unfold get_all_labels. eapply (runs_bind _ _ _ _ _ 1 _ _ 0).
  - by apply runs_execute.
  - simpl. rewrite default_some_unless_empty. apply runs_ret.
Qed.

(** ** Pagination *)

Definition refs_of (ts : list Thread) : list ThreadRef :=
  (λ t, mk_ref (thread_id t)) <$> ts.

Lemma offset_of_token_of_offset n :
  Remote.offset_of_token (Remote.token_of_offset n) = Some n.
Proof.
  unfold Remote.offset_of_token, Remote.token_of_offset.
  rewrite NilEmpty.usu. simpl. f_equal. apply DecimalNat.Unsigned.of_to.
Qed.

Lemma to_uint_not_nil n : Nat.to_uint n ≠ Nil.
Proof.
  intros Hnil.
  pose proof (DecimalNat.Unsigned.to_of (Nat.to_uint n)) as H.
  rewrite DecimalNat.Unsigned.of_to, Hnil in H. discriminate H.
Qed.

Lemma token_of_offset_not_falsy n :
  falsy (Some (Remote.token_of_offset n)) = false.
Proof.
  unfold falsy, Remote.token_of_offset. apply String.eqb_neq.
  pose proof (to_uint_not_nil n) as Hn.
  by destruct (Nat.to_uint n).
Qed.

(** The cursor the loop holds when [off] results have been received. *)
Definition cursor_at (off : nat) (tok : option string) : Prop :=
  (off = O ∧ tok = None) ∨ tok = Some (Remote.token_of_offset off).

Lemma fetch_loop_runs st q tms page_size :
  Query.parse q = Some tms → 0 < page_size →
  ∀ m off tok acc,
    (length (Remote.search st tms) - off ≤ m)%nat →
    cursor_at off tok →
    ∃ c, ∀ fuel n, (c ≤ fuel)%nat →
      fetch_loop fuel q page_size tok acc (mk_world st (c + n))
      = (Returned (acc ++ refs_of (drop off (Remote.search st tms)))%list,
         mk_world st n).
Proof.
  intros Hq Hp. set (found := Remote.search st tms).
  assert (Hlist : ∀ off tok, cursor_at off tok →
    Remote.threads_list q page_size tok st
    = Some (mk_threads_response
              (Remote.some_unless_empty
                 (refs_of (take (Z.to_nat page_size) (drop off found))))
              (if (off + Z.to_nat page_size <? length found)%nat
               then Some (Remote.token_of_offset (off + Z.to_nat page_size))
               else None), st)).
  { intros off tok Htok. unfold Remote.threads_list. rewrite Hq.
    assert (Hoff : match tok with
                   | Some s => Remote.offset_of_token s
                   | None => Some O
                   end = Some off).
    { destruct Htok as [[-> ->]| ->]; [done|apply offset_of_token_of_offset]. }
    rewrite Hoff. destruct (page_size <=? 0) eqn:Hle; [lia|done]. }
  induction m as [|m IH]; intros off tok acc Hm Htok.
  - exists 1%nat. intros fuel n Hfuel. destruct fuel as [|fuel]; [lia|].
    simpl. unfold bind, execute. simpl. rewrite (Hlist off tok Htok).
    destruct (off + Z.to_nat page_size <? length found)%nat eqn:Hlt.
    { apply Nat.ltb_lt in Hlt. fold found in Hm. lia. }
    simpl. rewrite default_some_unless_empty.
    rewrite take_ge; [done|]. rewrite length_drop. fold found in Hm. lia.
  - destruct (off + Z.to_nat page_size <? length found)%nat eqn:Hlt.
    + destruct (IH (off + Z.to_nat page_size)%nat
                  (Some (Remote.token_of_offset (off + Z.to_nat page_size)))
                  (acc ++ refs_of (take (Z.to_nat page_size) (drop off found)))%list)
        as [c Hc].
      { fold found in Hm |- *. lia. }
      { by right. }
      exists (S c). intros fuel n Hfuel. destruct fuel as [|fuel]; [lia|].
      simpl. unfold bind at 1, execute. simpl. rewrite (Hlist off tok Htok).
      rewrite Hlt. cbn [nextPageToken resp_threads].
      rewrite token_of_offset_not_falsy, default_some_unless_empty.
      rewrite Hc by lia. f_equal. f_equal. rewrite <- app_assoc. f_equal.
      unfold refs_of. rewrite <- fmap_app. f_equal.
      rewrite <- drop_drop. apply take_drop.
    + exists 1%nat. intros fuel n Hfuel. destruct fuel as [|fuel]; [lia|].
      simpl. unfold bind, execute. simpl. rewrite (Hlist off tok Htok), Hlt.
      simpl. rewrite default_some_unless_empty.
      apply Nat.ltb_ge in Hlt.
      rewrite take_ge; [done|]. rewrite length_drop. lia.
Qed.

(** An uninterrupted fetch returns every thread the query selects, in the
    order of the store, and leaves the store as it is. *)
Lemma runs_fetch_all_threads_by st q tms page_size :
  Query.parse q = Some tms → 0 < page_size →
  ∃ c, runs (fetch_all_threads_by page_size q) st
            (refs_of (Remote.search st tms)) st c.
Proof.
  intros Hq Hp.
  destruct (fetch_loop_runs st q tms page_size Hq Hp
              (length (Remote.search st tms)) O None []) as [c Hc].
  { lia. }
  { by left. }
  exists c. intros n. unfold fetch_all_threads_by. simpl calls_left.
  rewrite Hc by lia. by rewrite drop_0.
Qed.

Lemma runs_fetch_all_threads st q tms :
  Query.parse q = Some tms →
  ∃ c, runs (fetch_all_threads q) st (refs_of (Remote.search st tms)) st c.
Proof. intros Hq. by apply runs_fetch_all_threads_by. Qed.

(** ** Well-formed stores *)

Global Instance Label_eq_dec : EqDecision Label.
Proof. solve_decision. Defined.

(** What the service guarantees of its own data: identifiers and names of
    labels are unique, thread identifiers are unique, a thread carries
    identifiers of existing labels only, and the inbox is the system label
    [INBOX]. *)
Definition store_ok (st : Store) : bool :=
  bool_decide (NoDup (Remote.label_ids st))
  && bool_decide (NoDup (label_name <$> store_labels st))
  && bool_decide (NoDup (thread_id <$> store_threads st))
  && forallb (λ t, bool_decide (thread_labels t ⊆ list_to_set (Remote.label_ids st)))
             (store_threads st)
  && bool_decide (mk_label "INBOX" "INBOX" ∈ store_labels st).

Record well_formed (st : Store) : Prop := {
  wf_label_ids : NoDup (Remote.label_ids st);
  wf_label_names : NoDup (label_name <$> store_labels st);
  wf_thread_ids : NoDup (thread_id <$> store_threads st);
  wf_thread_labels :
    ∀ t, t ∈ store_threads st → thread_labels t ⊆ list_to_set (Remote.label_ids st);
  wf_inbox : mk_label "INBOX" "INBOX" ∈ store_labels st
}.

Lemma store_ok_well_formed st : store_ok st = true ↔ well_formed st.
Proof.
  unfold store_ok. rewrite !andb_true_iff, !bool_decide_eq_true, forallb_forall.
  split.
  - intros [[[[H1 H2] H3] H4] H5]. split; try done.
    intros t Ht. apply list_elem_of_In, H4 in Ht. by apply bool_decide_eq_true in Ht.
  - intros [H1 H2 H3 H4 H5]. repeat split; try done.
    intros t Ht. apply bool_decide_eq_true, H4. by apply list_elem_of_In.
Qed.

(** ** Relabelling threads *)

Definition set_labels (t : Thread) (L : gset string) : Thread :=
  mk_thread (thread_id t) L (thread_messages t).

(** The store in which every selected thread has had its labels changed
    by [g]. *)
Definition relabel (sel : Thread → bool) (g : gset string → gset string)
    (st : Store) : Store :=
  mk_store (store_labels st)
    ((λ t, if sel t then set_labels t (g (thread_labels t)) else t)
       <$> store_threads st).

Definition thread_ids (st : Store) : list string := thread_id <$> store_threads st.

Lemma relabel_labels sel g st : store_labels (relabel sel g st) = store_labels st.
Proof. done. Qed.

Lemma relabel_thread_ids sel g st : thread_ids (relabel sel g st) = thread_ids st.
Proof.
  unfold thread_ids, relabel. simpl. rewrite <- list_fmap_compose.
  apply list_fmap_ext. intros i t _. simpl. by destruct (sel t).
Qed.

Lemma relabel_ext sel1 sel2 g1 g2 st :
  (∀ t, t ∈ store_threads st → sel1 t = sel2 t) →
  (∀ t, t ∈ store_threads st → sel1 t = true → g1 (thread_labels t) = g2 (thread_labels t)) →
  relabel sel1 g1 st = relabel sel2 g2 st.
Proof.
  intros Hsel Hg. unfold relabel. f_equal.
  apply list_fmap_ext. intros i t Hi.
  assert (Ht : t ∈ store_threads st) by (eapply list_elem_of_lookup_2; eauto).
  rewrite <- (Hsel t Ht). destruct (sel1 t) eqn:Hs; [|done].
  by rewrite (Hg t Ht Hs).
Qed.

Lemma relabel_none sel g st :
  (∀ t, t ∈ store_threads st → sel t = false) → relabel sel g st = st.
Proof.
  intros Hsel. destruct st as [ls ts]. unfold relabel. simpl in *. f_equal.
  rewrite <- (list_fmap_id ts) at 2. apply list_fmap_ext. intros i t Hi. simpl.
  rewrite Hsel; [done|]. eapply list_elem_of_lookup_2; eauto.
Qed.

Definition modify_labels (add remove : list (option string)) (L : gset string) : gset string :=
  L ∖ Remote.known_ids remove ∪ Remote.known_ids add.

Lemma runs_modify st tid add remove :
  forallb (Remote.valid_label_id st) add = true →
  forallb (Remote.valid_label_id st) remove = true →
  tid ∈ thread_ids st →
  runs (execute (Remote.threads_modify tid add remove)) st tt
       (relabel (λ t, String.eqb (thread_id t) tid) (modify_labels add remove) st) 1.
Proof.
  intros Hadd Hrem Htid. apply runs_execute. unfold Remote.threads_modify.
  rewrite Hadd, Hrem. simpl.
  assert (Hex : existsb (λ t, String.eqb (thread_id t) tid) (store_threads st) = true).
  { apply existsb_exists. apply list_elem_of_fmap in Htid as (t & -> & Ht).
    exists t. split; [by apply list_elem_of_In|apply String.eqb_refl]. }
  by rewrite Hex.
Qed.

Lemma NoDup_fmap_eq {A B} (f : A → B) (l : list A) x y :
  NoDup (f <$> l) → x ∈ l → y ∈ l → f x = f y → x = y.
Proof.
  induction l as [|a l IH]; intros Hnd Hx Hy Hf; [by apply elem_of_nil in Hx|].
  rewrite fmap_cons in Hnd. apply NoDup_cons in Hnd as [Ha Hnd].
  apply elem_of_cons in Hx as [->|Hx]; apply elem_of_cons in Hy as [->|Hy]; try done.
  - destruct Ha. rewrite Hf. by apply list_elem_of_fmap_2.
  - destruct Ha. rewrite <- Hf. by apply list_elem_of_fmap_2.
  - by apply IH.
Qed.

(** A loop that relabels the threads of a list one after the other. *)
Lemma runs_for_each_ids (body : ThreadRef → M unit) g labels ids :
  (∀ r st1, store_labels st1 = labels → thread_ids st1 = ids → ref_id r ∈ ids →
     ∃ c, runs (body r) st1 tt
            (relabel (λ t, String.eqb (thread_id t) (ref_id r)) g st1) c) →
  ∀ l st, store_labels st = labels → thread_ids st = ids →
    NoDup l → l ⊆ ids →
    ∃ c, runs (for_each (mk_ref <$> l) body) st tt
              (relabel (λ t, bool_decide (thread_id t ∈ l)) g st) c.
Proof.
  intros Hbody. induction l as [|x l IH]; intros st Hl Hi Hnd Hsub.
  - exists O. rewrite relabel_none; [apply runs_ret|].
    intros t _. apply bool_decide_eq_false. apply not_elem_of_nil.
  - apply NoDup_cons in Hnd as [Hx Hnd].
    destruct (Hbody (mk_ref x) st Hl Hi) as [c1 Hc1].
    { apply Hsub. left. }
    simpl in Hc1.
    destruct (IH (relabel (λ t, String.eqb (thread_id t) x) g st)) as [c2 Hc2];
      [done|by rewrite relabel_thread_ids|done|set_solver|].
    exists (c1 + c2)%nat. rewrite fmap_cons. simpl.
    eapply runs_bind; [exact Hc1|].
    replace (relabel (λ t, bool_decide (thread_id t ∈ x :: l)) g st)
      with (relabel (λ t, bool_decide (thread_id t ∈ l)) g
              (relabel (λ t, String.eqb (thread_id t) x) g st)); [done|].
    unfold relabel. simpl. f_equal. rewrite <- list_fmap_compose.
    apply list_fmap_ext. intros i t _. simpl.
    destruct (String.eqb_spec (thread_id t) x) as [Heq|Hne]; simpl.
    + rewrite Heq. rewrite (bool_decide_eq_false_2 (x ∈ l)) by done.
      rewrite bool_decide_eq_true_2; [done|left].
    + destruct (decide (thread_id t ∈ l)) as [Hin|Hnin].
      * rewrite !bool_decide_eq_true_2; [done|by right|done].
      * rewrite !bool_decide_eq_false_2; [done| |done].
        intros [?|?]%elem_of_cons; done.
Qed.

Lemma elem_of_List_filter {A} (f : A → bool) (l : list A) x :
  x ∈ List.filter f l ↔ f x = true ∧ x ∈ l.
Proof. rewrite !list_elem_of_In, filter_In. tauto. Qed.

Lemma NoDup_List_filter {A} (f : A → bool) (l : list A) :
  NoDup l → NoDup (List.filter f l).
Proof.
  induction 1 as [|x l Hx Hnd IH]; simpl; [constructor|].
  destruct (f x); [|done]. constructor; [|done].
  rewrite elem_of_List_filter. tauto.
Qed.

(** Fetching the threads a query selects and relabelling each of them. *)
Lemma runs_fetch_relabel (body : ThreadRef → M unit) g st q tms :
  Query.parse q = Some tms →
  NoDup (thread_ids st) →
  (∀ r st1, store_labels st1 = store_labels st → thread_ids st1 = thread_ids st →
     ref_id r ∈ thread_ids st →
     ∃ c, runs (body r) st1 tt
            (relabel (λ t, String.eqb (thread_id t) (ref_id r)) g st1) c) →
  ∃ c, runs (let* threads := fetch_all_threads q in for_each threads body) st tt
            (relabel (Remote.matches st tms) g st) c.
Proof.
  intros Hq Hnd Hbody.
  destruct (runs_fetch_all_threads st q tms Hq) as [c1 Hc1].
  set (sel := Remote.search st tms) in *.
  destruct (runs_for_each_ids body g (store_labels st) (thread_ids st) Hbody
              (thread_id <$> sel) st) as [c2 Hc2]; [done|done| | |].
  { unfold sel, Remote.search. unfold thread_ids in Hnd.
    eapply NoDup_fmap_2_strong; [|apply NoDup_List_filter, (NoDup_fmap_1 thread_id), Hnd].
    intros x y [_ Hx]%elem_of_List_filter [_ Hy]%elem_of_List_filter Hxy.
    eapply NoDup_fmap_eq; eauto. }
  { intros x (t & -> & Ht)%list_elem_of_fmap. apply list_elem_of_fmap_2.
    unfold sel, Remote.search in Ht. by apply elem_of_List_filter in Ht as [_ Ht]. }
  exists (c1 + c2)%nat. eapply runs_bind; [exact Hc1|].
  unfold refs_of. rewrite (list_fmap_compose thread_id mk_ref) .
  erewrite (relabel_ext (Remote.matches st tms)); [exact Hc2| |done].
  intros t Ht. symmetry. destruct (Remote.matches st tms t) eqn:Hm.
  - apply bool_decide_eq_true. apply list_elem_of_fmap_2.
    unfold sel, Remote.search. by apply elem_of_List_filter.
  - apply bool_decide_eq_false. intros (t' & Heq & Ht')%list_elem_of_fmap.
    unfold sel, Remote.search in Ht'. apply elem_of_List_filter in Ht' as [Hm' Ht'].
    assert (t = t') by (eapply NoDup_fmap_eq; eauto). subst t'.
    rewrite Hm in Hm'. done.
Qed.

(** ** The countdown state machine *)

Definition bucket_name (i : Z) : string := "x" +:+ str i.

Definition in_bucket (st : Store) (t : Thread) (i : Z) : bool :=
  Remote.holds st (thread_labels t) (bucket_name i).

Definition is_archived (st : Store) (t : Thread) : bool :=
  Remote.holds st (thread_labels t) "auto-archived".

Definition in_inbox (t : Thread) : bool := bool_decide ("INBOX" ∈ thread_labels t).

(** The buckets a thread is in. *)
Definition buckets_of (st : Store) (t : Thread) : list Z :=
  List.filter (in_bucket st t) (range (INBOX_DAYS + 1)).

Definition one_bucket_at_most (st : Store) : bool :=
  forallb (λ t, (length (buckets_of st t) <=? 1)%nat) (store_threads st).

(** [setup] has been run: the bucket labels and the archived label exist. *)
Definition countdown_ready (st : Store) : bool :=
  forallb (λ i, bool_decide (is_Some (find_label st (bucket_name i))))
          (range (INBOX_DAYS + 1))
  && bool_decide (is_Some (find_label st "auto-archived")).

Definition bucket_id (st : Store) (i : Z) : option string :=
  label_id <$> find_label st (bucket_name i).

Definition archived_id (st : Store) : option string :=
  label_id <$> find_label st "auto-archived".

Lemma find_label_Some st name l :
  find_label st name = Some l → l ∈ store_labels st ∧ label_name l = name.
Proof.
  unfold find_label. intros [Hin Heq]%find_some. split.
  - by apply list_elem_of_In.
  - by apply String.eqb_eq.
Qed.

Lemma find_label_valid st name l :
  find_label st name = Some l → Remote.valid_label_id st (Some (label_id l)) = true.
Proof.
  intros [Hin _]%find_label_Some. simpl. apply bool_decide_eq_true.
  by apply list_elem_of_fmap_2.
Qed.

Lemma holds_same_labels st1 st2 L name :
  store_labels st1 = store_labels st2 →
  Remote.holds st1 L name = Remote.holds st2 L name.
Proof. unfold Remote.holds. by intros ->. Qed.

Lemma holds_find st L name l :
  NoDup (label_name <$> store_labels st) →
  find_label st name = Some l →
  Remote.holds st L name = bool_decide (label_id l ∈ L).
Proof.
  intros Hnd [Hin Hname]%find_label_Some. unfold Remote.holds.
  destruct (decide (label_id l ∈ L)) as [HL|HL].
  - rewrite bool_decide_eq_true_2 by done. apply existsb_exists.
    exists l. split; [by apply list_elem_of_In|].
    rewrite Hname, String.eqb_refl. by apply bool_decide_eq_true.
  - rewrite bool_decide_eq_false_2 by done.
    apply not_true_is_false. intros (l' & Hin' & Hl')%existsb_exists.
    apply andb_true_iff in Hl' as [Hn' HL']. apply String.eqb_eq in Hn'.
    apply bool_decide_eq_true in HL'. apply list_elem_of_In in Hin'.
    assert (l' = l) by (eapply NoDup_fmap_eq; eauto; congruence).
    by subst l'.
Qed.

Lemma find_label_id_inj st n1 n2 l1 l2 :
  NoDup (Remote.label_ids st) →
  find_label st n1 = Some l1 → find_label st n2 = Some l2 →
  label_id l1 = label_id l2 → n1 = n2.
Proof.
  intros Hnd [Hin1 <-]%find_label_Some [Hin2 <-]%find_label_Some Hid.
  f_equal. eapply NoDup_fmap_eq; eauto.
Qed.

Lemma runs_collect {A B} (f : A → M B) (h : A → B) st c xs :
  (∀ x, runs (f x) st (h x) st c) →
  runs (collect xs f) st (h <$> xs) st (length xs * c).
Proof.
  intros Hf. induction xs as [|x xs IH]; simpl; [apply runs_ret|].
  eapply runs_bind; [apply Hf|].
  eapply runs_cost_eq; [|eapply runs_bind; [apply IH|apply runs_ret]]. lia.
Qed.

Definition day_labels_of (st : Store) : list (Z * option string) :=
  (λ i, (i, bucket_id st i)) <$> range (INBOX_DAYS + 1).

Lemma runs_day_labels st :
  runs day_labels st (day_labels_of st) st 8.
Proof.
  unfold day_labels, day_labels_of.
  eapply (runs_cost_eq _ _ _ _ (length (range (INBOX_DAYS + 1)) * 1)); [done|].
  apply runs_collect.
  intros i. eapply (runs_bind _ _ _ _ _ 1 _ _ 0);
    [apply runs_get_label_id|apply runs_ret].
Qed.

Lemma in_range_iff i n : i ∈ range n ↔ 0 ≤ i < n.
Proof.
  unfold range. rewrite list_elem_of_fmap. split.
  - intros (k & -> & Hk). apply list_elem_of_In, in_seq in Hk. lia.
  - intros Hi. exists (Z.to_nat i). split; [lia|].
    apply list_elem_of_In, in_seq. lia.
Qed.

Lemma getitem_day_labels st i :
  0 ≤ i ≤ INBOX_DAYS →
  getitem (day_labels_of st) i = ret (bucket_id st i).
Proof.
  intros Hi. unfold getitem, day_labels_of.
  assert (Hin : i ∈ range (INBOX_DAYS + 1)) by (apply in_range_iff; lia).
  induction (range (INBOX_DAYS + 1)) as [|j l IH]; [by apply elem_of_nil in Hin|].
  rewrite fmap_cons. simpl. destruct (Z.eqb_spec j i) as [->|Hne]; [done|].
  apply IH. apply elem_of_cons in Hin as [->|Hin]; done.
Qed.

(** What the advance pass does to the labels of a thread of bucket [i]. *)
Definition advance_labels (st : Store) (i : Z) (L : gset string) : gset string :=
  if i =? 0 then
    modify_labels [] [Some "INBOX"]
      (modify_labels [archived_id st] [bucket_id st 0] L)
  else modify_labels [bucket_id st (i - 1)] [bucket_id st i] L.

(** One turn of the outer loop of the pass, on the bucket [i]. *)
Definition move_bucket (st : Store) (cur : Store) (i : Z) : Store :=
  relabel (λ t, Remote.holds st (thread_labels t) (bucket_name i))
          (advance_labels st i) cur.

Lemma relabel_twice_by_id x g1 g2 st :
  relabel (λ t, String.eqb (thread_id t) x) g2
    (relabel (λ t, String.eqb (thread_id t) x) g1 st)
  = relabel (λ t, String.eqb (thread_id t) x) (g2 ∘ g1) st.
Proof.
  unfold relabel. simpl. f_equal. rewrite <- list_fmap_compose.
  apply list_fmap_ext. intros k t _. simpl.
  destruct (String.eqb (thread_id t) x) eqn:Hx; simpl; by rewrite Hx.
Qed.

Lemma countdown_ready_bucket st i :
  countdown_ready st = true → 0 ≤ i ≤ INBOX_DAYS →
  ∃ l, find_label st (bucket_name i) = Some l.
Proof.
  intros [Hb _]%andb_true_iff Hi. rewrite forallb_forall in Hb.
  specialize (Hb i). rewrite bool_decide_eq_true in Hb.
  apply Hb. apply list_elem_of_In, in_range_iff. lia.
Qed.

Lemma countdown_ready_archived st :
  countdown_ready st = true → ∃ l, find_label st "auto-archived" = Some l.
Proof. intros [_ Ha]%andb_true_iff. by apply bool_decide_eq_true in Ha. Qed.

Lemma valid_label_id_same_labels st1 st2 x :
  store_labels st1 = store_labels st2 →
  Remote.valid_label_id st1 x = Remote.valid_label_id st2 x.
Proof. unfold Remote.valid_label_id, Remote.label_ids. by intros ->. Qed.

Lemma bucket_id_valid st i :
  countdown_ready st = true → 0 ≤ i ≤ INBOX_DAYS →
  Remote.valid_label_id st (bucket_id st i) = true.
Proof.
  intros Hr Hi. destruct (countdown_ready_bucket st i Hr Hi) as [l Hl].
  unfold bucket_id. rewrite Hl. by eapply find_label_valid.
Qed.

Lemma archived_id_valid st :
  countdown_ready st = true → Remote.valid_label_id st (archived_id st) = true.
Proof.
  intros Hr. destruct (countdown_ready_archived st Hr) as [l Hl].
  unfold archived_id. rewrite Hl. by eapply find_label_valid.
Qed.

Lemma inbox_valid st :
  well_formed st → Remote.valid_label_id st (Some "INBOX") = true.
Proof.
  intros Hwf. simpl. apply bool_decide_eq_true.
  apply (list_elem_of_fmap_2 label_id _ _ (wf_inbox st Hwf)).
Qed.

Lemma parse_bucket_query i :
  0 ≤ i ≤ INBOX_DAYS →
  Query.parse ("label:x" +:+ str i)
  = Some [Query.mk_term false (Query.HasLabel (bucket_name i))].
Proof.
  intros Hi. unfold INBOX_DAYS in Hi.
  assert (Hc : i = 0 ∨ i = 1 ∨ i = 2 ∨ i = 3 ∨ i = 4 ∨ i = 5 ∨ i = 6 ∨ i = 7) by lia.
  repeat destruct Hc as [->|Hc]; try subst i; reflexivity.
Qed.

Lemma bucket_name_inj i j :
  0 ≤ i ≤ INBOX_DAYS → 0 ≤ j ≤ INBOX_DAYS → bucket_name i = bucket_name j → i = j.
Proof.
  unfold INBOX_DAYS. intros Hi Hj.
  assert (Hic : i = 0 ∨ i = 1 ∨ i = 2 ∨ i = 3 ∨ i = 4 ∨ i = 5 ∨ i = 6 ∨ i = 7) by lia.
  assert (Hjc : j = 0 ∨ j = 1 ∨ j = 2 ∨ j = 3 ∨ j = 4 ∨ j = 5 ∨ j = 6 ∨ j = 7) by lia.
  clear Hi Hj.
  repeat destruct Hic as [->|Hic]; try subst i;
    repeat destruct Hjc as [->|Hjc]; try subst j;
    first [reflexivity | intros H; vm_compute in H; discriminate H].
Qed.

Lemma bucket_name_not_reserved i :
  0 ≤ i ≤ INBOX_DAYS →
  bucket_name i ≠ "auto-archived" ∧ bucket_name i ≠ "INBOX".
Proof.
  unfold INBOX_DAYS. intros Hi.
  assert (Hic : i = 0 ∨ i = 1 ∨ i = 2 ∨ i = 3 ∨ i = 4 ∨ i = 5 ∨ i = 6 ∨ i = 7) by lia.
  clear Hi.
  repeat destruct Hic as [->|Hic]; try subst i;
    split; intros H; vm_compute in H; discriminate H.
Qed.

(** The labels of a thread after the buckets of a list have been
    processed in turn. *)
Definition move_labels (st : Store) (L : gset string) (i : Z) : gset string :=
  if Remote.holds st L (bucket_name i) then advance_labels st i L else L.

Definition map_labels (h : gset string → gset string) (st : Store) : Store :=
  mk_store (store_labels st)
           ((λ t, set_labels t (h (thread_labels t))) <$> store_threads st).

(** The bucket of a set of labels: the first one it has. *)
Definition bucket_of_labels (st : Store) (L : gset string) : option Z :=
  List.find (λ i, Remote.holds st L (bucket_name i)) (range (INBOX_DAYS + 1)).

(** The advance as the specification has it: every thread moves by the
    bucket it is in when the pass starts. *)
Definition advance_all_at_once (st : Store) : Store :=
  map_labels (λ L, match bucket_of_labels st L with
                   | Some i => advance_labels st i L
                   | None => L
                   end) st.

Lemma set_labels_id t : set_labels t (thread_labels t) = t.
Proof. by destruct t. Qed.

Lemma move_bucket_map_labels st cur i :
  move_bucket st cur i = map_labels (λ L, move_labels st L i) cur.
Proof.
  unfold move_bucket, relabel, map_labels, move_labels. f_equal.
  apply list_fmap_ext. intros k t _. simpl.
  destruct (Remote.holds st (thread_labels t) (bucket_name i)); [done|].
  by rewrite set_labels_id.
Qed.

Lemma map_labels_compose h1 h2 st :
  map_labels h2 (map_labels h1 st) = map_labels (h2 ∘ h1) st.
Proof.
  unfold map_labels. simpl. f_equal. rewrite <- list_fmap_compose.
  by apply list_fmap_ext.
Qed.

Lemma map_labels_ext h1 h2 st :
  (∀ t, t ∈ store_threads st → h1 (thread_labels t) = h2 (thread_labels t)) →
  map_labels h1 st = map_labels h2 st.
Proof.
  intros H. unfold map_labels. f_equal. apply list_fmap_ext.
  intros k t Hk. simpl. rewrite H; [done|]. eapply list_elem_of_lookup_2; eauto.
Qed.

Lemma map_labels_id st : map_labels (λ L, L) st = st.
Proof.
  destruct st as [ls ts]. unfold map_labels. simpl. f_equal.
  rewrite <- (list_fmap_id ts) at 2. apply list_fmap_ext.
  intros k t _. apply set_labels_id.
Qed.

Lemma foldl_move_bucket st order cur :
  foldl (move_bucket st) cur order
  = map_labels (λ L, foldl (move_labels st) L order) cur.
Proof.
  revert cur. induction order as [|i order IH]; intros cur; simpl.
  - by rewrite map_labels_id.
  - by rewrite IH, move_bucket_map_labels, map_labels_compose.
Qed.

Lemma foldl_move_labels_skip st order L :
  (∀ i, i ∈ order → Remote.holds st L (bucket_name i) = false) →
  foldl (move_labels st) L order = L.
Proof.
  induction order as [|i order IH]; intros H; simpl; [done|].
  unfold move_labels at 2. rewrite H by left. apply IH.
  intros j Hj. apply H. by right.
Qed.

Lemma foldl_move_labels_one st l1 l2 j L :
  (∀ i, i ∈ l1 → Remote.holds st L (bucket_name i) = false) →
  Remote.holds st L (bucket_name j) = true →
  (∀ i, i ∈ l2 → Remote.holds st (advance_labels st j L) (bucket_name i) = false) →
  foldl (move_labels st) L (l1 ++ j :: l2) = advance_labels st j L.
Proof.
  intros H1 Hj H2. rewrite foldl_app, (foldl_move_labels_skip st l1 L H1).
  simpl. unfold move_labels at 2. rewrite Hj.
  by apply foldl_move_labels_skip.
Qed.

Lemma range_split j :
  0 ≤ j ≤ INBOX_DAYS →
  ∃ l1 l2, range (INBOX_DAYS + 1) = (l1 ++ j :: l2)%list
           ∧ (∀ i, i ∈ l1 → 0 ≤ i < j) ∧ (∀ i, i ∈ l2 → j < i ≤ INBOX_DAYS).
Proof.
  intros Hj. exists (range j), ((λ k, j + 1 + k) <$> range (INBOX_DAYS - j)).
  split; [|split].
  - unfold INBOX_DAYS in *.
    assert (Hc : j = 0 ∨ j = 1 ∨ j = 2 ∨ j = 3 ∨ j = 4 ∨ j = 5 ∨ j = 6 ∨ j = 7) by lia.
    repeat destruct Hc as [->|Hc]; try subst j; reflexivity.
  - intros i Hi%in_range_iff. lia.
  - intros i (k & -> & Hk%in_range_iff)%list_elem_of_fmap. lia.
Qed.

Lemma filter_length_two {A} (f : A → bool) (l : list A) x y :
  NoDup l → x ∈ l → y ∈ l → x ≠ y → f x = true → f y = true →
  (2 ≤ length (List.filter f l))%nat.
Proof.
  intros Hnd Hx Hy Hne Hfx Hfy.
  assert (Hsub : [x; y] ⊆+ List.filter f l).
  { apply NoDup_submseteq.
    - apply NoDup_cons. split; [by rewrite list_elem_of_singleton|apply NoDup_singleton].
    - intros z [->|[->|[]%elem_of_nil]%elem_of_cons]%elem_of_cons;
        by apply elem_of_List_filter. }
  apply submseteq_length in Hsub. simpl in Hsub. lia.
Qed.

Lemma NoDup_range n : NoDup (range n).
Proof.
  unfold range. apply NoDup_fmap_2; [apply _|]. apply NoDup_ListNoDup, seq_NoDup.
Qed.

Lemma find_unique {A} (f : A → bool) (l : list A) x :
  x ∈ l → f x = true → (∀ y, y ∈ l → f y = true → y = x) → List.find f l = Some x.
Proof.
  intros Hx Hfx Huniq. destruct (List.find f l) as [y|] eqn:Hfind.
  - apply find_some in Hfind as [Hy Hfy]. f_equal. apply Huniq; [|done].
    by apply list_elem_of_In.
  - eapply find_none in Hfind; [|by apply list_elem_of_In]. congruence.
Qed.

(** The body of the outer loop of the advance pass. *)
Definition step_bucket (labels : list (Z * option string)) (auto_label : option string)
    (i : Z) : M unit :=
  let* label_id := getitem labels i in
  let* threads := fetch_all_threads ("label:x" +:+ str i) in
  for_each threads
    (λ thread,
       if i =? 0 then
         let* _ := execute (Remote.threads_modify (ref_id thread)
                              [auto_label] [label_id]) in
         execute (Remote.threads_modify (ref_id thread) [] [Some "INBOX"])
       else
         let* previous := getitem labels (i - 1) in
         execute (Remote.threads_modify (ref_id thread) [previous] [label_id])).

Lemma step_expiration_in_eq order :
  step_expiration_in order
  = (let* labels := day_labels in
     let* auto_label := get_label_id "auto-archived" in
     for_each order (step_bucket labels auto_label)).
Proof. reflexivity. Qed.

Section Advance.

Variable st : Store.
Hypothesis Hwf : well_formed st.
Hypothesis Hready : countdown_ready st = true.

Lemma runs_step_bucket cur i :
  store_labels cur = store_labels st → thread_ids cur = thread_ids st →
  0 ≤ i ≤ INBOX_DAYS →
  ∃ c, runs (step_bucket (day_labels_of st) (archived_id st) i) cur tt
            (move_bucket st cur i) c.
Proof.
  intros Hl Hids Hi. unfold step_bucket.
  rewrite getitem_day_labels by done.
  destruct (runs_fetch_relabel
    (λ thread,
      if i =? 0 then
        let* _ := execute (Remote.threads_modify (ref_id thread)
                             [archived_id st] [bucket_id st i]) in
        execute (Remote.threads_modify (ref_id thread) [] [Some "INBOX"])
      else
        let* previous := getitem (day_labels_of st) (i - 1) in
        execute (Remote.threads_modify (ref_id thread) [previous] [bucket_id st i]))
    (advance_labels st i) cur _ _ (parse_bucket_query i Hi)) as [c Hc].
  { rewrite Hids. apply Hwf. }
  { intros r st1 Hl1 Hids1 Hr.
    assert (Hv : ∀ x, Remote.valid_label_id st x = true →
                      Remote.valid_label_id st1 x = true).
    { intros x Hx. rewrite <- Hx. apply valid_label_id_same_labels. congruence. }
    destruct (Z.eqb_spec i 0) as [->|Hne].
    - exists 2%nat.
      change (advance_labels st 0)
        with (modify_labels [] [Some "INBOX"]
              ∘ modify_labels [archived_id st] [bucket_id st 0]).
      rewrite <- relabel_twice_by_id.
      eapply (runs_bind _ _ _ _ _ 1 _ _ 1).
      + apply runs_modify; simpl; rewrite ?andb_true_r; [| |congruence].
        * apply Hv, archived_id_valid, Hready.
        * apply Hv, bucket_id_valid; [apply Hready|done].
      + apply runs_modify; [done| |rewrite relabel_thread_ids; congruence].
        cbn [forallb]. rewrite andb_true_r.
        erewrite valid_label_id_same_labels; [apply inbox_valid, Hwf|].
        rewrite relabel_labels. congruence.
    - exists 1%nat. rewrite getitem_day_labels by lia.
      unfold advance_labels. rewrite (proj2 (Z.eqb_neq i 0) Hne).
      eapply (runs_bind _ _ _ _ _ 0 _ _ 1); [apply runs_ret|].
      apply runs_modify; simpl; rewrite ?andb_true_r; [| |congruence].
      + apply Hv, bucket_id_valid; [apply Hready|lia].
      + apply Hv, bucket_id_valid; [apply Hready|lia]. }
  exists c. eapply (runs_bind _ _ _ _ _ 0 _ _ c); [apply runs_ret|].
  unfold move_bucket. erewrite relabel_ext; [exact Hc| |done].
  intros t _. simpl. rewrite andb_true_r. symmetry. by apply holds_same_labels.
Qed.

Lemma move_bucket_labels cur i : store_labels (move_bucket st cur i) = store_labels cur.
Proof. done. Qed.

Lemma move_bucket_thread_ids cur i : thread_ids (move_bucket st cur i) = thread_ids cur.
Proof. apply relabel_thread_ids. Qed.

(** The pass, bucket after bucket in the order given. *)
Lemma runs_step_expiration_in order :
  Forall (λ i, 0 ≤ i ≤ INBOX_DAYS) order →
  ∃ c, runs (step_expiration_in order) st tt (foldl (move_bucket st) st order) c.
Proof.
  intros Horder. rewrite step_expiration_in_eq.
  assert (Hloop : ∀ cur,
    store_labels cur = store_labels st → thread_ids cur = thread_ids st →
    ∃ c, runs (for_each order (step_bucket (day_labels_of st) (archived_id st)))
              cur tt (foldl (move_bucket st) cur order) c).
  { induction Horder as [|i order Hi Horder IH]; intros cur Hl Hids.
    - exists O. apply runs_ret.
    - destruct (runs_step_bucket cur i Hl Hids Hi) as [c1 Hc1].
      destruct (IH (move_bucket st cur i)) as [c2 Hc2].
      { by rewrite move_bucket_labels. }
      { by rewrite move_bucket_thread_ids. }
      exists (c1 + c2)%nat. simpl. eapply runs_bind; eauto. }
  destruct (Hloop st eq_refl eq_refl) as [c Hc].
  exists (8 + (1 + c))%nat.
  eapply runs_bind; [apply runs_day_labels|].
  eapply runs_bind; [apply runs_get_label_id|]. exact Hc.
Qed.

Lemma holds_bucket L i l :
  find_label st (bucket_name i) = Some l →
  Remote.holds st L (bucket_name i) = bool_decide (label_id l ∈ L).
Proof. apply holds_find, Hwf. Qed.

(** The labels [L] have the bucket [j] and no other. *)
Definition only_bucket (L : gset string) (j : Z) : Prop :=
  Remote.holds st L (bucket_name j) = true
  ∧ ∀ k, 0 ≤ k ≤ INBOX_DAYS → k ≠ j → Remote.holds st L (bucket_name k) = false.

Lemma bucket_ids_differ i j li lj :
  0 ≤ i ≤ INBOX_DAYS → 0 ≤ j ≤ INBOX_DAYS → i ≠ j →
  find_label st (bucket_name i) = Some li →
  find_label st (bucket_name j) = Some lj →
  label_id li ≠ label_id lj.
Proof.
  intros Hi Hj Hne Hli Hlj Heq. apply Hne, bucket_name_inj; [done..|].
  eapply find_label_id_inj; eauto. apply Hwf.
Qed.

Lemma bucket_id_not_archived i li la :
  0 ≤ i ≤ INBOX_DAYS →
  find_label st (bucket_name i) = Some li →
  find_label st "auto-archived" = Some la →
  label_id li ≠ label_id la.
Proof.
  intros Hi Hli Hla Heq. destruct (bucket_name_not_reserved i Hi) as [Hna _].
  apply Hna. eapply find_label_id_inj; eauto. apply Hwf.
Qed.

Lemma find_label_inbox : find_label st "INBOX" = Some (mk_label "INBOX" "INBOX").
Proof.
  pose proof (wf_inbox st Hwf) as Hin. unfold find_label.
  apply find_unique; [done|done|].
  intros l Hl Hname. apply String.eqb_eq in Hname.
  eapply NoDup_fmap_eq; [apply (wf_label_names st Hwf)|done..].
Qed.

Lemma bucket_id_not_inbox i li :
  0 ≤ i ≤ INBOX_DAYS →
  find_label st (bucket_name i) = Some li → label_id li ≠ "INBOX".
Proof.
  intros Hi Hli Heq. destruct (bucket_name_not_reserved i Hi) as [_ Hni].
  apply Hni. eapply find_label_id_inj; [apply Hwf|exact Hli|apply find_label_inbox|done].
Qed.

(** After its advance a thread of bucket [j] is in bucket [j - 1] and in
    no other. *)
Lemma advance_labels_bucket L j i :
  0 ≤ j ≤ INBOX_DAYS → 0 ≤ i ≤ INBOX_DAYS → only_bucket L j →
  Remote.holds st (advance_labels st j L) (bucket_name i)
  = (0 <? j) && (i =? j - 1).
Proof.
  intros Hj Hi [HLj Hother].
  destruct (countdown_ready_bucket st i Hready Hi) as [li Hli].
  destruct (countdown_ready_bucket st j Hready Hj) as [lj Hlj].
  destruct (countdown_ready_archived st Hready) as [la Hla].
  rewrite (holds_bucket _ i li Hli).
  rewrite (holds_bucket _ j lj Hlj) in HLj. apply bool_decide_eq_true in HLj.
  assert (Hnot : i ≠ j → label_id li ∉ L).
  { intros Hne. specialize (Hother i Hi Hne).
    rewrite (holds_bucket _ i li Hli) in Hother.
    by apply bool_decide_eq_false in Hother. }
  pose proof (bucket_id_not_archived i li la Hi Hli Hla) as Hia.
  unfold advance_labels, modify_labels, Remote.known_ids, archived_id, bucket_id.
  destruct (Z.eqb_spec j 0) as [->|Hj0].
  - rewrite Hlj, Hla. simpl. apply bool_decide_eq_false.
    destruct (decide (i = 0)) as [->|Hi0].
    + assert (li = lj) by congruence. subst. set_solver.
    + specialize (Hnot Hi0). set_solver.
  - destruct (countdown_ready_bucket st (j - 1) Hready) as [lp Hlp]; [lia|].
    rewrite Hlj, Hlp. simpl.
    replace (0 <? j) with true by (symmetry; apply Z.ltb_lt; lia). simpl.
    destruct (Z.eqb_spec i (j - 1)) as [->|Hip].
    + apply bool_decide_eq_true. assert (li = lp) by congruence. subst. set_solver.
    + apply bool_decide_eq_false.
      pose proof (bucket_ids_differ i (j - 1) li lp Hi ltac:(lia) Hip Hli Hlp).
      destruct (decide (i = j)) as [->|Hij].
      * assert (li = lj) by congruence. subst. set_solver.
      * specialize (Hnot Hij). set_solver.
Qed.

Lemma only_bucket_of_at_most_one L j :
  0 ≤ j ≤ INBOX_DAYS →
  (length (List.filter (λ i, Remote.holds st L (bucket_name i))
                       (range (INBOX_DAYS + 1))) ≤ 1)%nat →
  Remote.holds st L (bucket_name j) = true → only_bucket L j.
Proof.
  intros Hj Hlen HLj. split; [done|]. intros k Hk Hne.
  apply not_true_is_false. intros HLk.
  pose proof (filter_length_two
                (λ i, Remote.holds st L (bucket_name i)) (range (INBOX_DAYS + 1))
                k j (NoDup_range _)) as H2.
  rewrite !in_range_iff in H2. specialize (H2 ltac:(lia) ltac:(lia) Hne HLk HLj).
  lia.
Qed.

Lemma bucket_of_labels_Some L j :
  0 ≤ j ≤ INBOX_DAYS → only_bucket L j → bucket_of_labels st L = Some j.
Proof.
  intros Hj [HLj Hother]. apply find_unique; [apply in_range_iff; lia|done|].
  intros k Hk%in_range_iff HLk. destruct (decide (k = j)) as [->|Hne]; [done|].
  rewrite Hother in HLk; [done|lia|done].
Qed.

Lemma bucket_of_labels_None L :
  bucket_of_labels st L = None ↔
  ∀ i, 0 ≤ i ≤ INBOX_DAYS → Remote.holds st L (bucket_name i) = false.
Proof.
  unfold bucket_of_labels. split.
  - intros Hnone i Hi. eapply find_none in Hnone; [done|].
    apply list_elem_of_In, in_range_iff. lia.
  - intros Hall. destruct (List.find _ _) as [i|] eqn:Hfind; [|done].
    apply find_some in Hfind as [Hin%list_elem_of_In%in_range_iff Hi].
    rewrite Hall in Hi; [done|lia].
Qed.

(** Bucket after bucket from 0 upwards, a thread moves once: by the
    bucket it was in at the start. *)
Lemma foldl_move_labels_range L :
  (length (List.filter (λ i, Remote.holds st L (bucket_name i))
                       (range (INBOX_DAYS + 1))) ≤ 1)%nat →
  foldl (move_labels st) L (range (INBOX_DAYS + 1))
  = match bucket_of_labels st L with
    | Some i => advance_labels st i L
    | None => L
    end.
Proof.
  intros Hlen. destruct (bucket_of_labels st L) as [j|] eqn:Hb.
  - pose proof Hb as Hfind. unfold bucket_of_labels in Hfind.
    apply find_some in Hfind as [Hj%list_elem_of_In%in_range_iff HLj].
    assert (Hj' : 0 ≤ j ≤ INBOX_DAYS) by lia.
    pose proof (only_bucket_of_at_most_one L j Hj' Hlen HLj) as Honly.
    destruct (range_split j Hj') as (l1 & l2 & -> & H1 & H2).
    apply foldl_move_labels_one; [|done|].
    + intros i Hi. apply Honly; specialize (H1 i Hi); lia.
    + intros i Hi. specialize (H2 i Hi).
      rewrite advance_labels_bucket by (done || lia).
      destruct (Z.eqb_spec i (j - 1)); [lia|]. by rewrite andb_false_r.
  - apply foldl_move_labels_skip. intros i Hi%in_range_iff.
    apply bucket_of_labels_None; [done|lia].
Qed.

(** The pass of the script does what the simultaneous advance does. *)
Lemma runs_step_expiration :
  one_bucket_at_most st = true →
  ∃ c, runs step_expiration st tt (advance_all_at_once st) c.
Proof.
  intros Hone. destruct (runs_step_expiration_in (range (INBOX_DAYS + 1))) as [c Hc].
  { apply Forall_forall. intros i Hi%in_range_iff. lia. }
  exists c. unfold step_expiration. rewrite foldl_move_bucket in Hc.
  unfold advance_all_at_once. erewrite map_labels_ext; [exact Hc|].
  intros t Ht. simpl. symmetry. apply foldl_move_labels_range.
  unfold one_bucket_at_most in Hone. rewrite forallb_forall in Hone.
  apply list_elem_of_In, Hone in Ht. by apply Nat.leb_le in Ht.
Qed.

End Advance.

(** ** A store to run the passes on *)

Definition example_labels : list Label :=
  [mk_label "INBOX" "INBOX"; mk_label "STARRED" "STARRED";
   mk_label "x0" "Label_0"; mk_label "x1" "Label_1"; mk_label "x2" "Label_2";
   mk_label "x3" "Label_3"; mk_label "x4" "Label_4"; mk_label "x5" "Label_5";
   mk_label "x6" "Label_6"; mk_label "x7" "Label_7";
   mk_label "auto-archived" "Label_8"].

Definition example_store : Store :=
  mk_store example_labels
    [mk_thread "t0" {["INBOX"; "Label_0"]} [mk_message 1700000000123];
     mk_thread "t1" {["INBOX"; "Label_3"]} [mk_message 1707000000000];
     mk_thread "t2" {["INBOX"; "STARRED"; "Label_7"]} [mk_message 1600000000000];
     mk_thread "t3" {["INBOX"]} [mk_message 1709000000000];
     mk_thread "t4" {["Label_8"]} []].

(** What the countdown machine sees of a store: for every thread its
    buckets, whether it is archived and whether it is in the inbox. *)
Definition countdown_view (st : Store) : list (string * list Z * bool * bool) :=
  (λ t, (thread_id t, buckets_of st t, is_archived st t, in_inbox t))
    <$> store_threads st.

(** The threads of a bucket, by identifier, in the order of the store. *)
Definition bucket_members (st : Store) (i : Z) : list string :=
  thread_id <$> List.filter (λ t, in_bucket st t i) (store_threads st).

Lemma filter_fmap_ids (p q : Thread → bool) (f : Thread → Thread) (l : list Thread) :
  (∀ t, t ∈ l → thread_id (f t) = thread_id t ∧ p (f t) = q t) →
  thread_id <$> List.filter p (f <$> l) = thread_id <$> List.filter q l.
Proof.
  induction l as [|t l IH]; intros H; [done|].
  rewrite fmap_cons. simpl. destruct (H t) as [Hid Hpq]; [left|].
  assert (IH' : thread_id <$> List.filter p (f <$> l) = thread_id <$> List.filter q l).
  { apply IH. intros t' Ht'. apply H. by right. }
  rewrite Hpq. destruct (q t); [|done]. by rewrite !fmap_cons, Hid, IH'.
Qed.

Lemma map_labels_thread_ids h st : thread_ids (map_labels h st) = thread_ids st.
Proof.
  unfold thread_ids, map_labels. simpl. rewrite <- list_fmap_compose.
  by apply list_fmap_ext.
Qed.

Lemma one_bucket_at_most_thread st t :
  one_bucket_at_most st = true → t ∈ store_threads st →
  (length (List.filter (λ i, Remote.holds st (thread_labels t) (bucket_name i))
                       (range (INBOX_DAYS + 1))) ≤ 1)%nat.
Proof.
  unfold one_bucket_at_most. rewrite forallb_forall.
  intros H Ht%list_elem_of_In. apply H in Ht. by apply Nat.leb_le in Ht.
Qed.

Lemma List_filter_nil {A} (f : A → bool) (l : list A) :
  (∀ x, x ∈ l → f x = false) → List.filter f l = [].
Proof.
  induction l as [|x l IH]; intros H; [done|]. simpl.
  rewrite H by left. apply IH. intros y Hy. apply H. by right.
Qed.

Lemma bucket_of_labels_cases st L :
  (length (List.filter (λ i, Remote.holds st L (bucket_name i))
                       (range (INBOX_DAYS + 1))) ≤ 1)%nat →
  (bucket_of_labels st L = None
   ∧ ∀ i, 0 ≤ i ≤ INBOX_DAYS → Remote.holds st L (bucket_name i) = false)
  ∨ (∃ j, 0 ≤ j ≤ INBOX_DAYS ∧ bucket_of_labels st L = Some j ∧ only_bucket st L j).
Proof.
  intros Hlen. destruct (bucket_of_labels st L) as [j|] eqn:Hb.
  - right. exists j. pose proof Hb as Hfind. unfold bucket_of_labels in Hfind.
    apply find_some in Hfind as [Hj%list_elem_of_In%in_range_iff HLj].
    assert (Hj' : 0 ≤ j ≤ INBOX_DAYS) by lia.
    split; [done|]. split; [done|]. by apply only_bucket_of_at_most_one.
  - left. split; [done|]. by apply bucket_of_labels_None.
Qed.

Lemma archived_id_not_inbox st la :
  well_formed st → find_label st "auto-archived" = Some la → label_id la ≠ "INBOX".
Proof.
  intros Hwf Hla Heq. assert ("auto-archived" = "INBOX"); [|done].
  eapply find_label_id_inj; [apply Hwf|exact Hla|by apply find_label_inbox|done].
Qed.

(** A thread of bucket 0 after its advance. *)
Lemma advance_labels_archives st L :
  well_formed st → countdown_ready st = true → only_bucket st L 0 →
  Remote.holds st (advance_labels st 0 L) "auto-archived" = true
  ∧ "INBOX" ∉ advance_labels st 0 L.
Proof.
  intros Hwf Hready Honly.
  destruct (countdown_ready_archived st Hready) as [la Hla].
  destruct (countdown_ready_bucket st 0 Hready ltac:(unfold INBOX_DAYS; lia)) as [l0 Hl0].
  pose proof (archived_id_not_inbox st la Hwf Hla).
  rewrite (holds_find _ _ _ la (wf_label_names st Hwf) Hla), bool_decide_eq_true.
  unfold advance_labels, modify_labels, Remote.known_ids, archived_id, bucket_id.
  rewrite Hla, Hl0. simpl. set_solver.
Qed.

(** C1: with at most one bucket label on every thread, one run of the
    advance pass moves the threads of bucket [i], for [i] from 1 to N,
    into bucket [i - 1], and exactly them: the members of bucket [i - 1]
    after the run are the members of bucket [i] before it; no thread is
    lost or duplicated; and every thread of bucket 0 ends archived, in no
    bucket and out of the inbox. *)
Theorem step_expiration_conserves_buckets (st : Store) :
  store_ok st = true → countdown_ready st = true → one_bucket_at_most st = true →
  ∃ st' c,
    runs step_expiration st tt st' c
    ∧ thread_ids st' = thread_ids st
    ∧ (∀ i, 1 ≤ i ≤ INBOX_DAYS → bucket_members st' (i - 1) = bucket_members st i)
    ∧ (∀ t', t' ∈ store_threads st' →
         thread_id t' ∈ bucket_members st 0 →
         is_archived st' t' = true ∧ buckets_of st' t' = [] ∧ in_inbox t' = false).
Proof.
  intros Hwf%store_ok_well_formed Hready Hone.
  destruct (runs_step_expiration st Hwf Hready Hone) as [c Hc].
  exists (advance_all_at_once st), c. split; [done|].
  split; [apply map_labels_thread_ids|]. split.
  - intros i Hi. unfold bucket_members, advance_all_at_once, map_labels. simpl.
    apply filter_fmap_ids. intros t Ht. split; [done|].
    unfold in_bucket. simpl.
    rewrite (holds_same_labels _ st _ (bucket_name (i - 1))) by done.
    destruct (bucket_of_labels_cases st (thread_labels t)
                (one_bucket_at_most_thread st t Hone Ht))
      as [[-> Hnone]|(j & Hj & -> & Honly)].
    + rewrite !Hnone; [done|lia..].
    + rewrite (advance_labels_bucket st Hwf Hready _ j (i - 1)) by (done || lia).
      destruct (decide (i = j)) as [->|Hne].
      * destruct Honly as [-> _]. rewrite Z.eqb_refl.
        by replace (0 <? j) with true by (symmetry; apply Z.ltb_lt; lia).
      * destruct Honly as [_ Hother]. rewrite (Hother i) by (done || lia).
        destruct (Z.eqb_spec (i - 1) (j - 1)); [lia|]. by rewrite andb_false_r.
  - intros t' Ht' Hmem.
    unfold advance_all_at_once, map_labels in Ht'. simpl in Ht'.
    apply list_elem_of_fmap in Ht' as (t & -> & Ht).
    unfold bucket_members in Hmem.
    apply list_elem_of_fmap in Hmem as (t0 & Hid & [H0 Ht0]%elem_of_List_filter).
    simpl in Hid.
    assert (t = t0) by (eapply NoDup_fmap_eq; [apply (wf_thread_ids st Hwf)|done..]).
    subst t0. unfold in_bucket in H0.
    pose proof (only_bucket_of_at_most_one st _ 0 ltac:(unfold INBOX_DAYS; lia)
                  (one_bucket_at_most_thread st t Hone Ht) H0) as Honly.
    rewrite (bucket_of_labels_Some st _ 0) by done.
    unfold is_archived, buckets_of, in_bucket, in_inbox.
    cbn [thread_labels set_labels].
    destruct (advance_labels_archives st _ Hwf Hready Honly) as [Harch Hinbox].
    split; [|split].
    + by rewrite (holds_same_labels _ st).
    + apply List_filter_nil. intros i Hi%in_range_iff.
      rewrite (holds_same_labels _ st) by done.
      rewrite (advance_labels_bucket st Hwf Hready _ 0 i) by (done || lia). done.
    + by apply bool_decide_eq_false.
Qed.

Lemma step_expiration_conserves_buckets_witness :
  ∃ st' c,
    runs step_expiration example_store tt st' c
    ∧ thread_ids st' = thread_ids example_store
    ∧ (∀ i, 1 ≤ i ≤ INBOX_DAYS →
         bucket_members st' (i - 1) = bucket_members example_store i)
    ∧ (∀ t', t' ∈ store_threads st' →
         thread_id t' ∈ bucket_members example_store 0 →
         is_archived st' t' = true ∧ buckets_of st' t' = [] ∧ in_inbox t' = false).
Proof.
  apply (step_expiration_conserves_buckets example_store); vm_compute; reflexivity.
Defined.

(** C2, as the specification states it, fails: on [example_store], where
    every thread has at most one bucket label, the pass run from bucket N
    down to bucket 0 and the pass run from bucket 0 up to bucket N, each
    fetching a bucket when it comes to it, end in different label states.
    Downwards the threads of buckets 3 and 7 are moved again and again
    until they are archived. *)
Lemma step_expiration_order_matters :
  store_ok example_store = true
  ∧ countdown_ready example_store = true
  ∧ one_bucket_at_most example_store = true
  ∧ reverse (range (INBOX_DAYS + 1)) ≡ₚ range (INBOX_DAYS + 1)
  ∧ ∃ up down,
      step_expiration (mk_world example_store 100) = (Returned tt, up)
      ∧ step_expiration_in (reverse (range (INBOX_DAYS + 1)))
          (mk_world example_store 100) = (Returned tt, down)
      ∧ countdown_view (remote up)
        = [("t0", [], true, false); ("t1", [2], false, true);
           ("t2", [6], false, true); ("t3", [], false, true);
           ("t4", [], true, false)]
      ∧ countdown_view (remote down)
        = [("t0", [], true, false); ("t1", [], true, false);
           ("t2", [], true, false); ("t3", [], false, true);
           ("t4", [], true, false)]
      ∧ remote up ≠ remote down.
Proof.
  split; [by vm_compute|]. split; [by vm_compute|]. split; [by vm_compute|].
  split; [apply reverse_Permutation|].
  exists (step_expiration (mk_world example_store 100)).2,
         (step_expiration_in (reverse (range (INBOX_DAYS + 1)))
            (mk_world example_store 100)).2.
  split; [by vm_compute|]. split; [by vm_compute|].
  split; [by vm_compute|]. split; [by vm_compute|].
  intros Heq. apply (f_equal countdown_view) in Heq. vm_compute in Heq.
  discriminate Heq.
Qed.

(** C2, amended: the order of the buckets matters, and the order of the
    script, from bucket 0 up to bucket N, is the one that gives the
    advance of the specification: with at most one bucket label on every
    thread, the run ends in the state in which every thread has moved once,
    by the bucket it was in when the run started. *)
Theorem step_expiration_upwards_is_simultaneous (st : Store) :
  store_ok st = true → countdown_ready st = true → one_bucket_at_most st = true →
  ∃ c, runs (step_expiration_in (range (INBOX_DAYS + 1))) st tt
            (advance_all_at_once st) c
       ∧ step_expiration = step_expiration_in (range (INBOX_DAYS + 1)).
Proof.
  intros Hwf%store_ok_well_formed Hready Hone.
  destruct (runs_step_expiration st Hwf Hready Hone) as [c Hc].
  exists c. by split.
Qed.

Lemma step_expiration_upwards_is_simultaneous_witness :
  ∃ c, runs (step_expiration_in (range (INBOX_DAYS + 1))) example_store tt
            (advance_all_at_once example_store) c
       ∧ step_expiration = step_expiration_in (range (INBOX_DAYS + 1)).
Proof.
  apply (step_expiration_upwards_is_simultaneous example_store);
    vm_compute; reflexivity.
Defined.

(** ** Admission *)

(** [ends m st o st' c]: an uninterrupted run of [m] on [st] ends with the
    outcome [o], returned or raised, on the store [st'] after [c] calls. *)
Definition ends {A} (m : M A) (st : Store) (o : outcome A) (st' : Store) (cost : nat) : Prop :=
  ∀ n, m (mk_world st (cost + n)) = (o, mk_world st' n).

Lemma runs_ends {A} (m : M A) st a st' c : runs m st a st' c → ends m st (Returned a) st' c.
Proof. done. Qed.

Lemma ends_bind {A B} (m : M A) (k : A → M B) st a st1 c1 o st2 c2 :
  runs m st a st1 c1 → ends (k a) st1 o st2 c2 → ends (bind m k) st o st2 (c1 + c2).
Proof.
  intros Hm Hk n. unfold bind.
  replace (c1 + c2 + n)%nat with (c1 + (c2 + n))%nat by lia.
  by rewrite Hm, Hk.
Qed.

(** The terms of the query of [add_inbox_expiration]. *)
Definition admission_terms : list Query.term :=
  Query.mk_term false Query.InInbox
  :: Query.mk_term true Query.IsStarred
  :: ((λ i, Query.mk_term true (Query.HasLabel (bucket_name i)))
        <$> range (INBOX_DAYS + 1)).

Definition admission_query : string :=
  join " " (["in:inbox"; "-is:starred"]
            ++ ((λ i, "-label:x" +:+ str i) <$> range (INBOX_DAYS + 1)))%list.

Lemma parse_admission_query : Query.parse admission_query = Some admission_terms.
Proof. reflexivity. Qed.

(** The store after admission: the threads of the query have the label of
    bucket N added. *)
Definition admission (st : Store) : Store :=
  relabel (Remote.matches st admission_terms)
          (modify_labels [bucket_id st INBOX_DAYS] []) st.

Lemma add_inbox_expiration_eq :
  add_inbox_expiration
  = (let* label_id := get_label_id (bucket_name INBOX_DAYS) in
     let* threads := fetch_all_threads admission_query in
     for_each threads
       (λ thread, execute (Remote.threads_modify (ref_id thread) [label_id] []))).
Proof. reflexivity. Qed.

Lemma runs_add_inbox_expiration st l :
  well_formed st → find_label st (bucket_name INBOX_DAYS) = Some l →
  ∃ c, runs add_inbox_expiration st tt (admission st) c.
Proof.
  intros Hwf Hl. rewrite add_inbox_expiration_eq.
  destruct (runs_fetch_relabel
    (λ thread, execute (Remote.threads_modify (ref_id thread)
                          [bucket_id st INBOX_DAYS] []))
    (modify_labels [bucket_id st INBOX_DAYS] []) st _ _ parse_admission_query)
    as [c Hc].
  { apply Hwf. }
  { intros r st1 Hl1 Hids1 Hr. exists 1%nat.
    apply runs_modify; [|done|congruence].
    cbn [forallb]. rewrite andb_true_r.
    rewrite (valid_label_id_same_labels st1 st) by done.
    unfold bucket_id. rewrite Hl. by eapply find_label_valid. }
  exists (1 + c)%nat. eapply runs_bind; [apply runs_get_label_id|]. exact Hc.
Qed.

Lemma matches_same_labels st1 st2 tms t :
  store_labels st1 = store_labels st2 →
  Remote.matches st1 tms t = Remote.matches st2 tms t.
Proof.
  intros Hl. unfold Remote.matches.
  induction tms as [|tm tms IH]; [done|]. simpl. rewrite IH. f_equal.
  unfold Remote.term_matches. f_equal. destruct (Query.term_atom tm); try done.
  by apply holds_same_labels.
Qed.

Lemma forallb_false {A} (f : A → bool) (l : list A) x :
  x ∈ l → f x = false → forallb f l = false.
Proof.
  intros Hx Hf. apply not_true_is_false. rewrite forallb_forall.
  intros H. rewrite H in Hf; [done|]. by apply list_elem_of_In.
Qed.

(** A thread in a bucket is not a thread of the admission query. *)
Lemma matches_admission_bucket st t i :
  0 ≤ i ≤ INBOX_DAYS → Remote.holds st (thread_labels t) (bucket_name i) = true →
  Remote.matches st admission_terms t = false.
Proof.
  intros Hi Hh. unfold Remote.matches.
  apply (forallb_false _ _ (Query.mk_term true (Query.HasLabel (bucket_name i)))).
  - unfold admission_terms. do 2 right.
    apply (list_elem_of_fmap_2
             (λ i, Query.mk_term true (Query.HasLabel (bucket_name i)))).
    apply in_range_iff. lia.
  - unfold Remote.term_matches. simpl. by rewrite Hh.
Qed.

Lemma admit_admit st l :
  well_formed st → find_label st (bucket_name INBOX_DAYS) = Some l →
  admission (admission st) = admission st.
Proof.
  intros Hwf Hl. unfold admission at 1. apply relabel_none.
  intros t' Ht'. rewrite (matches_same_labels _ st) by done.
  unfold admission, relabel in Ht'. cbn [store_threads] in Ht'.
  apply list_elem_of_fmap in Ht' as (t & -> & Ht).
  destruct (Remote.matches st admission_terms t) eqn:Hm; [|exact Hm].
  apply (matches_admission_bucket _ _ INBOX_DAYS); [done|].
  cbn [thread_labels set_labels]. rewrite (holds_find _ _ _ l (wf_label_names st Hwf) Hl).
  apply bool_decide_eq_true. unfold modify_labels, Remote.known_ids, bucket_id.
  rewrite Hl. simpl. set_solver.
Qed.

Lemma well_formed_relabel sel g st :
  well_formed st →
  (∀ t, t ∈ store_threads st → sel t = true →
        g (thread_labels t) ⊆ list_to_set (Remote.label_ids st)) →
  well_formed (relabel sel g st).
Proof.
  intros [H1 H2 H3 H4 H5] Hg. split; try done.
  - fold (thread_ids (relabel sel g st)). by rewrite relabel_thread_ids.
  - intros t' (t & -> & Ht)%list_elem_of_fmap.
    destruct (sel t) eqn:Hs; [by apply Hg|by apply H4].
Qed.

Lemma well_formed_admit st l :
  well_formed st → find_label st (bucket_name INBOX_DAYS) = Some l →
  well_formed (admission st).
Proof.
  intros Hwf Hl. apply well_formed_relabel; [done|].
  intros t Ht _. pose proof (wf_thread_labels st Hwf t Ht) as Hsub.
  apply find_label_Some in Hl as Hin. destruct Hin as [Hin _].
  apply (list_elem_of_fmap_2 label_id) in Hin.
  unfold modify_labels, Remote.known_ids, bucket_id. rewrite Hl. simpl.
  fold (Remote.label_ids st) in Hin. set_solver.
Qed.

(** Without the label of bucket N the pass changes nothing: it returns
    when the query is empty, and raises at the first thread otherwise. *)
Lemma ends_add_inbox_expiration_no_label st :
  find_label st (bucket_name INBOX_DAYS) = None →
  ∃ o c, ends add_inbox_expiration st o st c.
Proof.
  intros Hl. rewrite add_inbox_expiration_eq.
  destruct (runs_fetch_all_threads st admission_query _ parse_admission_query)
    as [c Hc].
  destruct (Remote.search st admission_terms) as [|t ts] eqn:Hs.
  - exists (Returned tt), (1 + (c + 0))%nat.
    eapply ends_bind; [apply runs_get_label_id|].
    eapply ends_bind; [exact Hc|]. apply runs_ends, runs_ret.
  - exists Raised, (1 + (c + 1))%nat.
    eapply ends_bind; [apply runs_get_label_id|].
    eapply ends_bind; [exact Hc|]. rewrite Hl. intros n. reflexivity.
Qed.

(** C4: whatever the label state, of two runs of the admission pass in a
    row the second changes nothing: it ends as the first did, returning
    or raising, on the store the first left; and with the label of
    bucket N in place both return. *)
Theorem add_inbox_expiration_idempotent (st : Store) :
  store_ok st = true →
  ∃ o st1 c1 c2,
    ends add_inbox_expiration st o st1 c1
    ∧ ends add_inbox_expiration st1 o st1 c2
    ∧ (is_Some (find_label st (bucket_name INBOX_DAYS)) →
       o = Returned tt ∧ st1 = admission st).
Proof.
  intros Hwf%store_ok_well_formed.
  destruct (find_label st (bucket_name INBOX_DAYS)) as [l|] eqn:Hl.
  - destruct (runs_add_inbox_expiration st l Hwf Hl) as [c1 Hc1].
    pose proof (well_formed_admit st l Hwf Hl) as Hwf1.
    destruct (runs_add_inbox_expiration (admission st) l Hwf1 Hl) as [c2 Hc2].
    rewrite (admit_admit st l Hwf Hl) in Hc2.
    exists (Returned tt), (admission st), c1, c2. done.
  - destruct (ends_add_inbox_expiration_no_label st Hl) as (o & c & Hc).
    exists o, st, c, c. split; [done|]. split; [done|].
    by intros [? ?].
Qed.

Lemma add_inbox_expiration_idempotent_witness :
  ∃ o st1 c1 c2,
    ends add_inbox_expiration example_store o st1 c1
    ∧ ends add_inbox_expiration st1 o st1 c2
    ∧ (is_Some (find_label example_store (bucket_name INBOX_DAYS)) →
       o = Returned tt ∧ st1 = admission example_store).
Proof.
  apply (add_inbox_expiration_idempotent example_store); vm_compute; reflexivity.
Defined.

(** ** Cleanup of archived threads *)

(** Thread by thread, [st'] has the threads of [st] with labels removed
    at most. *)
Definition shrinks (st st' : Store) : Prop :=
  Forall2 (λ t t', thread_id t' = thread_id t ∧ thread_labels t' ⊆ thread_labels t)
          (store_threads st) (store_threads st').

Lemma shrinks_refl st : shrinks st st.
Proof. apply Forall2_same_length_lookup_2; [done|]. intros i t t' H1 H2. by simplify_eq. Qed.

Lemma shrinks_relabel st cur sel g :
  shrinks st cur → (∀ L, g L ⊆ L) → shrinks st (relabel sel g cur).
Proof.
  unfold shrinks, relabel. cbn [store_threads]. intros Hs Hg.
  apply Forall2_fmap_r. eapply Forall2_impl; [exact Hs|].
  intros t t' [Hid Hsub]. unfold compose. destruct (sel t'); simpl; [|done].
  split; [done|].
  specialize (Hg (thread_labels t')). set_solver.
Qed.

Lemma parse_strip_query i :
  0 ≤ i ≤ INBOX_DAYS →
  Query.parse ("-in:inbox label:x" +:+ str i)
  = Some [Query.mk_term true Query.InInbox;
          Query.mk_term false (Query.HasLabel (bucket_name i))].
Proof.
  intros Hi. unfold INBOX_DAYS in Hi.
  assert (Hc : i = 0 ∨ i = 1 ∨ i = 2 ∨ i = 3 ∨ i = 4 ∨ i = 5 ∨ i = 6 ∨ i = 7) by lia.
  repeat destruct Hc as [->|Hc]; try subst i; reflexivity.
Qed.

Lemma modify_labels_remove_subseteq ids L : modify_labels [] ids L ⊆ L.
Proof. unfold modify_labels, Remote.known_ids. simpl. set_solver. Qed.

(** The cleanup pass runs, keeps labels and threads, and removes labels
    from threads at most. *)
Lemma runs_strip_tags_on_archived_emails st :
  well_formed st → countdown_ready st = true →
  ∃ st' c, runs strip_tags_on_archived_emails st tt st' c
           ∧ store_labels st' = store_labels st ∧ shrinks st st'.
Proof.
  intros Hwf Hready. unfold strip_tags_on_archived_emails.
  set (body := λ item : Z * option string,
         let* threads := fetch_all_threads ("-in:inbox label:x" +:+ str item.1) in
         for_each threads
           (λ thread, execute (Remote.threads_modify (ref_id thread) [] [item.2]))).
  destruct (runs_for_each
    (λ rest cur, store_labels cur = store_labels st ∧ thread_ids cur = thread_ids st
                 ∧ shrinks st cur
                 ∧ Forall (λ item, 0 ≤ item.1 ≤ INBOX_DAYS
                                   ∧ item.2 = bucket_id st item.1) rest)
    body (day_labels_of st) st) as (st' & c & Hc & Hl' & _ & Hs' & _).
  { split; [done|]. split; [done|]. split; [apply shrinks_refl|].
    unfold day_labels_of. apply Forall_fmap, Forall_forall.
    intros i Hi%in_range_iff. simpl. split; [lia|done]. }
  { intros [i id] rest cur (Hl & Hids & Hs & Hrest).
    apply Forall_cons in Hrest as [[Hi Hid] Hrest]. simpl in Hi, Hid. subst id.
    destruct (runs_fetch_relabel
      (λ thread, execute (Remote.threads_modify (ref_id thread) [] [bucket_id st i]))
      (modify_labels [] [bucket_id st i]) cur _ _ (parse_strip_query i Hi))
      as [c Hc].
    { rewrite Hids. apply Hwf. }
    { intros r st1 Hl1 Hids1 Hr. exists 1%nat.
      apply runs_modify; [done| |congruence].
      cbn [forallb]. rewrite andb_true_r.
      rewrite (valid_label_id_same_labels st1 st) by congruence.
      by apply bucket_id_valid. }
    eexists _, c. split; [exact Hc|]. split; [done|].
    split; [by rewrite relabel_thread_ids|]. split; [|done].
    apply shrinks_relabel; [done|]. apply modify_labels_remove_subseteq. }
  exists st', (8 + c)%nat. split; [|done].
  eapply runs_bind; [apply runs_day_labels|]. exact Hc.
Qed.

(** ** The invariant of the countdown labels *)

(** Every thread has at most one of the labels of the buckets and of the
    archived label. *)
Definition one_countdown_label_at_most (st : Store) : bool :=
  forallb (λ t, (length (buckets_of st t) + (if is_archived st t then 1 else 0)
                 <=? 1)%nat)
          (store_threads st).

Lemma holds_mono st L L' name :
  L' ⊆ L → Remote.holds st L' name = true → Remote.holds st L name = true.
Proof.
  intros Hsub. unfold Remote.holds. rewrite !existsb_exists.
  intros (l & Hl & [Hn Hin]%andb_true_iff). exists l. split; [done|].
  rewrite Hn. apply bool_decide_eq_true in Hin. simpl.
  apply bool_decide_eq_true. set_solver.
Qed.

Lemma filter_length_mono {A} (f g : A → bool) (l : list A) :
  (∀ x, f x = true → g x = true) →
  (length (List.filter f l) ≤ length (List.filter g l))%nat.
Proof.
  intros H. induction l as [|x l IH]; [done|]. simpl.
  destruct (f x) eqn:Hf; [rewrite (H x Hf); simpl; lia|].
  destruct (g x); simpl; lia.
Qed.

Lemma filter_length_le_1 {A} (f : A → bool) (l : list A) :
  NoDup l →
  (∀ x y, x ∈ l → y ∈ l → f x = true → f y = true → x = y) →
  (length (List.filter f l) ≤ 1)%nat.
Proof.
  intros Hnd H. destruct (List.filter f l) as [|x [|y rest]] eqn:Hf;
    [simpl; lia..|].
  assert (Hnd' : NoDup (x :: y :: rest)).
  { rewrite <- Hf. by apply NoDup_List_filter. }
  assert (Hx : x ∈ List.filter f l) by (rewrite Hf; left).
  assert (Hy : y ∈ List.filter f l) by (rewrite Hf; right; left).
  apply elem_of_List_filter in Hx as [Hfx Hx], Hy as [Hfy Hy].
  assert (x = y) by by apply H. subst y.
  apply NoDup_cons in Hnd' as [Hbad _]. destruct Hbad. left.
Qed.

Lemma shrinks_buckets st st' t t' :
  store_labels st' = store_labels st → thread_labels t' ⊆ thread_labels t →
  (length (buckets_of st' t') ≤ length (buckets_of st t))%nat
  ∧ (is_archived st' t' = true → is_archived st t = true).
Proof.
  intros Hl Hsub. unfold buckets_of, in_bucket, is_archived. split.
  - apply filter_length_mono. intros i. rewrite (holds_same_labels st' st) by done.
    by apply holds_mono.
  - rewrite (holds_same_labels st' st) by done. by apply holds_mono.
Qed.

Lemma matches_admission_no_bucket st t i :
  Remote.matches st admission_terms t = true → 0 ≤ i ≤ INBOX_DAYS →
  Remote.holds st (thread_labels t) (bucket_name i) = false.
Proof.
  intros Hm Hi. apply not_true_is_false. intros Hh.
  by rewrite (matches_admission_bucket st t i Hi Hh) in Hm.
Qed.

Lemma forallb_fmap_threads (p q : Thread → bool) (f : Thread → Thread) (l : list Thread) :
  (∀ t, t ∈ l → q t = true → p (f t) = true) →
  forallb q l = true → forallb p (f <$> l) = true.
Proof.
  rewrite !forallb_forall. intros H Hq t' Ht'%list_elem_of_In.
  apply list_elem_of_fmap in Ht' as (t & -> & Ht). apply H; [done|].
  by apply Hq, list_elem_of_In.
Qed.

Section Invariant.

Variable st : Store.
Hypothesis Hwf : well_formed st.
Hypothesis Hready : countdown_ready st = true.

Lemma admit_one_bucket_at_most :
  one_bucket_at_most st = true → one_bucket_at_most (admission st) = true.
Proof.
  unfold one_bucket_at_most, admission, relabel. cbn [store_threads].
  apply forallb_fmap_threads. intros t Ht Hlen.
  destruct (Remote.matches st admission_terms t) eqn:Hm; [|done].
  apply Nat.leb_le. unfold buckets_of, in_bucket. cbn [thread_labels set_labels].
  destruct (countdown_ready_bucket st INBOX_DAYS Hready ltac:(done)) as [l7 Hl7].
  assert (Honly : ∀ i, i ∈ range (INBOX_DAYS + 1) →
            Remote.holds st (modify_labels [bucket_id st INBOX_DAYS] [] (thread_labels t))
              (bucket_name i) = true → i = INBOX_DAYS).
  { intros i Hi%in_range_iff Hh.
    destruct (decide (i = INBOX_DAYS)) as [|Hne]; [done|]. exfalso.
    destruct (countdown_ready_bucket st i Hready ltac:(lia)) as [li Hli].
    pose proof (bucket_ids_differ st Hwf i INBOX_DAYS li l7
                  ltac:(lia) ltac:(done) Hne Hli Hl7) as Hdiff.
    pose proof (matches_admission_no_bucket st t i Hm ltac:(lia)) as Hno.
    rewrite (holds_bucket st Hwf _ i li Hli) in Hh.
    rewrite (holds_bucket st Hwf _ i li Hli) in Hno.
    apply bool_decide_eq_true in Hh. apply bool_decide_eq_false in Hno.
    unfold modify_labels, Remote.known_ids, bucket_id in Hh. rewrite Hl7 in Hh.
    simpl in Hh. set_solver. }
  apply filter_length_le_1; [apply NoDup_range|].
  intros x y Hx Hy Hfx Hfy. rewrite (holds_same_labels _ st) in Hfx, Hfy by done.
  rewrite (Honly x Hx Hfx), (Honly y Hy Hfy). done.
Qed.

(** The archived label of a thread that advances from a bucket above 0
    stays as it is. *)
Lemma advance_labels_keeps_archived L j :
  0 < j ≤ INBOX_DAYS →
  Remote.holds st (advance_labels st j L) "auto-archived"
  = Remote.holds st L "auto-archived".
Proof.
  intros Hj.
  destruct (countdown_ready_archived st Hready) as [la Hla].
  destruct (countdown_ready_bucket st j Hready ltac:(lia)) as [lj Hlj].
  destruct (countdown_ready_bucket st (j - 1) Hready ltac:(lia)) as [lp Hlp].
  pose proof (bucket_id_not_archived st Hwf j lj la ltac:(lia) Hlj Hla).
  pose proof (bucket_id_not_archived st Hwf (j - 1) lp la ltac:(lia) Hlp Hla).
  rewrite !(holds_find _ _ _ la (wf_label_names st Hwf) Hla).
  unfold advance_labels, modify_labels, Remote.known_ids, bucket_id.
  destruct (Z.eqb_spec j 0); [lia|]. rewrite Hlj, Hlp. simpl.
  apply bool_decide_ext. set_solver.
Qed.

Lemma buckets_of_advance t j :
  0 ≤ j ≤ INBOX_DAYS → only_bucket st (thread_labels t) j →
  (length (buckets_of (advance_all_at_once st)
             (set_labels t (advance_labels st j (thread_labels t)))) ≤ 1)%nat
  ∧ (j = 0 → buckets_of (advance_all_at_once st)
               (set_labels t (advance_labels st j (thread_labels t))) = []).
Proof.
  intros Hj Honly. unfold buckets_of, in_bucket. cbn [thread_labels set_labels].
  split.
  - apply filter_length_le_1; [apply NoDup_range|].
    intros x y Hx%in_range_iff Hy%in_range_iff Hfx Hfy.
    rewrite (holds_same_labels _ st) in Hfx by done.
    rewrite (holds_same_labels _ st) in Hfy by done.
    rewrite (advance_labels_bucket st Hwf Hready _ j) in Hfx by (done || lia).
    rewrite (advance_labels_bucket st Hwf Hready _ j) in Hfy by (done || lia).
    apply andb_true_iff in Hfx as [_ Hxj%Z.eqb_eq].
    apply andb_true_iff in Hfy as [_ Hyj%Z.eqb_eq]. lia.
  - intros ->. apply List_filter_nil. intros i Hi%in_range_iff.
    rewrite (holds_same_labels _ st) by done.
    by rewrite (advance_labels_bucket st Hwf Hready _ 0) by (done || lia).
Qed.

Lemma advance_one_bucket_at_most :
  one_bucket_at_most st = true →
  one_bucket_at_most (advance_all_at_once st) = true.
Proof.
  intros Hone. unfold one_bucket_at_most at 1.
  unfold advance_all_at_once at 2, map_labels. cbn [store_threads].
  eapply forallb_fmap_threads; [|exact Hone]. intros t Ht Hlen.
  apply Nat.leb_le in Hlen. apply Nat.leb_le.
  destruct (bucket_of_labels_cases st (thread_labels t) Hlen)
    as [[-> Hnone]|(j & Hj & -> & Honly)].
  - rewrite set_labels_id. unfold buckets_of, in_bucket in *.
    erewrite filter_length_mono; [exact Hlen|].
    intros i. by rewrite (holds_same_labels _ st).
  - by apply buckets_of_advance.
Qed.

Lemma advance_one_countdown_label_at_most :
  one_countdown_label_at_most st = true →
  one_countdown_label_at_most (advance_all_at_once st) = true.
Proof.
  intros Hone. unfold one_countdown_label_at_most at 1.
  unfold advance_all_at_once at 3, map_labels. cbn [store_threads].
  eapply forallb_fmap_threads; [|exact Hone]. intros t Ht Hlen.
  apply Nat.leb_le in Hlen. apply Nat.leb_le.
  assert (Hb : (length (List.filter
                  (λ i, Remote.holds st (thread_labels t) (bucket_name i))
                  (range (INBOX_DAYS + 1))) ≤ 1)%nat).
  { unfold buckets_of, in_bucket in Hlen. lia. }
  destruct (bucket_of_labels_cases st (thread_labels t) Hb)
    as [[-> Hnone]|(j & Hj & -> & Honly)].
  - rewrite set_labels_id.
    destruct (shrinks_buckets st (advance_all_at_once st) t t eq_refl
                ltac:(set_solver)) as [Hle Harch].
    destruct (is_archived (advance_all_at_once st) t) eqn:Ha; [|lia].
    rewrite Harch in Hlen by done. lia.
  - destruct (buckets_of_advance t j Hj Honly) as [Hle Hzero].
    destruct (decide (j = 0)) as [->|Hj0].
    + rewrite Hzero by done.
      destruct (is_archived (advance_all_at_once st) _); simpl; lia.
    + unfold is_archived at 1. cbn [thread_labels set_labels].
      rewrite (holds_same_labels _ st) by done.
      rewrite advance_labels_keeps_archived by lia.
      fold (is_archived st t).
      assert (Hin : (1 ≤ length (buckets_of st t))%nat).
      { destruct Honly as [Hh _]. unfold buckets_of.
        destruct (List.filter (in_bucket st t) (range (INBOX_DAYS + 1))) eqn:Hf;
          [|simpl; lia].
        assert (j ∈ List.filter (in_bucket st t) (range (INBOX_DAYS + 1))).
        { apply elem_of_List_filter. split; [done|]. apply in_range_iff. lia. }
        rewrite Hf in H. by apply elem_of_nil in H. }
      destruct (is_archived st t); lia.
Qed.

Lemma shrinks_one_bucket_at_most st' :
  store_labels st' = store_labels st → shrinks st st' →
  (one_bucket_at_most st = true → one_bucket_at_most st' = true)
  ∧ (one_countdown_label_at_most st = true →
     one_countdown_label_at_most st' = true).
Proof.
  intros Hl Hs. unfold one_bucket_at_most, one_countdown_label_at_most.
  rewrite !forallb_forall.
  assert (Hfrom : ∀ t', In t' (store_threads st') →
            ∃ t, In t (store_threads st) ∧ thread_labels t' ⊆ thread_labels t).
  { intros t' Ht'%list_elem_of_In. apply list_elem_of_lookup in Ht' as [k Hk].
    destruct (Forall2_lookup_r _ _ _ k t' Hs Hk) as (t & Hkt & Hid & Hsub).
    exists t. split; [|done]. apply list_elem_of_In.
    eapply list_elem_of_lookup_2; eauto. }
  split; intros H t' Ht'; destruct (Hfrom t' Ht') as (t & Ht & Hsub);
    specialize (H t Ht); apply Nat.leb_le in H; apply Nat.leb_le;
    destruct (shrinks_buckets st st' t t' Hl Hsub) as [Hle Harch]; [lia|].
  destruct (is_archived st' t'); [|lia]. rewrite Harch in H by done. lia.
Qed.

End Invariant.

(** A store with a thread that was archived by the machine and has come
    back to the inbox. *)
Definition returned_store : Store :=
  mk_store example_labels [mk_thread "t5" {["INBOX"; "Label_8"]} []].

(** C3, as stated, fails for the admission pass: on [returned_store] every
    thread has at most one countdown label, the archived one, and after
    admission the thread has the label of bucket N with it. *)
Lemma add_inbox_expiration_breaks_countdown_invariant :
  store_ok returned_store = true
  ∧ countdown_ready returned_store = true
  ∧ one_countdown_label_at_most returned_store = true
  ∧ ∃ w', add_inbox_expiration (mk_world returned_store 100) = (Returned tt, w')
          ∧ countdown_view (remote w') = [("t5", [7], true, true)]
          ∧ one_countdown_label_at_most (remote w') = false.
Proof.
  split; [by vm_compute|]. split; [by vm_compute|]. split; [by vm_compute|].
  exists (add_inbox_expiration (mk_world returned_store 100)).2.
  split; [by vm_compute|]. split; by vm_compute.
Qed.

(** C3, amended: from a state in which every thread has at most one bucket
    label, each of the three passes runs and ends in such a state; the
    advance pass and the cleanup pass moreover keep the stronger
    invariant, at most one label among the buckets and the archived
    label.  The admission pass looks at the bucket labels only. *)
Theorem countdown_invariant_preserved (st : Store) :
  store_ok st = true → countdown_ready st = true → one_bucket_at_most st = true →
  (∃ st' c, runs add_inbox_expiration st tt st' c
            ∧ one_bucket_at_most st' = true)
  ∧ (∃ st' c, runs step_expiration st tt st' c
              ∧ one_bucket_at_most st' = true
              ∧ (one_countdown_label_at_most st = true →
                 one_countdown_label_at_most st' = true))
  ∧ (∃ st' c, runs strip_tags_on_archived_emails st tt st' c
              ∧ one_bucket_at_most st' = true
              ∧ (one_countdown_label_at_most st = true →
                 one_countdown_label_at_most st' = true)).
Proof.
  intros Hwf%store_ok_well_formed Hready Hone. split; [|split].
  - destruct (countdown_ready_bucket st INBOX_DAYS Hready ltac:(done)) as [l7 Hl7].
    destruct (runs_add_inbox_expiration st l7 Hwf Hl7) as [c Hc].
    exists (admission st), c. split; [done|]. by apply admit_one_bucket_at_most.
  - destruct (runs_step_expiration st Hwf Hready Hone) as [c Hc].
    exists (advance_all_at_once st), c. split; [done|].
    split; [by apply advance_one_bucket_at_most|].
    by apply advance_one_countdown_label_at_most.
  - destruct (runs_strip_tags_on_archived_emails st Hwf Hready)
      as (st' & c & Hc & Hl & Hs).
    exists st', c. split; [done|].
    destruct (shrinks_one_bucket_at_most st st' Hl Hs) as [H1 H2]. auto.
Qed.

Lemma countdown_invariant_preserved_witness :
  (∃ st' c, runs add_inbox_expiration example_store tt st' c
            ∧ one_bucket_at_most st' = true)
  ∧ (∃ st' c, runs step_expiration example_store tt st' c
              ∧ one_bucket_at_most st' = true
              ∧ (one_countdown_label_at_most example_store = true →
                 one_countdown_label_at_most st' = true))
  ∧ (∃ st' c, runs strip_tags_on_archived_emails example_store tt st' c
              ∧ one_bucket_at_most st' = true
              ∧ (one_countdown_label_at_most example_store = true →
                 one_countdown_label_at_most st' = true)).
Proof.
  apply (countdown_invariant_preserved example_store); vm_compute; reflexivity.
Defined.

(** ** Interrupted archival *)

Lemma for_each_app {A} (l1 l2 : list A) (body : A → M unit) :
  ∀ w, for_each (l1 ++ l2) body w
       = bind (for_each l1 body) (λ _, for_each l2 body) w.
Proof.
  induction l1 as [|x l1 IH]; intros w; simpl; [done|].
  unfold bind. destruct (body x w) as [[[]|] w']; [|done].
  rewrite IH. done.
Qed.

Lemma bind_raised {A B} (m : M A) (k : A → M B) w w' :
  m w = (Raised, w') → bind m k w = (Raised, w').
Proof. intros H. unfold bind. by rewrite H. Qed.

(** The two calls the advance pass makes for a thread of bucket 0. *)
Definition archive_thread (auto_label label_id : option string) (thread : ThreadRef) : M unit :=
  let* _ := execute (Remote.threads_modify (ref_id thread) [auto_label] [label_id]) in
  execute (Remote.threads_modify (ref_id thread) [] [Some "INBOX"]).

Lemma step_bucket_0_eq labels auto_label :
  step_bucket labels auto_label 0
  = (let* label_id := getitem labels 0 in
     let* threads := fetch_all_threads "label:x0" in
     for_each threads (archive_thread auto_label label_id)).
Proof. reflexivity. Qed.

Section Archival.

Variable st : Store.
Hypothesis Hwf : well_formed st.
Hypothesis Hready : countdown_ready st = true.

Lemma runs_first_call cur tid :
  store_labels cur = store_labels st → tid ∈ thread_ids cur →
  runs (execute (Remote.threads_modify tid [archived_id st] [bucket_id st 0]))
       cur tt
       (relabel (λ t, String.eqb (thread_id t) tid)
                (modify_labels [archived_id st] [bucket_id st 0]) cur) 1.
Proof.
  intros Hl Hin. apply runs_modify; [| |done]; cbn [forallb];
    rewrite andb_true_r, (valid_label_id_same_labels cur st) by done.
  - by apply archived_id_valid.
  - by apply bucket_id_valid.
Qed.

Lemma runs_archive_thread cur r :
  store_labels cur = store_labels st → ref_id r ∈ thread_ids cur →
  runs (archive_thread (archived_id st) (bucket_id st 0) r) cur tt
       (relabel (λ t, String.eqb (thread_id t) (ref_id r)) (advance_labels st 0) cur) 2.
Proof.
  intros Hl Hin. unfold archive_thread.
  change (advance_labels st 0)
    with (modify_labels [] [Some "INBOX"]
          ∘ modify_labels [archived_id st] [bucket_id st 0]).
  rewrite <- relabel_twice_by_id.
  eapply (runs_bind _ _ _ _ _ 1 _ _ 1); [by apply runs_first_call|].
  apply runs_modify; [done| |by rewrite relabel_thread_ids].
  cbn [forallb]. rewrite andb_true_r.
  rewrite (valid_label_id_same_labels _ st) by done. by apply inbox_valid.
Qed.

(** The state in which the run stops when the transport fails between
    the two calls made for the thread [t] of bucket 0: the threads
    fetched before [t] are archived, [t] has had its first call. *)
Definition interrupted_at (before : list Thread) (t : Thread) : Store :=
  relabel (λ u, String.eqb (thread_id u) (thread_id t))
          (modify_labels [archived_id st] [bucket_id st 0])
          (relabel (λ u, bool_decide (thread_id u ∈ thread_id <$> before))
                   (advance_labels st 0) st).

Lemma step_expiration_interrupted before t after :
  Remote.search st [Query.mk_term false (Query.HasLabel (bucket_name 0))]
  = (before ++ t :: after)%list →
  ∃ k, step_expiration (mk_world st k)
       = (Raised, mk_world (interrupted_at before t) 0).
Proof.
  intros Hsearch.
  destruct (runs_fetch_all_threads st "label:x0" _ (parse_bucket_query 0 ltac:(done)))
    as [cf Hcf].
  rewrite Hsearch in Hcf.
  assert (Hsub : ∀ u, u ∈ (before ++ t :: after)%list → u ∈ store_threads st).
  { intros u Hu. rewrite <- Hsearch in Hu. unfold Remote.search in Hu.
    by apply elem_of_List_filter in Hu as [_ Hu]. }
  assert (Hnd : NoDup (thread_id <$> (before ++ t :: after)%list)).
  { rewrite <- Hsearch. unfold Remote.search.
    eapply NoDup_fmap_2_strong;
      [|apply NoDup_List_filter, (NoDup_fmap_1 thread_id), (wf_thread_ids st Hwf)].
    intros x y [_ Hx]%elem_of_List_filter [_ Hy]%elem_of_List_filter Hxy.
    eapply NoDup_fmap_eq; [apply (wf_thread_ids st Hwf)|done..]. }
  rewrite fmap_app, fmap_cons in Hnd.
  apply NoDup_app in Hnd as (Hnd1 & _ & _).
  destruct (runs_for_each_ids (archive_thread (archived_id st) (bucket_id st 0))
              (advance_labels st 0) (store_labels st) (thread_ids st)
              ltac:(intros r st1 Hl1 Hids1 Hr; exists 2%nat;
                    apply runs_archive_thread; [done|congruence])
              (thread_id <$> before) st eq_refl eq_refl Hnd1) as [cb Hcb].
  { intros x (u & -> & Hu)%list_elem_of_fmap. apply list_elem_of_fmap_2.
    apply Hsub. apply elem_of_app. by left. }
  set (cur := relabel (λ u, bool_decide (thread_id u ∈ thread_id <$> before))
                      (advance_labels st 0) st) in *.
  exists (8 + (1 + (cf + (cb + 1))))%nat.
  unfold step_expiration. rewrite step_expiration_in_eq.
  rewrite (bind_runs _ _ _ _ _ 8 _ (runs_day_labels st)).
  rewrite (bind_runs _ _ _ _ _ 1 _ (runs_get_label_id "auto-archived" st)).
  change (range (INBOX_DAYS + 1)) with (0 :: (Z.succ <$> range INBOX_DAYS)).
  cbn [for_each]. apply bind_raised.
  rewrite step_bucket_0_eq, getitem_day_labels by done.
  unfold bind at 1, ret at 1.
  rewrite (bind_runs _ _ _ _ _ cf _ Hcf).
  unfold refs_of. rewrite fmap_app, fmap_cons, for_each_app.
  assert (Heq : mk_ref <$> (thread_id <$> before)
                = (λ u, mk_ref (thread_id u)) <$> before)
    by by rewrite <- list_fmap_compose.
  rewrite Heq in Hcb.
  replace (cb + 1)%nat with (cb + 1 + 0)%nat by lia.
  rewrite <- Nat.add_assoc.
  rewrite (bind_runs _ _ _ _ _ cb _ Hcb).
  cbn [for_each]. apply bind_raised. unfold archive_thread.
  assert (Hin : thread_id t ∈ thread_ids cur).
  { unfold cur. rewrite relabel_thread_ids. apply list_elem_of_fmap_2.
    apply Hsub. apply elem_of_app. right. left. }
  rewrite (bind_runs _ _ _ _ _ 1 0 (runs_first_call cur (thread_id t) eq_refl Hin)).
  reflexivity.
Qed.

End Archival.

Lemma search_ids_NoDup st tms :
  well_formed st → NoDup (thread_id <$> Remote.search st tms).
Proof.
  intros Hwf. unfold Remote.search.
  eapply NoDup_fmap_2_strong;
    [|apply NoDup_List_filter, (NoDup_fmap_1 thread_id), (wf_thread_ids st Hwf)].
  intros x y [_ Hx]%elem_of_List_filter [_ Hy]%elem_of_List_filter Hxy.
  eapply NoDup_fmap_eq; [apply (wf_thread_ids st Hwf)|done..].
Qed.

(** The first of the two calls on a thread of bucket 0 alone. *)
Lemma first_call_labels st L :
  well_formed st → countdown_ready st = true →
  Remote.holds st L (bucket_name 0) = true → "INBOX" ∈ L →
  let L' := modify_labels [archived_id st] [bucket_id st 0] L in
  Remote.holds st L' "auto-archived" = true
  ∧ "INBOX" ∈ L'
  ∧ Remote.holds st L' (bucket_name 0) = false.
Proof.
  intros Hwf Hready Hh Hinbox.
  destruct (countdown_ready_archived st Hready) as [la Hla].
  destruct (countdown_ready_bucket st 0 Hready ltac:(done)) as [l0 Hl0].
  pose proof (bucket_id_not_archived st Hwf 0 l0 la ltac:(done) Hl0 Hla).
  pose proof (bucket_id_not_inbox st Hwf 0 l0 ltac:(done) Hl0).
  cbv zeta.
  rewrite (holds_find _ _ _ la (wf_label_names st Hwf) Hla).
  rewrite (holds_bucket st Hwf _ 0 l0 Hl0).
  rewrite bool_decide_eq_true, bool_decide_eq_false.
  unfold modify_labels, Remote.known_ids, archived_id, bucket_id.
  rewrite Hla, Hl0. simpl. set_solver.
Qed.

(** C9: the archival of a thread of bucket 0 is two remote calls, and a
    run that the transport interrupts between them stops there: for every
    thread of bucket 0 that is in the inbox there is a point of failure
    at which the run raises and leaves the thread archived, out of
    bucket 0 and still in the inbox, in a store that is not the one the
    run started from. *)
Theorem step_expiration_archival_not_atomic (st : Store) (pos : nat) (t : Thread) :
  store_ok st = true → countdown_ready st = true →
  store_threads st !! pos = Some t →
  in_bucket st t 0 = true → in_inbox t = true →
  ∃ k st',
    step_expiration (mk_world st k) = (Raised, mk_world st' 0)
    ∧ st' ≠ st
    ∧ ∃ t', t' ∈ store_threads st' ∧ thread_id t' = thread_id t
            ∧ is_archived st' t' = true ∧ in_inbox t' = true
            ∧ in_bucket st' t' 0 = false.
Proof.
  intros Hwf%store_ok_well_formed Hready Hpos Hb Hi.
  assert (Ht : t ∈ store_threads st) by (eapply list_elem_of_lookup_2; eauto).
  set (tms := [Query.mk_term false (Query.HasLabel (bucket_name 0))]).
  assert (Hfound : t ∈ Remote.search st tms).
  { apply elem_of_List_filter. split; [|done].
    unfold Remote.matches, Remote.term_matches, tms. simpl.
    unfold in_bucket in Hb. by rewrite Hb. }
  apply list_elem_of_split in Hfound as (before & after & Hsplit).
  destruct (step_expiration_interrupted st Hwf Hready before t after Hsplit)
    as [k Hk].
  pose proof (search_ids_NoDup st tms Hwf) as Hnd.
  rewrite Hsplit, fmap_app, fmap_cons in Hnd.
  apply NoDup_app in Hnd as (_ & Hdisj & _).
  assert (Hnot : thread_id t ∉ thread_id <$> before).
  { intros Hin. apply (Hdisj _ Hin). left. }
  apply bool_decide_eq_true in Hi.
  destruct (first_call_labels st (thread_labels t) Hwf Hready Hb Hi)
    as (Harch & Hinbox & Hout).
  set (t' := set_labels t (modify_labels [archived_id st] [bucket_id st 0]
                             (thread_labels t))).
  assert (Ht' : t' ∈ store_threads (interrupted_at st before t)).
  { unfold interrupted_at, relabel. cbn [store_threads].
    rewrite <- list_fmap_compose. apply list_elem_of_fmap.
    exists t. split; [|done]. unfold compose.
    rewrite (bool_decide_eq_false_2 _ Hnot). by rewrite String.eqb_refl. }
  exists k, (interrupted_at st before t). split; [done|]. split.
  - intros Heq. rewrite Heq in Ht'.
    assert (t' = t) by (eapply NoDup_fmap_eq; [apply (wf_thread_ids st Hwf)|done..]).
    unfold in_bucket in Hb. rewrite <- H in Hb. unfold t' in Hb. simpl in Hb.
    congruence.
  - exists t'. split; [done|]. split; [done|].
    unfold is_archived, in_inbox, in_bucket. cbn [thread_labels t' set_labels].
    rewrite !(holds_same_labels (interrupted_at st before t) st) by done.
    split; [done|]. split; [|done]. by apply bool_decide_eq_true.
Qed.

Lemma step_expiration_archival_not_atomic_witness :
  ∃ k st',
    step_expiration (mk_world example_store k) = (Raised, mk_world st' 0)
    ∧ st' ≠ example_store
    ∧ ∃ t', t' ∈ store_threads st'
            ∧ thread_id t' = "t0"
            ∧ is_archived st' t' = true ∧ in_inbox t' = true
            ∧ in_bucket st' t' 0 = false.
Proof.
  apply (step_expiration_archival_not_atomic example_store 0
           (mk_thread "t0" {["INBOX"; "Label_0"]} [mk_message 1700000000123]));
    vm_compute; reflexivity.
Defined.

(** ** Pages *)

(** The pages the store serves for a query when the cursor is followed
    from [tok] until no further page is announced. *)
Fixpoint pages_from (fuel : nat) (st : Store) (q : string) (page_size : Z)
    (tok : option string) : list (list ThreadRef) :=
  match fuel with
  | O => []
  | S fuel' =>
      match Remote.threads_list q page_size tok st with
      | Some (response, _) =>
          default [] (resp_threads response)
          :: (if falsy (nextPageToken response) then []
              else pages_from fuel' st q page_size (nextPageToken response))
      | None => []
      end
  end.

Lemma fetch_loop_pages st q tms page_size :
  Query.parse q = Some tms → 0 < page_size →
  ∀ m off tok,
    (length (Remote.search st tms) - off ≤ m)%nat →
    cursor_at off tok →
    ∃ pages,
      concat pages = refs_of (drop off (Remote.search st tms))
      ∧ Forall (λ pg, (length pg ≤ Z.to_nat page_size)%nat) pages
      ∧ (∀ fuel, (length pages ≤ fuel)%nat →
           pages_from fuel st q page_size tok = pages)
      ∧ ∀ fuel n acc, (length pages ≤ fuel)%nat →
          fetch_loop fuel q page_size tok acc (mk_world st (length pages + n))
          = (Returned (acc ++ concat pages)%list, mk_world st n).
Proof.
  intros Hq Hp. set (found := Remote.search st tms).
  assert (Hlist : ∀ off tok, cursor_at off tok →
    Remote.threads_list q page_size tok st
    = Some (mk_threads_response
              (Remote.some_unless_empty
                 (refs_of (take (Z.to_nat page_size) (drop off found))))
              (if (off + Z.to_nat page_size <? length found)%nat
               then Some (Remote.token_of_offset (off + Z.to_nat page_size))
               else None), st)).
  { intros off tok Htok. unfold Remote.threads_list. rewrite Hq.
    assert (Hoff : match tok with
                   | Some s => Remote.offset_of_token s
                   | None => Some O
                   end = Some off).
    { destruct Htok as [[-> ->]| ->]; [done|apply offset_of_token_of_offset]. }
    rewrite Hoff. destruct (page_size <=? 0) eqn:Hle; [lia|done]. }
  assert (Hpage : ∀ off,
    (length (refs_of (take (Z.to_nat page_size) (drop off found)))
     ≤ Z.to_nat page_size)%nat).
  { intros off. unfold refs_of. rewrite length_fmap, length_take. lia. }
  induction m as [|m IH]; intros off tok Hm Htok.
  - exists [refs_of (take (Z.to_nat page_size) (drop off found))].
    assert (Hlt : (off + Z.to_nat page_size <? length found)%nat = false).
    { apply Nat.ltb_ge. fold found in Hm. lia. }
    assert (Hall : take (Z.to_nat page_size) (drop off found) = drop off found).
    { apply take_ge. rewrite length_drop. fold found in Hm. lia. }
    split; [simpl; by rewrite app_nil_r, Hall|].
    split; [by apply Forall_singleton|]. split.
    + intros [|fuel] Hfuel; [simpl in Hfuel; lia|]. simpl.
      rewrite (Hlist off tok Htok), Hlt. simpl.
      by rewrite default_some_unless_empty.
    + intros [|fuel] n acc Hfuel; [simpl in Hfuel; lia|].
      simpl. unfold bind, execute. simpl. rewrite (Hlist off tok Htok), Hlt.
      simpl. by rewrite default_some_unless_empty, app_nil_r.
  - destruct (off + Z.to_nat page_size <? length found)%nat eqn:Hlt.
    + destruct (IH (off + Z.to_nat page_size)%nat
                  (Some (Remote.token_of_offset (off + Z.to_nat page_size))))
        as (pages & Hconcat & Hsizes & Hserved & Hloop).
      { fold found in Hm |- *. lia. }
      { by right. }
      exists (refs_of (take (Z.to_nat page_size) (drop off found)) :: pages).
      split.
      { simpl. rewrite Hconcat. unfold refs_of. rewrite <- fmap_app. f_equal.
        fold found. rewrite <- drop_drop. apply take_drop. }
      split; [by apply Forall_cons|]. split.
      * intros [|fuel] Hfuel; [simpl in Hfuel; lia|]. simpl.
        rewrite (Hlist off tok Htok), Hlt. cbn [nextPageToken resp_threads].
        rewrite token_of_offset_not_falsy, default_some_unless_empty.
        rewrite Hserved; [done|]. simpl in Hfuel. lia.
      * intros [|fuel] n acc Hfuel; [simpl in Hfuel; lia|].
        simpl. unfold bind at 1, execute. simpl. rewrite (Hlist off tok Htok).
        rewrite Hlt. cbn [nextPageToken resp_threads].
        rewrite token_of_offset_not_falsy, default_some_unless_empty.
        rewrite Hloop by (simpl in Hfuel; lia). by rewrite <- app_assoc.
    + exists [refs_of (take (Z.to_nat page_size) (drop off found))].
      apply Nat.ltb_ge in Hlt as Hge.
      assert (Hall : take (Z.to_nat page_size) (drop off found) = drop off found).
      { apply take_ge. rewrite length_drop. lia. }
      split; [simpl; by rewrite app_nil_r, Hall|].
      split; [by apply Forall_singleton|]. split.
      * intros [|fuel] Hfuel; [simpl in Hfuel; lia|]. simpl.
        rewrite (Hlist off tok Htok), Hlt. simpl.
        by rewrite default_some_unless_empty.
      * intros [|fuel] n acc Hfuel; [simpl in Hfuel; lia|].
        simpl. unfold bind, execute. simpl. rewrite (Hlist off tok Htok), Hlt.
        simpl. by rewrite default_some_unless_empty, app_nil_r.
Qed.

(** C7: whatever the query and the size of the pages, an uninterrupted
    [fetch_all_threads] makes one call per page the store serves along the
    cursor and returns the concatenation of these pages in the order
    received; this is the list of the threads the query selects, each
    once, the same for every page size. *)
Theorem fetch_all_threads_pagination (st : Store) (q : string)
    (tms : list Query.term) (page_size : Z) :
  store_ok st = true → Query.parse q = Some tms → 0 < page_size →
  ∃ pages,
    (∀ fuel, (length pages ≤ fuel)%nat → pages_from fuel st q page_size None = pages)
    ∧ Forall (λ pg, (length pg ≤ Z.to_nat page_size)%nat) pages
    ∧ runs (fetch_all_threads_by page_size q) st (concat pages) st (length pages)
    ∧ concat pages = refs_of (Remote.search st tms)
    ∧ NoDup (concat pages)
    ∧ fetch_all_threads = fetch_all_threads_by PAGE_SIZE.
Proof.
  intros Hwf%store_ok_well_formed Hq Hp.
  destruct (fetch_loop_pages st q tms page_size Hq Hp
              (length (Remote.search st tms)) O None ltac:(lia) ltac:(by left))
    as (pages & Hconcat & Hsizes & Hserved & Hloop).
  rewrite drop_0 in Hconcat.
  exists pages. split; [done|]. split; [done|]. split; [|split; [done|split; [|done]]].
  - intros n. unfold fetch_all_threads_by. cbn [calls_left].
    by rewrite Hloop by lia.
  - rewrite Hconcat. unfold refs_of.
    rewrite (list_fmap_compose thread_id mk_ref).
    apply NoDup_fmap_2; [by intros x y [= ->]|]. by apply search_ids_NoDup.
Qed.

Lemma fetch_all_threads_pagination_witness :
  ∃ pages,
    (∀ fuel, (length pages ≤ fuel)%nat →
       pages_from fuel example_store "in:inbox" 3 None = pages)
    ∧ Forall (λ pg, (length pg ≤ Z.to_nat 3)%nat) pages
    ∧ runs (fetch_all_threads_by 3 "in:inbox") example_store (concat pages)
           example_store (length pages)
    ∧ concat pages
      = refs_of (Remote.search example_store
                   [Query.mk_term false Query.InInbox])
    ∧ NoDup (concat pages)
    ∧ fetch_all_threads = fetch_all_threads_by PAGE_SIZE.
Proof.
  apply (fetch_all_threads_pagination example_store "in:inbox"
           [Query.mk_term false Query.InInbox] 3);
    [vm_compute; reflexivity | reflexivity | lia].
Defined.

(** ** Rounded quotients *)

Module Rounding.

Ltac powers :=
  change (2 ^ 10) with 1024 in *;
  change (2 ^ 52) with 4503599627370496 in *;
  change (2 ^ 53) with 9007199254740992 in *;
  change (2 ^ 54) with 18014398509481984 in *.

(** The number of binary digits of a positive number. *)
Lemma digits2_pos_bounds p :
  2 ^ (Z.pos (digits2_pos p) - 1) ≤ Z.pos p < 2 ^ Z.pos (digits2_pos p).
Proof.
  induction p as [p IH|p IH|]; simpl digits2_pos.
  - rewrite Pos2Z.inj_succ. replace (Z.succ (Z.pos (digits2_pos p)) - 1)
      with (Z.succ (Z.pos (digits2_pos p) - 1)) by lia.
    rewrite !Z.pow_succ_r by lia. lia.
  - rewrite Pos2Z.inj_succ. replace (Z.succ (Z.pos (digits2_pos p)) - 1)
      with (Z.succ (Z.pos (digits2_pos p) - 1)) by lia.
    rewrite !Z.pow_succ_r by lia. lia.
  - simpl. lia.
Qed.

Lemma Zdigits2_bounds z :
  0 < z → 2 ^ (Zdigits2 z - 1) ≤ z < 2 ^ Zdigits2 z.
Proof. destruct z; try lia. intros _. apply digits2_pos_bounds. Qed.

Lemma Zdigits2_unique z d :
  0 < d → 2 ^ (d - 1) ≤ z < 2 ^ d → Zdigits2 z = d.
Proof.
  intros Hd Hz. assert (Hpos : 0 < z).
  { pose proof (Z.pow_pos_nonneg 2 (d - 1)). lia. }
  pose proof (Zdigits2_bounds z Hpos) as Hb.
  assert (Hdz : 0 < Zdigits2 z) by (destruct z; simpl; lia).
  destruct (Z.lt_trichotomy (Zdigits2 z) d) as [Hlt|[Heq|Hgt]]; [|done|].
  - assert (2 ^ Zdigits2 z ≤ 2 ^ (d - 1)) by (apply Z.pow_le_mono_r; lia). lia.
  - assert (2 ^ d ≤ 2 ^ (Zdigits2 z - 1)) by (apply Z.pow_le_mono_r; lia). lia.
Qed.

Lemma fexp_normal x : -1021 ≤ x → fexp 53 1024 x = x - 53.
Proof. intros Hx. unfold fexp, emin. lia. Qed.

Lemma shr_record_of_loc_m m l : shr_m (shr_record_of_loc m l) = m.
Proof. by destruct l as [|[]]. Qed.

Lemma loc_of_shr_record_of_loc m l :
  loc_of_shr_record (shr_record_of_loc m l) = l.
Proof. by destruct l as [|[]]. Qed.

(** A mantissa of 53 bits is kept, one of 54 bits loses its last bit. *)
Lemma shr_fexp_53 m e l :
  2 ^ 52 ≤ m < 2 ^ 53 → -1074 ≤ e →
  shr_fexp 53 1024 m e l = (shr_record_of_loc m l, e).
Proof.
  intros Hm He. unfold shr_fexp. rewrite (Zdigits2_unique m 53) by lia.
  rewrite fexp_normal by lia. by replace (53 + e - 53 - e) with 0 by lia.
Qed.

Lemma shr_fexp_54 m e l :
  2 ^ 53 ≤ m < 2 ^ 54 → -1075 ≤ e →
  shr_fexp 53 1024 m e l = (shr_1 (shr_record_of_loc m l), e + 1).
Proof.
  intros Hm He. unfold shr_fexp. rewrite (Zdigits2_unique m 54) by lia.
  rewrite fexp_normal by lia. by replace (54 + e - 53 - e) with 1 by lia.
Qed.

(** The location of the lost bit and of what was below it. *)
Definition loc_after_shift (m : Z) (l : location) : location :=
  match Z.odd m, l with
  | false, loc_Exact => loc_Exact
  | false, loc_Inexact _ => loc_Inexact Lt
  | true, loc_Exact => loc_Inexact Eq
  | true, loc_Inexact _ => loc_Inexact Gt
  end.

Lemma shr_1_spec m l :
  0 < m →
  shr_m (shr_1 (shr_record_of_loc m l)) = m / 2
  ∧ loc_of_shr_record (shr_1 (shr_record_of_loc m l)) = loc_after_shift m l.
Proof.
  intros Hm. destruct m as [|p|p]; try lia. split.
  - rewrite <- Z.div2_div. destruct p as [p|p|]; by destruct l as [|[]].
  - destruct p as [p|p|]; by destruct l as [|[]].
Qed.

(** The mantissa and exponent [binary_round_aux] ends with when the
    rounded mantissa [m1] at exponent [e1] has 53 bits or is [2^53]. *)
Definition normalised (m1 e1 : Z) : spec_float :=
  if m1 <? 2 ^ 53 then S754_finite false (Z.to_pos m1) e1
  else S754_finite false (Z.to_pos (2 ^ 52)) (e1 + 1).

Lemma second_shift m1 e1 :
  2 ^ 52 ≤ m1 ≤ 2 ^ 53 → -1074 ≤ e1 ≤ 969 →
  (let '(mrs, e2) := shr_fexp 53 1024 m1 e1 loc_Exact in
   match shr_m mrs with
   | Z0 => S754_zero false
   | Z.pos m => if e2 <=? 1024 - 53 then S754_finite false m e2
                else S754_infinity false
   | Z.neg _ => S754_nan
   end) = normalised m1 e1.
Proof.
  intros Hm He. unfold normalised. destruct (Z.ltb_spec m1 (2 ^ 53)) as [Hlt|Hge].
  - rewrite shr_fexp_53 by lia. simpl shr_m.
    destruct m1 as [|p|p]; try lia.
    destruct (Z.leb_spec e1 (1024 - 53)); [done|lia].
  - assert (m1 = 2 ^ 53) by lia. subst m1.
    rewrite shr_fexp_54 by lia. simpl shr_m.
    destruct (Z.leb_spec (e1 + 1) (1024 - 53)); [done|lia].
Qed.

Lemma binary_round_aux_53 q e l :
  2 ^ 52 ≤ q < 2 ^ 53 → -1074 ≤ e ≤ 969 →
  binary_round_aux 53 1024 false q e l = normalised (round_nearest_even q l) e.
Proof.
  intros Hq He. unfold binary_round_aux. rewrite shr_fexp_53 by lia.
  rewrite shr_record_of_loc_m, loc_of_shr_record_of_loc.
  apply second_shift; [|lia]. powers.
  destruct l as [|[]]; simpl; try lia; destruct (Z.even q); lia.
Qed.

Lemma binary_round_aux_54 q e l :
  2 ^ 53 ≤ q < 2 ^ 54 → -1075 ≤ e ≤ 968 →
  binary_round_aux 53 1024 false q e l
  = normalised (round_nearest_even (q / 2) (loc_after_shift q l)) (e + 1).
Proof.
  intros Hq He. unfold binary_round_aux. rewrite shr_fexp_54 by lia.
  destruct (shr_1_spec q l ltac:(lia)) as [-> ->].
  apply second_shift; [|lia]. powers.
  assert (4503599627370496 ≤ q / 2 < 9007199254740992)
    by (Z.div_mod_to_equations; lia).
  destruct (loc_after_shift q l) as [|[]]; simpl; try lia;
    destruct (Z.even (q / 2)); lia.
Qed.

(** Rounding [m * 2^e] to an integer when it lies strictly between two
    consecutive half-integers: no tie, and both rules give [k]. *)
Lemma round_between m e k :
  e < 0 →
  (2 * k - 1) * 2 ^ (- e) < 2 * Z.pos m < (2 * k + 1) * 2 ^ (- e) →
  Float.round_half_even m e = k ∧ Float.round_half_up m e = k.
Proof.
  intros He Hk. unfold Float.round_half_even, Float.round_half_up.
  destruct e as [|p|p]; try lia.
  rewrite Z.pow_pos_fold. change (- Z.neg p) with (Z.pos p) in Hk.
  set (d := 2 ^ Z.pos p) in *.
  assert (Hd : 0 < d) by (apply Z.pow_pos_nonneg; lia).
  pose proof (Z.div_mod (Z.pos m) d ltac:(lia)) as Hdm.
  pose proof (Z.mod_pos_bound (Z.pos m) d Hd) as Hr.
  set (q := Z.pos m / d) in *. set (r := Z.pos m mod d) in *.
  set (M := Z.pos m) in *. clearbody M q r d.
  assert (Hup : 2 * r < d → 2 * k - 1 < 2 * q + 1).
  { intros Hlt. apply (Z.mul_lt_mono_pos_r d); [done|]. lia. }
  assert (Hdown : d < 2 * r → 2 * q + 1 < 2 * k + 1).
  { intros Hgt. apply (Z.mul_lt_mono_pos_r d); [done|]. lia. }
  assert (Hlow : 2 * q < 2 * k + 1).
  { apply (Z.mul_lt_mono_pos_r d); [done|]. lia. }
  assert (Hhigh : 2 * k - 1 < 2 * q + 2).
  { apply (Z.mul_lt_mono_pos_r d); [done|]. lia. }
  assert (Hne : 2 * r ≠ d).
  { intros Heq.
    assert (2 * k - 1 < 2 * q + 1) by (apply (Z.mul_lt_mono_pos_r d); [done|]; lia).
    assert (2 * q + 1 < 2 * k + 1) by (apply (Z.mul_lt_mono_pos_r d); [done|]; lia).
    lia. }
  destruct (Z.compare_spec (2 * r) d) as [Heq|Hlt|Hgt]; split; lia.
Qed.

Lemma round_normalised m1 e1 k :
  e1 ≤ -2 → 2 ^ 52 ≤ m1 ≤ 2 ^ 53 →
  (2 * k - 1) * 2 ^ (- e1) < 2 * m1 < (2 * k + 1) * 2 ^ (- e1) →
  Float.round (normalised m1 e1) = Some k
  ∧ Float.round_ties_up (normalised m1 e1) = Some k.
Proof.
  intros He Hm Hk. unfold normalised.
  destruct (Z.ltb_spec m1 (2 ^ 53)) as [Hlt|Hge]; cbn [Float.round Float.round_ties_up cond_Zopp].
  - destruct (round_between (Z.to_pos m1) e1 k) as [-> ->]; [lia| |done].
    rewrite Z2Pos.id by lia. done.
  - assert (m1 = 2 ^ 53) by lia. subst m1.
    destruct (round_between (Z.to_pos (2 ^ 52)) (e1 + 1) k) as [-> ->]; [lia| |done].
    rewrite Z2Pos.id by lia.
    replace (- e1) with (Z.succ (- (e1 + 1))) in Hk by lia.
    rewrite Z.pow_succ_r in Hk by lia. lia.
Qed.

Lemma new_location_odd_divisor n r :
  Z.odd n = true → 0 ≤ r < n →
  new_location n r
  = if r =? 0 then loc_Exact
    else if 2 * r <? n then loc_Inexact Lt else loc_Inexact Gt.
Proof.
  intros Hodd Hr. unfold new_location. rewrite <- Z.negb_odd, Hodd.
  cbn [negb]. unfold new_location_odd.
  destruct (Z.eqb_spec r 0); [done|].
  destruct (Z.compare_spec (2 * r + 1) n), (Z.ltb_spec (2 * r) n); try done; lia.
Qed.

(** The quotient of the scaled numerator, as the division of two positive
    integers computes it. *)
Lemma SFdiv_core_binary_integers a n :
  let d1 := Zdigits2 (Z.pos a) in
  let d2 := Zdigits2 (Z.pos n) in
  let s := 53 + d2 - d1 in
  d1 ≤ 52 → d2 ≤ 10 →
  SFdiv_core_binary 53 1024 (Z.pos a) 0 (Z.pos n) 0
  = ((Z.pos a * 2 ^ s) / Z.pos n, - s,
     new_location (Z.pos n) ((Z.pos a * 2 ^ s) mod Z.pos n)).
Proof.
  intros d1 d2 s Hd1 Hd2. unfold SFdiv_core_binary.
  fold d1 d2. assert (0 < d1) by (unfold d1; simpl; lia).
  assert (0 < d2) by (unfold d2; simpl; lia).
  rewrite fexp_normal by lia.
  replace (Z.min (d1 + 0 - (d2 + 0) - 53) (0 - 0)) with (- s) by (unfold s; lia).
  replace (0 - 0 - - s) with s by lia.
  destruct s as [|ps|ps] eqn:Hs; try (unfold s in Hs; lia).
  rewrite Z.shiftl_mul_pow2 by lia.
  unfold Z.div, Z.modulo.
  by destruct (Z.div_eucl (Z.pos a * 2 ^ Z.pos ps) (Z.pos n)).
Qed.

(** The integer nearest to [a / n]. *)
Definition nearest (a n : Z) : Z := (2 * a + n) / (2 * n).

(** For an odd [n] the quotient is never half-way between two integers. *)
Lemma nearest_strict a n :
  Z.odd n = true → 0 < n →
  (2 * nearest a n - 1) * n < 2 * a < (2 * nearest a n + 1) * n.
Proof.
  intros Hodd Hn. unfold nearest.
  pose proof (Z.div_mod (2 * a + n) (2 * n) ltac:(lia)) as Hdm.
  pose proof (Z.mod_pos_bound (2 * a + n) (2 * n) ltac:(lia)) as Hr.
  set (k := (2 * a + n) / (2 * n)) in *.
  assert (Hne : (2 * a + n) mod (2 * n) ≠ 0).
  { intros H0. rewrite H0 in Hdm.
    assert (Hpar : Z.odd (2 * a + n) = true).
    { rewrite Z.add_comm, Z.odd_add_mul_2. done. }
    rewrite Hdm in Hpar.
    replace (2 * n * k + 0) with (0 + 2 * (n * k)) in Hpar by lia.
    rewrite Z.odd_add_mul_2 in Hpar. discriminate Hpar. }
  nia.
Qed.

Lemma normalised_finite m1 e1 : ∃ m e, normalised m1 e1 = S754_finite false m e.
Proof. unfold normalised. destruct (m1 <? 2 ^ 53); eauto. Qed.

Lemma int_true_divide_positive a n :
  Float.int_true_divide (Z.pos a) (Z.pos n)
  = match SFdiv 53 1024 (S754_finite false a 0) (S754_finite false n 0) with
    | S754_infinity _ => None
    | f => Some f
    end.
Proof. reflexivity. Qed.

(** The rounded quotient of two positive integers, the divisor odd and
    below [2^10], the dividend below [2^52]: the float the division
    gives rounds to the integer nearest to the exact quotient, whatever
    the rule for ties. *)
Lemma rounded_quotient a n :
  Z.odd (Z.pos n) = true → 1 < Z.pos n < 2 ^ 10 → Z.pos a < 2 ^ 52 →
  ∃ f, Float.int_true_divide (Z.pos a) (Z.pos n) = Some f
       ∧ Float.round f = Some (nearest (Z.pos a) (Z.pos n))
       ∧ Float.round_ties_up f = Some (nearest (Z.pos a) (Z.pos n)).
Proof.
  intros Hodd [Hn1 Hn] Ha.
  set (A := Z.pos a) in *. set (N := Z.pos n) in *.
  set (d1 := Zdigits2 A). set (d2 := Zdigits2 N). set (s := 53 + d2 - d1).
  pose proof (Zdigits2_bounds A ltac:(done)) as HdA. fold d1 in HdA.
  pose proof (Zdigits2_bounds N ltac:(done)) as HdN. fold d2 in HdN.
  assert (Hd1p : 0 < d1) by (unfold d1, A; simpl; lia).
  assert (Hd2p : 0 < d2) by (unfold d2, N; simpl; lia).
  assert (Hd1 : d1 ≤ 52).
  { destruct (Z.le_gt_cases d1 52) as [|Hgt]; [done|].
    assert (2 ^ 52 ≤ 2 ^ (d1 - 1)) by (apply Z.pow_le_mono_r; lia). lia. }
  assert (Hd2l : 2 ≤ d2).
  { destruct (Z.le_gt_cases 2 d2) as [|Hlt]; [done|].
    assert (d2 = 1) by lia. replace d2 with 1 in HdN. simpl in HdN. lia. }
  assert (Hd2 : d2 ≤ 10).
  { destruct (Z.le_gt_cases d2 10) as [|Hgt]; [done|].
    assert (2 ^ 10 ≤ 2 ^ (d2 - 1)) by (apply Z.pow_le_mono_r; lia). lia. }
  set (k := nearest A N).
  pose proof (nearest_strict A N Hodd ltac:(done)) as Hk. fold k in Hk.
  (* the scaled numerator *)
  set (P := 2 ^ (s - 1)).
  assert (HPdef : 2 ^ (s - 1) = P) by done.
  assert (HP : 0 < P) by (apply Z.pow_pos_nonneg; unfold s; lia).
  assert (Hs : 2 ^ s = 2 * P).
  { unfold P. rewrite <- Z.pow_succ_r by (unfold s; lia). f_equal. lia. }
  assert (HPN : N < P).
  { assert (2 ^ d2 ≤ P) by (apply Z.pow_le_mono_r; unfold s; lia). lia. }
  assert (HX1 : 2 ^ 52 * 2 ^ d2 ≤ A * 2 ^ s).
  { rewrite <- Z.pow_add_r by lia.
    replace (52 + d2) with ((d1 - 1) + s) by (unfold s; lia).
    rewrite Z.pow_add_r by (unfold s; lia).
    apply Z.mul_le_mono_nonneg_r; [rewrite Hs|]; lia. }
  assert (HX2 : A * 2 ^ s < 2 ^ 54 * 2 ^ (d2 - 1)).
  { rewrite <- Z.pow_add_r by lia.
    replace (54 + (d2 - 1)) with (d1 + s) by (unfold s; lia).
    rewrite Z.pow_add_r by (unfold s; lia).
    apply Z.mul_lt_mono_pos_r; [rewrite Hs|]; lia. }
  set (X := A * 2 ^ s) in *.
  pose proof (Z.div_mod X N ltac:(done)) as Hdm.
  pose proof (Z.mod_pos_bound X N ltac:(done)) as Hr.
  set (q := X / N) in *. set (r := X mod N) in *.
  assert (Hq : 2 ^ 52 ≤ q < 2 ^ 54).
  { split.
    - apply Z.div_le_lower_bound; [done|]. nia.
    - apply Z.div_lt_upper_bound; [done|]. nia. }
  (* the division *)
  assert (Hdiv : Float.int_true_divide A N
                 = match binary_round_aux 53 1024 false q (- s) (new_location N r) with
                   | S754_infinity _ => None
                   | f => Some f
                   end).
  { pose proof (SFdiv_core_binary_integers a n Hd1 Hd2) as Hcore.
    cbv zeta in Hcore. unfold A, N. rewrite int_true_divide_positive.
    unfold SFdiv. rewrite Hcore. reflexivity. }
  rewrite (new_location_odd_divisor N r Hodd Hr) in Hdiv.
  assert (HXA : X = A * (2 * P)) by (unfold X; by rewrite Hs).
  assert (Hs2 : 2 ^ s = 2 * P) by done.
  assert (Hlo : ((2 * k - 1) * N + 1) * P ≤ 2 * A * P)
    by (apply Z.mul_le_mono_nonneg_r; lia).
  assert (Hhi : 2 * A * P ≤ ((2 * k + 1) * N - 1) * P)
    by (apply Z.mul_le_mono_nonneg_r; lia).
  clearbody P k. clear HX1 HX2 HdA HdN.
  powers.
  destruct (Z.lt_ge_cases q 9007199254740992) as [H53|H54].
  - rewrite binary_round_aux_53 in Hdiv by (powers; unfold s; lia).
    set (m1 := round_nearest_even q _) in Hdiv.
    assert (Hm1 : (2 * X - N < 2 * m1 * N ≤ 2 * X + N)
                  ∧ 4503599627370496 ≤ m1 ≤ 9007199254740992).
    { unfold m1. destruct (Z.eqb_spec r 0); [simpl; lia|].
      destruct (Z.ltb_spec (2 * r) N); simpl; lia. }
    destruct Hm1 as [Hm1 Hm1r]. clearbody m1.
    destruct (round_normalised m1 (- s) k) as [Hr1 Hr2];
      [unfold s; lia|by powers| |].
    { rewrite Z.opp_involutive. fold X in HXA.
      rewrite Hs2.
      split; apply (Z.mul_lt_mono_pos_r N); try done; lia. }
    destruct (normalised_finite m1 (- s)) as (m & e & Hfin).
    exists (normalised m1 (- s)). rewrite Hdiv, Hfin. by rewrite <- Hfin.
  - rewrite binary_round_aux_54 in Hdiv by (powers; unfold s; lia).
    set (m1 := round_nearest_even (q / 2) _) in Hdiv.
    pose proof (Z.div_mod q 2 ltac:(lia)) as Hq2.
    pose proof (Z.mod_pos_bound q 2 ltac:(lia)) as Hb.
    assert (Hodd_q : Z.odd q = (q mod 2 =? 1)).
    { rewrite Zmod_odd. by destruct (Z.odd q). }
    assert (Hm1 : X - N ≤ 2 * m1 * N ≤ X + N
                  ∧ 4503599627370496 ≤ m1 ≤ 9007199254740992).
    { unfold m1, loc_after_shift. rewrite Hodd_q.
      set (h := q / 2) in *. set (b := q mod 2) in *. clearbody h b.
      assert (HhN : X = 2 * (h * N) + b * N + r) by (subst q; lia).
      destruct (Z.eqb_spec b 1) as [Hb1|Hb0];
        destruct (Z.eqb_spec r 0) as [Hr0|Hr0];
        [|destruct (Z.ltb_spec (2 * r) N)| |destruct (Z.ltb_spec (2 * r) N)];
        cbn [round_nearest_even]; try destruct (Z.even h);
        try subst b; (split; [nia|lia]). }
    destruct Hm1 as [Hm1 Hm1r]. clearbody m1.
    destruct (round_normalised m1 (- s + 1) k) as [Hr1 Hr2];
      [unfold s; lia|by powers| |].
    { replace (- (- s + 1)) with (s - 1) by lia.
      rewrite HPdef.
      split; apply (Z.mul_lt_mono_pos_r N); try done; lia. }
    destruct (normalised_finite m1 (- s + 1)) as (m & e & Hfin).
    exists (normalised m1 (- s + 1)). rewrite Hdiv, Hfin. by rewrite <- Hfin.
Qed.

End Rounding.

(** ** The sweep of the age labels *)

(** The store without the labels of the identifiers [ids]. *)
Definition sweep_ids (ids : list string) (st : Store) : Store :=
  mk_store
    (List.filter (λ l, negb (bool_decide (label_id l ∈ ids))) (store_labels st))
    ((λ t, set_labels t (thread_labels t ∖ list_to_set ids)) <$> store_threads st).

Lemma labels_delete_sweep id st :
  id ∈ Remote.label_ids st →
  Remote.labels_delete id st = Some (tt, sweep_ids [id] st).
Proof.
  intros Hin. unfold Remote.labels_delete. rewrite bool_decide_eq_true_2 by done.
  unfold sweep_ids. do 3 f_equal.
  - apply filter_ext. intros l. f_equal.
    destruct (String.eqb_spec (label_id l) id) as [Heq|Hne].
    + symmetry. apply bool_decide_eq_true. rewrite Heq. left.
    + symmetry. apply bool_decide_eq_false. by intros Hx%list_elem_of_singleton.
  - apply list_fmap_ext. intros k t _. unfold set_labels. f_equal. set_solver.
Qed.

Lemma sweep_ids_cons x ids st :
  sweep_ids ids (sweep_ids [x] st) = sweep_ids (x :: ids) st.
Proof.
  unfold sweep_ids. cbn [store_labels store_threads]. f_equal.
  - induction (store_labels st) as [|l ls IH]; [done|]. cbn [List.filter].
    destruct (decide (label_id l = x)) as [Heq|Hne].
    + rewrite (bool_decide_eq_true_2 (label_id l ∈ [x])) by (rewrite Heq; left).
      rewrite (bool_decide_eq_true_2 (label_id l ∈ x :: ids)) by (rewrite Heq; left).
      cbn [negb]. apply IH.
    + rewrite (bool_decide_eq_false_2 (label_id l ∈ [x]))
        by by intros ?%list_elem_of_singleton.
      cbn [negb List.filter]. rewrite IH.
      destruct (decide (label_id l ∈ ids)) as [Hin|Hnin].
      * rewrite !bool_decide_eq_true_2; [done|by right|done].
      * rewrite !bool_decide_eq_false_2; [done| |done].
        by intros [?|?]%elem_of_cons.
  - rewrite <- list_fmap_compose. apply list_fmap_ext. intros k t _.
    unfold set_labels, compose. simpl. f_equal. set_solver.
Qed.

Lemma sweep_ids_nil st : sweep_ids [] st = st.
Proof.
  destruct st as [ls ts]. unfold sweep_ids. simpl. f_equal.
  - induction ls as [|l ls IH]; [done|]. cbn [List.filter]. by rewrite IH.
  - rewrite <- (list_fmap_id ts) at 2. apply list_fmap_ext. intros k t _.
    destruct t as [i L m]. unfold set_labels. simpl. f_equal. set_solver.
Qed.

Lemma sweep_ids_label_ids ids st x :
  x ∈ Remote.label_ids (sweep_ids ids st) ↔ x ∈ Remote.label_ids st ∧ x ∉ ids.
Proof.
  unfold Remote.label_ids, sweep_ids. cbn [store_labels].
  rewrite !list_elem_of_fmap. split.
  - intros (l & -> & [Hk Hl]%elem_of_List_filter). split; [by exists l|].
    apply negb_true_iff in Hk. by apply bool_decide_eq_false in Hk.
  - intros [(l & -> & Hl) Hnot]. exists l. split; [done|].
    apply elem_of_List_filter. split; [|done].
    apply negb_true_iff. by apply bool_decide_eq_false.
Qed.

Lemma runs_delete_labels (ls : list Label) :
  ∀ st, NoDup (label_id <$> ls) →
    (∀ l, l ∈ ls → label_id l ∈ Remote.label_ids st) →
    runs (for_each ls (λ label, execute (Remote.labels_delete (label_id label))))
         st tt (sweep_ids (label_id <$> ls) st) (length ls).
Proof.
  induction ls as [|x ls IH]; intros st Hnd Hin.
  - simpl. rewrite sweep_ids_nil. apply runs_ret.
  - rewrite fmap_cons in Hnd. apply NoDup_cons in Hnd as [Hx Hnd].
    rewrite fmap_cons, <- sweep_ids_cons. simpl.
    eapply (runs_bind _ _ _ _ _ 1 _ _ (length ls)).
    + apply runs_execute, labels_delete_sweep, Hin. left.
    + apply IH; [done|]. intros l Hl. apply sweep_ids_label_ids. split.
      * apply Hin. by right.
      * intros Heq%list_elem_of_singleton. apply Hx. rewrite <- Heq.
        by apply list_elem_of_fmap_2.
Qed.

Section Sweep.

Variable starts_with_digit : string → bool.

Definition is_age_label (l : Label) : bool :=
  age_label_re_match starts_with_digit (label_name l).

(** The store after [remove_all_age_labels]. *)
Definition sweep (st : Store) : Store :=
  sweep_ids (label_id <$> List.filter is_age_label (store_labels st)) st.

Lemma runs_remove_all_age_labels st :
  well_formed st →
  ∃ c, runs (remove_all_age_labels starts_with_digit) st tt (sweep st) c.
Proof.
  intros Hwf. exists (1 + length (List.filter is_age_label (store_labels st)))%nat.
  unfold remove_all_age_labels.
  eapply runs_bind; [apply runs_get_all_labels|].
  apply runs_delete_labels.
  - eapply NoDup_fmap_2_strong;
      [|apply NoDup_List_filter, (NoDup_fmap_1 label_id), (wf_label_ids st Hwf)].
    intros x y [_ Hx]%elem_of_List_filter [_ Hy]%elem_of_List_filter Hxy.
    eapply NoDup_fmap_eq; [apply (wf_label_ids st Hwf)|done..].
  - intros l [_ Hl]%elem_of_List_filter. by apply list_elem_of_fmap_2.
Qed.

(** The sweep keeps the labels that are no age labels, and them only. *)
Lemma sweep_labels st l :
  well_formed st →
  l ∈ store_labels (sweep st) ↔ l ∈ store_labels st ∧ is_age_label l = false.
Proof.
  intros Hwf. unfold sweep, sweep_ids. cbn [store_labels].
  rewrite elem_of_List_filter, negb_true_iff, bool_decide_eq_false. split.
  - intros [Hnot Hl]. split; [done|]. apply not_true_is_false. intros Hage.
    apply Hnot. apply list_elem_of_fmap_2. by apply elem_of_List_filter.
  - intros [Hl Hage]. split; [|done].
    intros (l' & Hid & [Hage' Hl']%elem_of_List_filter)%list_elem_of_fmap.
    assert (l = l') by (eapply NoDup_fmap_eq; [apply (wf_label_ids st Hwf)|done..]).
    subst l'. congruence.
Qed.

Lemma sweep_thread_ids st : thread_ids (sweep st) = thread_ids st.
Proof.
  unfold thread_ids, sweep, sweep_ids. cbn [store_threads].
  rewrite <- list_fmap_compose. by apply list_fmap_ext.
Qed.

Lemma inbox_is_no_age_label : is_age_label (mk_label "INBOX" "INBOX") = false.
Proof. reflexivity. Qed.

Lemma well_formed_sweep st : well_formed st → well_formed (sweep st).
Proof.
  intros Hwf. split.
  - unfold Remote.label_ids, sweep, sweep_ids. cbn [store_labels].
    eapply NoDup_fmap_2_strong;
      [|apply NoDup_List_filter, (NoDup_fmap_1 label_id), (wf_label_ids st Hwf)].
    intros x y [_ Hx]%elem_of_List_filter [_ Hy]%elem_of_List_filter Hxy.
    eapply NoDup_fmap_eq; [apply (wf_label_ids st Hwf)|done..].
  - unfold sweep, sweep_ids. cbn [store_labels].
    eapply NoDup_fmap_2_strong;
      [|apply NoDup_List_filter, (NoDup_fmap_1 label_name), (wf_label_names st Hwf)].
    intros x y [_ Hx]%elem_of_List_filter [_ Hy]%elem_of_List_filter Hxy.
    eapply NoDup_fmap_eq; [apply (wf_label_names st Hwf)|done..].
  - fold (thread_ids (sweep st)). rewrite sweep_thread_ids. apply Hwf.
  - intros t' Ht'. unfold sweep in Ht' |- *. unfold sweep_ids in Ht' at 1.
    cbn [store_threads] in Ht'. apply list_elem_of_fmap in Ht' as (t & -> & Ht).
    cbn [thread_labels set_labels]. intros x Hx. apply elem_of_list_to_set.
    apply sweep_ids_label_ids. apply elem_of_difference in Hx as [HxL Hxs].
    split; [|by rewrite elem_of_list_to_set in Hxs].
    pose proof (wf_thread_labels st Hwf t Ht x HxL) as Hid.
    by rewrite elem_of_list_to_set in Hid.
  - apply sweep_labels; [done|]. split; [apply Hwf|apply inbox_is_no_age_label].
Qed.

End Sweep.

(** ** The label registry, creating on demand *)

Lemma strip_prefix_app p s : strip_prefix p (p +:+ s) = Some s.
Proof.
  induction p as [|a p IH]; [done|]. simpl. by rewrite Ascii.eqb_refl.
Qed.

Lemma new_label_id_fresh st : Remote.new_label_id st ∉ Remote.label_ids st.
Proof.
  unfold Remote.new_label_id. intros Hin.
  apply (infinite_is_fresh (omap (strip_prefix "Label_") (Remote.label_ids st))).
  apply list_elem_of_omap. eexists. split; [exact Hin|].
  apply (strip_prefix_app "Label_").
Qed.

Lemma find_label_None st name :
  find_label st name = None ↔ name ∉ label_name <$> store_labels st.
Proof.
  unfold find_label. split.
  - intros Hnone (l & -> & Hl)%list_elem_of_fmap.
    eapply find_none in Hnone; [|by apply list_elem_of_In].
    by rewrite String.eqb_refl in Hnone.
  - intros Hnot. destruct (List.find _ _) as [l|] eqn:Hf; [|done].
    apply find_some in Hf as [Hl Heq]. apply String.eqb_eq in Heq. destruct Hnot.
    rewrite <- Heq. by apply list_elem_of_fmap_2, list_elem_of_In.
Qed.

(** The store with one more label. *)
Definition with_label (l : Label) (st : Store) : Store :=
  mk_store (store_labels st ++ [l])%list (store_threads st).

Lemma find_label_with_label st l name :
  find_label (with_label l st) name
  = match find_label st name with
    | Some l' => Some l'
    | None => if String.eqb (label_name l) name then Some l else None
    end.
Proof.
  unfold find_label, with_label. cbn [store_labels].
  induction (store_labels st) as [|x xs IH]; [done|]. simpl.
  by destruct (String.eqb (label_name x) name).
Qed.

(** [get_or_create_label]: the label of that name when there is one, a
    new label under a new identifier otherwise. *)
Lemma runs_get_or_create_label st name :
  ∃ l st' c,
    runs (get_or_create_label name) st (label_id l) st' c
    ∧ find_label st' name = Some l
    ∧ (match find_label st name with
       | Some l0 => l = l0 ∧ st' = st
       | None => l = mk_label name (Remote.new_label_id st) ∧ st' = with_label l st
       end).
Proof.
  unfold get_or_create_label. destruct (find_label st name) as [l0|] eqn:Hf.
  - exists l0, st, 1%nat. split; [|by split].
    eapply (runs_bind _ _ _ _ _ 1 _ _ 0); [apply runs_get_all_labels|].
    fold (find_label st name). rewrite Hf. apply runs_ret.
  - set (l := mk_label name (Remote.new_label_id st)).
    exists l, (with_label l st), 2%nat. split; [|split; [|done]].
    + eapply (runs_bind _ _ _ _ _ 1 _ _ 1); [apply runs_get_all_labels|].
      fold (find_label st name). rewrite Hf.
      eapply (runs_bind _ _ _ _ _ 1 _ _ 0); [|apply runs_ret].
      apply runs_execute. unfold Remote.labels_create.
      assert (Hex : existsb (λ l, String.eqb (label_name l) name) (store_labels st)
                    = false).
      { apply not_true_is_false. intros (x & Hx & Hn)%existsb_exists.
        apply String.eqb_eq in Hn. apply find_label_None in Hf. apply Hf.
        rewrite <- Hn. by apply list_elem_of_fmap_2, list_elem_of_In. }
      by rewrite Hex.
    + rewrite find_label_with_label, Hf. simpl. by rewrite String.eqb_refl.
Qed.

Lemma well_formed_with_label st l :
  well_formed st →
  label_id l ∉ Remote.label_ids st → label_name l ∉ label_name <$> store_labels st →
  well_formed (with_label l st).
Proof.
  intros [H1 H2 H3 H4 H5] Hid Hname. split.
  - unfold Remote.label_ids, with_label. cbn [store_labels].
    rewrite fmap_app. apply NoDup_app. split; [done|]. split.
    + intros x Hx ?%list_elem_of_singleton. by subst x.
    + apply NoDup_singleton.
  - unfold with_label. cbn [store_labels].
    rewrite fmap_app. apply NoDup_app. split; [done|]. split.
    + intros x Hx ?%list_elem_of_singleton. by subst x.
    + apply NoDup_singleton.
  - done.
  - intros t Ht x Hx. specialize (H4 t Ht x Hx).
    rewrite elem_of_list_to_set in H4 |- *.
    unfold Remote.label_ids, with_label. cbn [store_labels].
    rewrite fmap_app. apply elem_of_app. by left.
  - unfold with_label. cbn [store_labels]. apply elem_of_app. by left.
Qed.

(** [threads().get] on a thread of the store. *)
Lemma threads_get_found st t :
  NoDup (thread_ids st) → t ∈ store_threads st →
  Remote.threads_get (thread_id t) st
  = Some (mk_thread_resource (Remote.some_unless_empty (thread_messages t)), st).
Proof.
  intros Hnd Ht. unfold Remote.threads_get.
  rewrite (find_unique _ _ t); [done|done|apply String.eqb_refl|].
  intros y Hy Heq%String.eqb_eq. eapply NoDup_fmap_eq; eauto.
Qed.

(** ** The age of a thread and the name of its label *)

Lemma round_div_nearest age n :
  n = 31 ∨ n = 365 → 0 < age < 2 ^ 52 →
  round_div age n = Some (Rounding.nearest age n)
  ∧ (Float.int_true_divide age n ≫= Float.round_ties_up)
    = Some (Rounding.nearest age n).
Proof.
  intros Hn Hage. destruct age as [|a|a]; try lia.
  assert (Hnp : ∃ p, n = Z.pos p ∧ Z.odd (Z.pos p) = true ∧ 1 < Z.pos p < 2 ^ 10).
  { destruct Hn as [->| ->]; eexists; (split; [reflexivity|]); split; done. }
  destruct Hnp as (p & -> & Hodd & Hp).
  destruct (Rounding.rounded_quotient a p Hodd Hp ltac:(lia)) as (f & Hf & Hr & Hu).
  unfold round_div. rewrite Hf. simpl. by split.
Qed.

Lemma age_string_cases age :
  age < 2 ^ 52 →
  age_string age
  = Some (if age <? 31 then str age +:+ "d"
          else if age <? 365 then str (Rounding.nearest age 31) +:+ "m"
          else str (Rounding.nearest age 365) +:+ "y").
Proof.
  intros Hage. unfold age_string.
  destruct (Z.ltb_spec age 31); [done|].
  destruct (Z.ltb_spec age 365).
  - destruct (round_div_nearest age 31) as [-> _]; [by left|lia|done].
  - destruct (round_div_nearest age 365) as [-> _]; [by right|lia|done].
Qed.

(** The body of the loop of [append_too_old_labels]. *)
Definition annotate_thread (now : datetime) (thread : ThreadRef) : M unit :=
  let* thread_meta := execute (Remote.threads_get (ref_id thread)) in
  let messages := default [] (resp_messages thread_meta) in
  match thread_age now messages with
  | None => raise
  | Some None => ret tt
  | Some (Some age) =>
      if MIN_AGE_TO_APPEND_LABEL <=? age
      then add_age_label (ref_id thread) age
      else ret tt
  end.

Lemma append_too_old_labels_eq digit now :
  append_too_old_labels digit now
  = (let* _ := remove_all_age_labels digit in
     let* threads := fetch_all_threads "in:inbox" in
     for_each threads (annotate_thread now)).
Proof. reflexivity. Qed.

(** The name of the age label the pass attaches to a thread, if it
    attaches one: the thread is in the inbox, has a message, and its last
    message is [MIN_AGE_TO_APPEND_LABEL] days old or more. *)
Definition age_label_name (now : datetime) (t : Thread) : option string :=
  if in_inbox t then
    match thread_age now (thread_messages t) with
    | Some (Some age) =>
        if MIN_AGE_TO_APPEND_LABEL <=? age
        then (λ s, LABEL_PREFIX +:+ s) <$> age_string age
        else None
    | _ => None
    end
  else None.

(** The ages of the inbox threads can be computed: the timestamps are
    dates [datetime] has, and the ages are below [2^52] days. *)
Definition annotatable (now : datetime) (st : Store) : bool :=
  forallb (λ t, negb (in_inbox t)
                || match thread_age now (thread_messages t) with
                   | Some None => true
                   | Some (Some age) => age <? 2 ^ 52
                   | None => false
                   end)
          (store_threads st).

Lemma Forall2_impl_elem {A B} (R R' : A → B → Prop) (l : list A) (l' : list B) :
  Forall2 R l l' →
  (∀ x y, x ∈ l → y ∈ l' → R x y → R' x y) →
  Forall2 R' l l'.
Proof.
  induction 1 as [|x y l l' HR HF IH]; intros Himpl; [constructor|].
  constructor.
  - apply Himpl; [left|left|done].
  - apply IH. intros a b Ha Hb. apply Himpl; by right.
Qed.

Section Annotate.

Variable now : datetime.
(** The store when the sweep is over. *)
Variable s1 : Store.
Hypothesis Hwf1 : well_formed s1.
Hypothesis Hann : annotatable now s1 = true.

(** The identifier of the age label of a thread, once it has been
    looked up or created. *)
Definition attached (cur : Store) (t : Thread) : gset string :=
  match age_label_name now t with
  | Some name =>
      match find_label cur name with
      | Some l => {[label_id l]}
      | None => ∅
      end
  | None => ∅
  end.

(** The state of the loop when the threads of the identifiers [done]
    have been handled. *)
Record annotated (done : list string) (cur : Store) : Prop := {
  an_wf : well_formed cur;
  an_labels :
    ∃ extra, store_labels cur = (store_labels s1 ++ extra)%list
             ∧ ∀ l, l ∈ extra →
                 ∃ t, t ∈ store_threads s1 ∧ thread_id t ∈ done
                      ∧ age_label_name now t = Some (label_name l);
  an_found :
    ∀ t name, t ∈ store_threads s1 → thread_id t ∈ done →
              age_label_name now t = Some name → is_Some (find_label cur name);
  an_threads :
    Forall2 (λ t tc, thread_id tc = thread_id t
                     ∧ thread_messages tc = thread_messages t
                     ∧ thread_labels tc
                       = thread_labels t
                         ∪ (if bool_decide (thread_id t ∈ done)
                            then attached cur t else ∅))
            (store_threads s1) (store_threads cur)
}.

Lemma annotated_start : annotated [] s1.
Proof.
  split; [done| | |].
  - exists []. split; [by rewrite app_nil_r|]. by intros l ?%elem_of_nil.
  - by intros t name _ ?%elem_of_nil.
  - apply Forall2_same_length_lookup_2; [done|]. intros i t t' H1 H2.
    simplify_eq. split; [done|]. split; [done|].
    rewrite bool_decide_eq_false_2 by apply not_elem_of_nil. set_solver.
Qed.

Lemma thread_unique t t' :
  t ∈ store_threads s1 → t' ∈ store_threads s1 → thread_id t' = thread_id t →
  t' = t.
Proof. intros. eapply NoDup_fmap_eq; [apply (wf_thread_ids s1 Hwf1)|done..]. Qed.

Lemma annotatable_thread t :
  t ∈ store_threads s1 → in_inbox t = true →
  thread_age now (thread_messages t) = Some None
  ∨ ∃ age, thread_age now (thread_messages t) = Some (Some age) ∧ age < 2 ^ 52.
Proof.
  intros Ht Hin. unfold annotatable in Hann. rewrite forallb_forall in Hann.
  apply list_elem_of_In, Hann in Ht. rewrite Hin in Ht. simpl in Ht.
  destruct (thread_age now (thread_messages t)) as [[age|]|]; [|by left|done].
  right. exists age. split; [done|]. by apply Z.ltb_lt.
Qed.

(** A turn of the loop that attaches nothing. *)
Lemma annotated_skip done cur t :
  annotated done cur → t ∈ store_threads s1 → age_label_name now t = None →
  annotated (thread_id t :: done) cur.
Proof.
  intros [Hwf (extra & Hl & Hextra) Hfound Hthreads] Ht Hnone. split; [done| | |].
  - exists extra. split; [done|]. intros l Hl'.
    destruct (Hextra l Hl') as (t' & Ht' & Hd & Hn). exists t'.
    split; [done|]. split; [by right|done].
  - intros t' name Ht' [Heq|Hd]%elem_of_cons Hn; [|by eapply Hfound].
    rewrite (thread_unique t t' Ht Ht' Heq) in Hn. congruence.
  - eapply Forall2_impl_elem; [exact Hthreads|].
    intros t' tc Ht' _ (Hid & Hm & HL). split; [done|]. split; [done|].
    rewrite HL. f_equal.
    destruct (decide (thread_id t' = thread_id t)) as [Heq|Hne].
    + rewrite (bool_decide_eq_true_2 (thread_id t' ∈ thread_id t :: done))
        by (rewrite Heq; left).
      rewrite (thread_unique t t' Ht Ht' Heq).
      unfold attached at 2. rewrite Hnone.
      destruct (bool_decide (thread_id t ∈ done)); [|done].
      unfold attached. by rewrite Hnone.
    + destruct (decide (thread_id t' ∈ done)) as [Hd|Hd].
      * rewrite !bool_decide_eq_true_2; [done|by right|done].
      * rewrite !bool_decide_eq_false_2; [done| |done].
        by intros [?|?]%elem_of_cons.
Qed.

Lemma current_thread done cur t :
  annotated done cur → t ∈ store_threads s1 →
  ∃ tc, tc ∈ store_threads cur ∧ thread_id tc = thread_id t
        ∧ thread_messages tc = thread_messages t.
Proof.
  intros Han Ht. apply list_elem_of_lookup in Ht as [i Hi].
  destruct (Forall2_lookup_l _ _ _ i t (an_threads _ _ Han) Hi)
    as (tc & Htc & Hid & Hm & _).
  exists tc. split; [|done]. eapply list_elem_of_lookup_2; eauto.
Qed.

Lemma annotated_thread_ids done cur :
  annotated done cur → thread_ids cur = thread_ids s1.
Proof.
  intros Han. unfold thread_ids. apply list_eq_Forall2.
  apply Forall2_fmap. eapply Forall2_flip, Forall2_impl; [apply (an_threads _ _ Han)|].
  by intros t tc (-> & _).
Qed.

Lemma attached_stable cur cur' t :
  (∀ name l, find_label cur name = Some l → find_label cur' name = Some l) →
  (∀ name, age_label_name now t = Some name → is_Some (find_label cur name)) →
  attached cur' t = attached cur t.
Proof.
  intros Hstable Hfound. unfold attached.
  destruct (age_label_name now t) as [name|]; [|done].
  destruct (Hfound name eq_refl) as [l Hl]. by rewrite Hl, (Hstable name l Hl).
Qed.

(** A turn of the loop that attaches the label [l], looked up or
    created, to the thread [t]. *)
Lemma annotated_attach done cur cur1 t l :
  annotated done cur → t ∈ store_threads s1 → thread_id t ∉ done →
  age_label_name now t = Some (label_name l) →
  find_label cur1 (label_name l) = Some l →
  (cur1 = cur
   ∨ (find_label cur (label_name l) = None
      ∧ label_id l = Remote.new_label_id cur ∧ cur1 = with_label l cur)) →
  annotated (thread_id t :: done)
    (relabel (λ u, String.eqb (thread_id u) (thread_id t))
             (modify_labels [Some (label_id l)] []) cur1).
Proof.
  intros Han Ht Hnew Hname Hfind Hcur1.
  pose proof Han as [Hwf (extra & Hl & Hextra) Hfound Hthreads].
  assert (Hwf' : well_formed cur1).
  { destruct Hcur1 as [->|(Hnone & Hid & ->)]; [done|].
    apply well_formed_with_label; [done| |by apply find_label_None].
    rewrite Hid. apply new_label_id_fresh. }
  assert (Hstable : ∀ name l0, find_label cur name = Some l0 →
                               find_label cur1 name = Some l0).
  { destruct Hcur1 as [->|(_ & _ & ->)]; [done|].
    intros name l0 Hl0. by rewrite find_label_with_label, Hl0. }
  assert (Hthreads1 : store_threads cur1 = store_threads cur).
  { by destruct Hcur1 as [->|(_ & _ & ->)]. }
  assert (Hin : label_id l ∈ Remote.label_ids cur1).
  { apply find_label_Some in Hfind as [Hfind _]. by apply list_elem_of_fmap_2. }
  split.
  - apply well_formed_relabel; [done|]. intros u Hu _.
    pose proof (wf_thread_labels cur1 Hwf' u Hu) as Hsub.
    unfold modify_labels, Remote.known_ids. simpl.
    assert (Hin' : label_id l ∈ (list_to_set (Remote.label_ids cur1) : gset string))
      by by apply elem_of_list_to_set.
    set_solver.
  - rewrite relabel_labels. destruct Hcur1 as [->|(_ & _ & ->)].
    + exists extra. split; [done|]. intros l' Hl'.
      destruct (Hextra l' Hl') as (t' & Ht' & Hd & Hn). exists t'.
      split; [done|]. split; [by right|done].
    + exists (extra ++ [l])%list. unfold with_label. cbn [store_labels].
      split; [by rewrite Hl, app_assoc|].
      intros l' [Hl'|Hl'%list_elem_of_singleton]%elem_of_app.
      * destruct (Hextra l' Hl') as (t' & Ht' & Hd & Hn). exists t'.
        split; [done|]. split; [by right|done].
      * subst l'. exists t. split; [done|]. split; [left|done].
  - intros t' name Ht' Hd Hn. unfold find_label. rewrite relabel_labels.
    fold (find_label cur1 name). apply elem_of_cons in Hd as [Heq|Hd].
    + rewrite (thread_unique t t' Ht Ht' Heq) in Hn.
      assert (name = label_name l) by congruence. subst name. by exists l.
    + destruct (Hfound t' name Ht' Hd Hn) as [l0 Hl0]. exists l0. by apply Hstable.
  - unfold relabel. cbn [store_threads]. rewrite Hthreads1.
    apply Forall2_fmap_r. eapply Forall2_impl_elem; [exact Hthreads|].
    intros t' tc Ht' _ (Hid & Hm & HL). unfold compose.
    assert (Hatt : ∀ st', store_labels st' = store_labels cur1 →
              attached st' t = {[label_id l]}).
    { intros st' Hst'. unfold attached. rewrite Hname. unfold find_label.
      rewrite Hst'. fold (find_label cur1 (label_name l)). by rewrite Hfind. }
    rewrite Hid. destruct (String.eqb_spec (thread_id t') (thread_id t)) as [Heq|Hne].
    + cbn [thread_id thread_messages thread_labels set_labels].
      split; [done|]. split; [done|].
      rewrite (bool_decide_eq_true_2 (thread_id t' ∈ thread_id t :: done))
        by (rewrite Heq; left).
      rewrite (thread_unique t t' Ht Ht' Heq) in HL |- *.
      rewrite (bool_decide_eq_false_2 (thread_id t ∈ done)) in HL by done.
      rewrite Hatt by done. rewrite HL.
      unfold modify_labels, Remote.known_ids. simpl. set_solver.
    + split; [done|]. split; [done|]. rewrite HL. f_equal.
      destruct (decide (thread_id t' ∈ done)) as [Hd|Hd].
      * rewrite !bool_decide_eq_true_2; [|by right|done].
        symmetry. apply attached_stable.
        -- intros name l0 Hl0. apply Hstable in Hl0. exact Hl0.
        -- intros name Hn. by eapply Hfound.
      * rewrite !bool_decide_eq_false_2; [done| |done].
        by intros [?|?]%elem_of_cons.
Qed.

(** One turn of the loop. *)
Lemma runs_annotate_thread done cur t :
  annotated done cur → t ∈ store_threads s1 → in_inbox t = true →
  thread_id t ∉ done →
  ∃ cur' c, runs (annotate_thread now (mk_ref (thread_id t))) cur tt cur' c
            ∧ annotated (thread_id t :: done) cur'.
Proof.
  intros Han Ht Hin Hnew.
  destruct (current_thread done cur t Han Ht) as (tc & Htc & Hid & Hm).
  pose proof (an_wf _ _ Han) as Hwf.
  assert (Hget : runs (execute (Remote.threads_get (thread_id t))) cur
                   (mk_thread_resource
                      (Remote.some_unless_empty (thread_messages t))) cur 1).
  { apply runs_execute. rewrite <- Hid, <- Hm.
    apply threads_get_found; [apply Hwf|done]. }
  unfold annotate_thread. cbn [ref_id].
  destruct (annotatable_thread t Ht Hin) as [Hage|(age & Hage & Hbound)].
  - exists cur, 1%nat. split.
    + eapply (runs_bind _ _ _ _ _ 1 _ _ 0); [exact Hget|].
      cbn [resp_messages]. rewrite default_some_unless_empty, Hage. apply runs_ret.
    + apply annotated_skip; [done..|]. unfold age_label_name. by rewrite Hin, Hage.
  - destruct (Z.leb_spec MIN_AGE_TO_APPEND_LABEL age) as [Hold|Hyoung].
    + pose proof (age_string_cases age Hbound) as Hstr.
      set (s := if age <? 31 then _ else _) in Hstr.
      destruct (runs_get_or_create_label cur (LABEL_PREFIX +:+ s))
        as (l & cur1 & c1 & Hrun & Hfind & Hcase).
      assert (Hl : label_name l = LABEL_PREFIX +:+ s).
      { by apply find_label_Some in Hfind as [_ ?]. }
      assert (Hcur1 : cur1 = cur
                      ∨ (find_label cur (label_name l) = None
                         ∧ label_id l = Remote.new_label_id cur
                         ∧ cur1 = with_label l cur)).
      { rewrite Hl. destruct (find_label cur (LABEL_PREFIX +:+ s)) as [l0|].
        - left. by destruct Hcase.
        - right. destruct Hcase as [Hl0 ->]. split; [done|]. split; [|done].
          by rewrite Hl0. }
      assert (Hname : age_label_name now t = Some (label_name l)).
      { unfold age_label_name. rewrite Hin, Hage.
        destruct (Z.leb_spec MIN_AGE_TO_APPEND_LABEL age); [|lia].
        by rewrite Hstr, Hl. }
      eexists _, (1 + (c1 + 1))%nat. split.
      * eapply runs_bind; [exact Hget|].
        cbn [resp_messages]. rewrite default_some_unless_empty, Hage.
        destruct (Z.leb_spec MIN_AGE_TO_APPEND_LABEL age); [|lia].
        unfold add_age_label. rewrite Hstr.
        eapply runs_bind; [exact Hrun|].
        apply runs_modify; [|done|].
        -- cbn [forallb]. rewrite andb_true_r. by eapply find_label_valid.
        -- replace (thread_ids cur1) with (thread_ids cur)
             by by destruct Hcur1 as [->|(_ & _ & ->)].
           rewrite (annotated_thread_ids done cur Han).
           by apply list_elem_of_fmap_2.
      * apply (annotated_attach done cur cur1 t l); try done. by rewrite Hl.
    + exists cur, 1%nat. split.
      * eapply (runs_bind _ _ _ _ _ 1 _ _ 0); [exact Hget|].
        cbn [resp_messages]. rewrite default_some_unless_empty, Hage.
        destruct (Z.leb_spec MIN_AGE_TO_APPEND_LABEL age); [lia|]. apply runs_ret.
      * apply annotated_skip; [done..|]. unfold age_label_name.
        rewrite Hin, Hage. by destruct (Z.leb_spec MIN_AGE_TO_APPEND_LABEL age); [lia|].
Qed.

(** The loop over the threads of the inbox. *)
Lemma runs_annotate_threads :
  ∃ st' c,
    runs (let* threads := fetch_all_threads "in:inbox" in
          for_each threads (annotate_thread now)) s1 tt st' c
    ∧ annotated (thread_id <$> List.filter in_inbox (store_threads s1)) st'.
Proof.
  destruct (runs_fetch_all_threads s1 "in:inbox"
              [Query.mk_term false Query.InInbox] eq_refl) as [cf Hcf].
  assert (Hsearch : Remote.search s1 [Query.mk_term false Query.InInbox]
                    = List.filter in_inbox (store_threads s1)).
  { unfold Remote.search. apply filter_ext. intros t.
    unfold Remote.matches, Remote.term_matches. simpl. by rewrite andb_true_r. }
  rewrite Hsearch in Hcf. set (T := List.filter in_inbox (store_threads s1)) in *.
  assert (HT : ∀ t, t ∈ T → t ∈ store_threads s1 ∧ in_inbox t = true).
  { intros t [? ?]%elem_of_List_filter. done. }
  assert (Hnd : NoDup (thread_id <$> T)).
  { eapply NoDup_fmap_2_strong;
      [|apply NoDup_List_filter, (NoDup_fmap_1 thread_id), (wf_thread_ids s1 Hwf1)].
    intros x y [_ Hx]%elem_of_List_filter [_ Hy]%elem_of_List_filter Hxy.
    by apply (thread_unique y x). }
  assert (Hloop : ∀ rest done cur,
    annotated done cur → (∀ t, t ∈ rest → t ∈ T) →
    NoDup (thread_id <$> rest) →
    (∀ t, t ∈ rest → thread_id t ∉ done) →
    ∃ st' c, runs (for_each (refs_of rest) (annotate_thread now)) cur tt st' c
             ∧ annotated (reverse (thread_id <$> rest) ++ done) st').
  { induction rest as [|t rest IH]; intros done cur Han Hsub Hndr Hfresh.
    - exists cur, O. split; [apply runs_ret|done].
    - rewrite fmap_cons in Hndr. apply NoDup_cons in Hndr as [Htr Hndr].
      destruct (HT t (Hsub t ltac:(left))) as [Ht Hin].
      destruct (runs_annotate_thread done cur t Han Ht Hin (Hfresh t ltac:(left)))
        as (cur1 & c1 & Hrun1 & Han1).
      destruct (IH (thread_id t :: done) cur1 Han1) as (st' & c2 & Hrun2 & Han2).
      { intros u Hu. apply Hsub. by right. }
      { done. }
      { intros u Hu [Heq|Hd]%elem_of_cons.
        - apply Htr. rewrite <- Heq. by apply list_elem_of_fmap_2.
        - apply (Hfresh u); [by right|done]. }
      exists st', (c1 + c2)%nat. split.
      + unfold refs_of. rewrite fmap_cons. simpl. eapply runs_bind; eauto.
      + rewrite fmap_cons, reverse_cons, <- app_assoc. exact Han2. }
  destruct (Hloop T [] s1 annotated_start ltac:(done) Hnd)
    as (st' & c & Hrun & Han).
  { intros t _. apply not_elem_of_nil. }
  exists st', (cf + c)%nat. split; [eapply runs_bind; eauto|].
  rewrite app_nil_r in Han.
  destruct Han as [Hwf Hlab Hfound Hthr]. split; [done| | |].
  - destruct Hlab as (extra & Hl & Hextra). exists extra. split; [done|].
    intros l Hl'. destruct (Hextra l Hl') as (t & Ht & Hd & Hn).
    exists t. split; [done|]. split; [|done]. rewrite elem_of_reverse in Hd.
    exact Hd.
  - intros t name Ht Hd Hn. eapply Hfound; [done| |done].
    rewrite elem_of_reverse. exact Hd.
  - eapply Forall2_impl; [exact Hthr|]. intros t tc (Hid & Hm & HL).
    split; [done|]. split; [done|]. rewrite HL. f_equal.
    destruct (decide (thread_id t ∈ thread_id <$> T)) as [Hd|Hd].
    + rewrite !bool_decide_eq_true_2; [done|exact Hd|by rewrite elem_of_reverse].
    + rewrite !bool_decide_eq_false_2; [done|exact Hd|by rewrite elem_of_reverse].
Qed.

End Annotate.

(** ** The annotation pass as a whole *)

Section Pass.

Variable starts_with_digit : string → bool.
Variable now : datetime.

Local Abbreviation swept_ids st :=
  (label_id <$> List.filter (is_age_label starts_with_digit) (store_labels st)).

(** The labels of a thread when the sweep is over. *)
Definition swept_thread (st : Store) (t : Thread) : Thread :=
  set_labels t (thread_labels t ∖ list_to_set (swept_ids st)).

Lemma sweep_threads st :
  store_threads (sweep starts_with_digit st) = swept_thread st <$> store_threads st.
Proof. reflexivity. Qed.

Lemma inbox_not_swept st : well_formed st → "INBOX" ∉ swept_ids st.
Proof.
  intros Hwf (l & Hid & [Hage Hl]%elem_of_List_filter)%list_elem_of_fmap.
  assert (l = mk_label "INBOX" "INBOX").
  { eapply NoDup_fmap_eq; [apply (wf_label_ids st Hwf)|done|apply Hwf|done]. }
  subst l. by rewrite inbox_is_no_age_label in Hage.
Qed.

Lemma swept_thread_in_inbox st t :
  well_formed st → in_inbox (swept_thread st t) = in_inbox t.
Proof.
  intros Hwf. unfold in_inbox, swept_thread. cbn [thread_labels set_labels].
  pose proof (inbox_not_swept st Hwf) as Hnot.
  apply bool_decide_ext. rewrite elem_of_difference, elem_of_list_to_set. tauto.
Qed.

Lemma swept_thread_age_label_name st t :
  well_formed st → age_label_name now (swept_thread st t) = age_label_name now t.
Proof.
  intros Hwf. unfold age_label_name. by rewrite swept_thread_in_inbox.
Qed.

Lemma annotatable_sweep st :
  well_formed st → annotatable now st = true →
  annotatable now (sweep starts_with_digit st) = true.
Proof.
  intros Hwf. unfold annotatable. rewrite sweep_threads.
  apply forallb_fmap_threads. intros t Ht Hok.
  by rewrite swept_thread_in_inbox.
Qed.

(** The pass runs, and ends in a state in which every thread of the
    inbox has been handled. *)
Lemma runs_append_too_old_labels st :
  well_formed st → annotatable now st = true →
  ∃ st' c,
    runs (append_too_old_labels starts_with_digit now) st tt st' c
    ∧ annotated now (sweep starts_with_digit st)
        (thread_id <$> List.filter in_inbox
                         (store_threads (sweep starts_with_digit st))) st'.
Proof.
  intros Hwf Hann. rewrite append_too_old_labels_eq.
  destruct (runs_remove_all_age_labels starts_with_digit st Hwf) as [c1 Hc1].
  destruct (runs_annotate_threads now (sweep starts_with_digit st)
              (well_formed_sweep _ st Hwf) (annotatable_sweep st Hwf Hann))
    as (st' & c2 & Hc2 & Han).
  exists st', (c1 + c2)%nat. split; [|done]. eapply runs_bind; eauto.
Qed.

(** The age labels of a store held by a thread. *)
Definition age_labels_of (st : Store) (t : Thread) : list Label :=
  List.filter (λ l, is_age_label starts_with_digit l
                    && bool_decide (label_id l ∈ thread_labels t))
              (store_labels st).

(** What the end of the pass means for the thread at a position of the
    store. *)
Lemma annotated_thread_at st st' pos t :
  well_formed st →
  annotated now (sweep starts_with_digit st)
    (thread_id <$> List.filter in_inbox
                     (store_threads (sweep starts_with_digit st))) st' →
  store_threads st !! pos = Some t →
  ∃ t', store_threads st' !! pos = Some t'
        ∧ thread_id t' = thread_id t
        ∧ thread_labels t'
          = (thread_labels t ∖ list_to_set (swept_ids st))
            ∪ (if in_inbox t then attached now st' t else ∅).
Proof.
  intros Hwf Han Hpos.
  assert (Hpos1 : store_threads (sweep starts_with_digit st) !! pos
                  = Some (swept_thread st t)).
  { by rewrite sweep_threads, list_lookup_fmap, Hpos. }
  destruct (Forall2_lookup_l _ _ _ pos _ (an_threads _ _ _ _ Han) Hpos1)
    as (t' & Hpos' & Hid & _ & HL).
  exists t'. split; [done|]. split; [done|]. rewrite HL.
  cbn [thread_labels swept_thread set_labels]. f_equal.
  assert (Hatt : attached now st' (swept_thread st t) = attached now st' t).
  { unfold attached. by rewrite swept_thread_age_label_name. }
  rewrite Hatt. destruct (in_inbox t) eqn:Hin.
  - rewrite bool_decide_eq_true_2; [done|].
    apply (list_elem_of_fmap_2 thread_id _ (swept_thread st t)).
    apply elem_of_List_filter. split; [by rewrite swept_thread_in_inbox|].
    eapply list_elem_of_lookup_2; eauto.
  - rewrite bool_decide_eq_false_2; [done|].
    intros (u & Hu & [Hin' Hmem]%elem_of_List_filter)%list_elem_of_fmap.
    assert (u = swept_thread st t).
    { eapply NoDup_fmap_eq;
        [apply (wf_thread_ids _ (well_formed_sweep starts_with_digit st Hwf))
        |done|eapply list_elem_of_lookup_2; eauto|done]. }
    subst u. rewrite swept_thread_in_inbox in Hin' by done. congruence.
Qed.

(** When the pass is over, an age label of the store is none the sweep
    left: it was looked up or created for a thread of the inbox. *)
Lemma annotated_age_label st st' l :
  well_formed st →
  annotated now (sweep starts_with_digit st)
    (thread_id <$> List.filter in_inbox
                     (store_threads (sweep starts_with_digit st))) st' →
  l ∈ store_labels st' → is_age_label starts_with_digit l = true →
  (l ∉ store_labels (sweep starts_with_digit st))
  ∧ ∃ pos t, store_threads st !! pos = Some t ∧ in_inbox t = true
             ∧ age_label_name now t = Some (label_name l).
Proof.
  intros Hwf Han Hl Hage.
  assert (Hnot : l ∉ store_labels (sweep starts_with_digit st)).
  { intros [_ Hno]%sweep_labels; [congruence|done]. }
  split; [done|].
  destruct (an_labels _ _ _ _ Han) as (extra & Hlabels & Hextra).
  rewrite Hlabels in Hl. apply elem_of_app in Hl as [Hl|Hl]; [done|].
  destruct (Hextra l Hl) as (t1 & Ht1 & Hdone & Hname).
  rewrite sweep_threads in Ht1. apply list_elem_of_fmap in Ht1 as (t & -> & Ht).
  apply list_elem_of_lookup in Ht as [pos Hpos]. exists pos, t.
  split; [done|]. rewrite swept_thread_age_label_name in Hname by done.
  split; [|done]. unfold age_label_name in Hname. by destruct (in_inbox t).
Qed.

(** An age label a thread holds when the pass is over is the one attached
    to it. *)
Lemma annotated_held st st' pos t t' l :
  well_formed st →
  annotated now (sweep starts_with_digit st)
    (thread_id <$> List.filter in_inbox
                     (store_threads (sweep starts_with_digit st))) st' →
  store_threads st !! pos = Some t → store_threads st' !! pos = Some t' →
  l ∈ store_labels st' → is_age_label starts_with_digit l = true →
  label_id l ∈ thread_labels t' →
  in_inbox t = true ∧ label_id l ∈ attached now st' t.
Proof.
  intros Hwf Han Hpos Hpos' Hl Hage Hheld.
  destruct (annotated_thread_at st st' pos t Hwf Han Hpos)
    as (t'' & Hpos'' & _ & HL).
  assert (t'' = t') by congruence. subst t''.
  destruct (annotated_age_label st st' l Hwf Han Hl Hage) as [Hnot _].
  rewrite HL in Hheld. apply elem_of_union in Hheld as [Hold|Hatt].
  - exfalso. apply elem_of_difference in Hold as [Hold Hkeep].
    assert (Ht : t ∈ store_threads st) by (eapply list_elem_of_lookup_2; eauto).
    pose proof (wf_thread_labels st Hwf t Ht _ Hold) as Hid.
    rewrite elem_of_list_to_set in Hid.
    apply list_elem_of_fmap in Hid as (l0 & Hid & Hl0).
    assert (Hl0' : l0 ∈ store_labels (sweep starts_with_digit st)).
    { apply sweep_labels; [done|]. split; [done|].
      apply not_true_is_false. intros Hage0. apply Hkeep.
      apply elem_of_list_to_set. rewrite Hid.
      by apply list_elem_of_fmap_2, elem_of_List_filter. }
    destruct (an_labels _ _ _ _ Han) as (extra & Hlabels & _).
    assert (Hl0'' : l0 ∈ store_labels st').
    { rewrite Hlabels. apply elem_of_app. by left. }
    assert (l = l0).
    { eapply NoDup_fmap_eq;
        [apply (wf_label_ids st' (an_wf _ _ _ _ Han))|done..]. }
    by subst l0.
  - by destruct (in_inbox t).
Qed.

End Pass.

(** ** What the pass attaches *)

(** The state of the loop of [append_too_old_labels] when every thread of
    the inbox has been handled. *)
Definition annotation_done (d : string → bool) (now : datetime) (st st' : Store) : Prop :=
  annotated now (sweep d st)
    (thread_id <$> List.filter in_inbox (store_threads (sweep d st))) st'.

Lemma runs_annotation d now st :
  well_formed st → annotatable now st = true →
  ∃ st' c, runs (append_too_old_labels d now) st tt st' c ∧ annotation_done d now st st'.
Proof. apply runs_append_too_old_labels. Qed.

Lemma age_label_name_inbox now t name :
  age_label_name now t = Some name → in_inbox t = true.
Proof. unfold age_label_name. by destruct (in_inbox t). Qed.

Lemma age_label_name_age now t age :
  in_inbox t = true → thread_age now (thread_messages t) = Some (Some age) →
  age_label_name now t
  = if MIN_AGE_TO_APPEND_LABEL <=? age
    then (λ s, LABEL_PREFIX +:+ s) <$> age_string age else None.
Proof. intros Hin Hage. unfold age_label_name. by rewrite Hin, Hage. Qed.

(** The label of a thread that gets one exists when the pass is over, and
    is the one attached. *)
Lemma annotation_attached d now st st' pos t name :
  well_formed st → annotation_done d now st st' →
  store_threads st !! pos = Some t → age_label_name now t = Some name →
  ∃ l, l ∈ store_labels st' ∧ label_name l = name
       ∧ attached now st' t = {[label_id l]}.
Proof.
  intros Hwf Han Hpos Hname.
  pose proof (age_label_name_inbox now t name Hname) as Hin.
  assert (Ht1 : swept_thread d st t ∈ store_threads (sweep d st)).
  { rewrite sweep_threads. apply list_elem_of_fmap_2.
    eapply list_elem_of_lookup_2; eauto. }
  destruct (an_found _ _ _ _ Han (swept_thread d st t) name Ht1) as [l Hl].
  - apply (list_elem_of_fmap_2 thread_id _ (swept_thread d st t)).
    apply elem_of_List_filter. split; [|done].
    by rewrite swept_thread_in_inbox.
  - by rewrite swept_thread_age_label_name.
  - exists l. destruct (find_label_Some _ _ _ Hl) as [Hmem Hn].
    split; [done|]. split; [done|]. unfold attached. by rewrite Hname, Hl.
Qed.

Lemma attached_none now st' t :
  age_label_name now t = None → attached now st' t = ∅.
Proof. unfold attached. by intros ->. Qed.

Lemma annotation_thread_back d now st st' pos t' :
  annotation_done d now st st' → store_threads st' !! pos = Some t' →
  ∃ t, store_threads st !! pos = Some t.
Proof.
  intros Han Hpos'.
  pose proof (Forall2_length _ _ _ (an_threads _ _ _ _ Han)) as Hlen.
  rewrite sweep_threads, length_fmap in Hlen.
  apply lookup_lt_is_Some. rewrite Hlen. apply lookup_lt_is_Some. eauto.
Qed.

(** ** Rounding in the age labels *)

(** C10, as the specification states it, fails for ages far beyond any
    the calendar has: at 365 * 2^51 + 183 days the quotient by 365 is not
    half-way between two integers, but the binary64 quotient that [round]
    receives is 2^51 + 0.5, so that [round] gives the even 2^51 in the
    label where rounding half up gives 2^51 + 1, the integer nearest to
    the quotient. *)
Lemma add_age_label_rounding_tie :
  let age := 365 * 2 ^ 51 + 183 in
  2 * age ≠ (2 * 2 ^ 51 + 1) * 365
  ∧ round_div age 365 = Some (2 ^ 51)
  ∧ Float.int_true_divide age 365 ≫= Float.round_ties_up = Some (2 ^ 51 + 1)
  ∧ Rounding.nearest age 365 = 2 ^ 51 + 1
  ∧ age_string age = Some (str (2 ^ 51) +:+ "y").
Proof. vm_compute. repeat split; done. Qed.

(** C10, amended: for the divisors 31 and 365 no integer age has a
    quotient half-way between two integers, and for every age below 2^52
    days [round(age / n)] is the one integer nearest to the quotient,
    which is also what rounding half up gives. *)
Theorem age_rounding_without_ties (age n : Z) :
  n = 31 ∨ n = 365 → 0 < age < 2 ^ 52 →
  (∀ a k : Z, 2 * a ≠ (2 * k + 1) * n)
  ∧ ∃ k, round_div age n = Some k
         ∧ Float.int_true_divide age n ≫= Float.round_ties_up = Some k
         ∧ (2 * k - 1) * n < 2 * age < (2 * k + 1) * n
         ∧ ∀ k', (2 * k' - 1) * n ≤ 2 * age ≤ (2 * k' + 1) * n → k' = k.
Proof.
  intros Hn Hage.
  assert (Hodd : Z.odd n = true ∧ 0 < n) by (destruct Hn as [->| ->]; done).
  destruct Hodd as [Hodd Hpos]. split.
  - intros a k Heq.
    assert (Hpar : Z.odd (2 * a) = Z.odd ((2 * k + 1) * n)) by (by rewrite Heq).
    rewrite Z.odd_mul, Z.odd_mul, Hodd in Hpar.
    replace (2 * k + 1) with (1 + 2 * k) in Hpar by lia.
    rewrite Z.odd_add_mul_2 in Hpar. discriminate Hpar.
  - destruct (round_div_nearest age n Hn Hage) as [Hr Hu].
    pose proof (Rounding.nearest_strict age n Hodd Hpos) as Hk.
    exists (Rounding.nearest age n). repeat split; [done|done|lia|lia|].
    intros k' Hk'. set (k := Rounding.nearest age n) in *.
    destruct (Z.lt_trichotomy k' k) as [Hlt|[Heq|Hgt]]; [|done|].
    + assert ((2 * k' + 1) * n ≤ (2 * k - 1) * n); [|lia].
      apply Z.mul_le_mono_nonneg_r; lia.
    + assert ((2 * k + 1) * n ≤ (2 * k' - 1) * n); [|lia].
      apply Z.mul_le_mono_nonneg_r; lia.
Qed.

Lemma age_rounding_without_ties_witness :
  (∀ a k : Z, 2 * a ≠ (2 * k + 1) * 31)
  ∧ ∃ k, round_div 364 31 = Some k
         ∧ Float.int_true_divide 364 31 ≫= Float.round_ties_up = Some k
         ∧ (2 * k - 1) * 31 < 2 * 364 < (2 * k + 1) * 31
         ∧ ∀ k', (2 * k' - 1) * 31 ≤ 2 * 364 ≤ (2 * k' + 1) * 31 → k' = k.
Proof. apply (age_rounding_without_ties 364 31); [by left|lia]. Defined.

(** ** The annotation pass on every store *)

(** The identifiers of the labels the sweep deletes. *)
Definition swept (d : string → bool) (st : Store) : gset string :=
  list_to_set (label_id <$> List.filter (is_age_label d) (store_labels st)).

(** What the pass has done to the thread [t], now [t']: taken the swept
    labels off it and, if [suffix] is given, attached the label of the
    name [LABEL_PREFIX + suffix], which the store has. *)
Definition relabelled (d : string → bool) (st st' : Store) (t t' : Thread)
    (suffix : option string) : Prop :=
  match suffix with
  | None => thread_labels t' = thread_labels t ∖ swept d st
  | Some s =>
      ∃ l, l ∈ store_labels st' ∧ label_name l = LABEL_PREFIX +:+ s
           ∧ thread_labels t' = (thread_labels t ∖ swept d st) ∪ {[label_id l]}
  end.

(** A store with age labels of an earlier run, one of them on a thread
    that has left the inbox. *)
Definition annotated_store : Store :=
  mk_store
    (example_labels ++ [mk_label (LABEL_PREFIX +:+ "3y") "Label_9";
                        mk_label (LABEL_PREFIX +:+ "25d") "Label_10"])
    [mk_thread "t0" {["INBOX"; "Label_0"]} [mk_message 1700000000123];
     mk_thread "t1" {["INBOX"; "Label_3"; "Label_10"]} [mk_message 1707000000000];
     mk_thread "t2" {["INBOX"; "STARRED"; "Label_7"; "Label_9"]}
       [mk_message 1500000000000; mk_message 1600000000000];
     mk_thread "t3" {["INBOX"]} [];
     mk_thread "t4" {["Label_8"; "Label_10"]} [mk_message 1600000000000]].

Definition annotation_time : datetime := mk_datetime 2023 12 5 9 30 0 0.

(** C5: the pass runs to its end on every well-formed store whose inbox
    threads have computable ages, and for an inbox thread of age [age] it
    attaches nothing below [MIN_AGE_TO_APPEND_LABEL] and otherwise the
    label [LABEL_PREFIX + age_string age]: nothing at 20 days, "21d" at
    21, "30d" at 30, "1m" at 31, "12m" at 364 and "1y" at 365, the months
    being [round(age / 31)] and the years [round(age / 365)]. *)
Theorem age_classification_boundaries (d : string → bool) (now : datetime)
    (st : Store) (pos : nat) (t : Thread) (age : Z) :
  store_ok st = true → annotatable now st = true →
  store_threads st !! pos = Some t → in_inbox t = true →
  thread_age now (thread_messages t) = Some (Some age) →
  ∃ st' c t',
    runs (append_too_old_labels d now) st tt st' c
    ∧ store_threads st' !! pos = Some t' ∧ thread_id t' = thread_id t
    ∧ relabelled d st st' t t'
        (if age <? MIN_AGE_TO_APPEND_LABEL then None else age_string age)
    ∧ (age = 20 → relabelled d st st' t t' None)
    ∧ (age = 21 → relabelled d st st' t t' (Some "21d"))
    ∧ (age = 30 → relabelled d st st' t t' (Some "30d"))
    ∧ (age = 31 → relabelled d st st' t t' (Some "1m"))
    ∧ (age = 364 → relabelled d st st' t t' (Some "12m"))
    ∧ (age = 365 → relabelled d st st' t t' (Some "1y"))
    ∧ (31 ≤ age < 365 →
       ∃ k, round_div age 31 = Some k
            ∧ relabelled d st st' t t' (Some (str k +:+ "m")))
    ∧ (365 ≤ age →
       ∃ k, round_div age 365 = Some k
            ∧ relabelled d st st' t t' (Some (str k +:+ "y"))).
Proof.
  intros Hok Hann Hpos Hin Hage. apply store_ok_well_formed in Hok as Hwf.
  destruct (runs_annotation d now st Hwf Hann) as (st' & c & Hrun & Han).
  destruct (annotated_thread_at d now st st' pos t Hwf Han Hpos)
    as (t' & Hpos' & Hid & HL).
  rewrite Hin in HL.
  assert (Hlt : age < 2 ^ 52).
  { destruct (annotatable_thread now st Hann t) as [Hnone|(a & Ha & Hlt)];
      [eapply list_elem_of_lookup_2; eauto|done|congruence|].
    congruence. }
  pose proof (age_string_cases age Hlt) as Hstring.
  pose proof (age_label_name_age now t age Hin Hage) as Hname.
  assert (Hmain : relabelled d st st' t t'
            (if age <? MIN_AGE_TO_APPEND_LABEL then None else age_string age)).
  { unfold MIN_AGE_TO_APPEND_LABEL in *.
    destruct (Z.ltb_spec age 21) as [Hsmall|Hbig].
    - rewrite (proj2 (Z.leb_gt 21 age)) in Hname by done.
      rewrite (attached_none _ _ _ Hname) in HL. cbn [relabelled].
      rewrite HL. unfold swept. set_solver.
    - rewrite (proj2 (Z.leb_le 21 age)) in Hname by done.
      rewrite Hstring in Hname |- *. cbn [fmap option_fmap option_map] in Hname.
      destruct (annotation_attached d now st st' pos t _ Hwf Han Hpos Hname)
        as (l & Hl & Hln & Hatt).
      exists l. split; [done|]. split; [done|]. by rewrite HL, Hatt. }
  exists st', c, t'. split; [done|]. split; [done|]. split; [done|].
  split; [done|].
  repeat split.
  - intros ->. exact Hmain.
  - intros ->. rewrite Hstring in Hmain. exact Hmain.
  - intros ->. rewrite Hstring in Hmain. exact Hmain.
  - intros ->. rewrite Hstring in Hmain. exact Hmain.
  - intros ->. rewrite Hstring in Hmain. exact Hmain.
  - intros ->. rewrite Hstring in Hmain. exact Hmain.
  - intros [Hlo Hhi]. destruct (round_div_nearest age 31) as [Hr _]; [by left|lia|].
    eexists. split; [exact Hr|]. rewrite Hstring in Hmain.
    unfold MIN_AGE_TO_APPEND_LABEL in Hmain.
    rewrite (proj2 (Z.ltb_ge age 21)) in Hmain by lia.
    rewrite (proj2 (Z.ltb_ge age 31)) in Hmain by lia.
    by rewrite (proj2 (Z.ltb_lt age 365)) in Hmain by lia.
  - intros Hlo. destruct (round_div_nearest age 365) as [Hr _]; [by right|lia|].
    eexists. split; [exact Hr|]. rewrite Hstring in Hmain.
    unfold MIN_AGE_TO_APPEND_LABEL in Hmain.
    rewrite (proj2 (Z.ltb_ge age 21)) in Hmain by lia.
    rewrite (proj2 (Z.ltb_ge age 31)) in Hmain by lia.
    by rewrite (proj2 (Z.ltb_ge age 365)) in Hmain by lia.
Qed.

Lemma age_classification_boundaries_witness :
  ∃ st' c t',
    runs (append_too_old_labels starts_with_ascii_digit annotation_time)
         annotated_store tt st' c
    ∧ store_threads st' !! 0%nat = Some t' ∧ thread_id t' = "t0"
    ∧ relabelled starts_with_ascii_digit annotated_store st'
        (mk_thread "t0" {["INBOX"; "Label_0"]} [mk_message 1700000000123]) t'
        (Some "21d").
Proof.
  destruct (age_classification_boundaries starts_with_ascii_digit annotation_time
              annotated_store 0
              (mk_thread "t0" {["INBOX"; "Label_0"]} [mk_message 1700000000123]) 21)
    as (st' & c & t' & Hrun & Hpos & Hid & _ & _ & H21 & _);
    [vm_compute; reflexivity..|].
  exists st', c, t'. split; [exact Hrun|]. split; [exact Hpos|].
  split; [exact Hid|]. apply H21. reflexivity.
Defined.

(** C6: the pass runs to its end on every well-formed store whose inbox
    threads have computable ages.  Its sweep leaves no label of the age
    pattern; when the pass is over every thread holds at most one such
    label, and every such label of the store is the label computed for an
    inbox thread of [MIN_AGE_TO_APPEND_LABEL] days or more, which holds
    it. *)
Theorem append_too_old_labels_sweep_complete (d : string → bool) (now : datetime)
    (st : Store) :
  store_ok st = true → annotatable now st = true →
  ∃ st' c,
    runs (append_too_old_labels d now) st tt st' c
    ∧ (∃ c0, runs (remove_all_age_labels d) st tt (sweep d st) c0
             ∧ ∀ l t, l ∈ store_labels st → is_age_label d l = true →
                      t ∈ store_threads (sweep d st) →
                      (l ∉ store_labels (sweep d st)) ∧ label_id l ∉ thread_labels t)
    ∧ (∀ t', t' ∈ store_threads st' → (length (age_labels_of d st' t') ≤ 1)%nat)
    ∧ (∀ l, l ∈ store_labels st' → is_age_label d l = true →
         ∃ pos t t' age,
           store_threads st !! pos = Some t ∧ in_inbox t = true
           ∧ thread_age now (thread_messages t) = Some (Some age)
           ∧ MIN_AGE_TO_APPEND_LABEL ≤ age
           ∧ (λ s, LABEL_PREFIX +:+ s) <$> age_string age = Some (label_name l)
           ∧ store_threads st' !! pos = Some t' ∧ thread_id t' = thread_id t
           ∧ label_id l ∈ thread_labels t').
Proof.
  intros Hok Hann. apply store_ok_well_formed in Hok as Hwf.
  destruct (runs_annotation d now st Hwf Hann) as (st' & c & Hrun & Han).
  pose proof (an_wf _ _ _ _ Han) as Hwf'.
  exists st', c. split; [done|]. split; [|split].
  - destruct (runs_remove_all_age_labels d st Hwf) as [c0 Hc0].
    exists c0. split; [done|]. intros l t Hl Hage Ht. split.
    + intros [_ Hno]%sweep_labels; [congruence|done].
    + rewrite sweep_threads in Ht. apply list_elem_of_fmap in Ht as (t0 & -> & Ht0).
      cbn [swept_thread thread_labels set_labels].
      intros [_ Hnot]%elem_of_difference. apply Hnot, elem_of_list_to_set.
      by apply list_elem_of_fmap_2, elem_of_List_filter.
  - intros t' [pos Hpos']%list_elem_of_lookup.
    destruct (annotation_thread_back d now st st' pos t' Han Hpos') as [t Hpos].
    apply filter_length_le_1.
    { eapply NoDup_fmap_1, (wf_label_ids st' Hwf'). }
    intros x y Hx Hy [Hax Hhx]%andb_true_iff [Hay Hhy]%andb_true_iff.
    apply bool_decide_eq_true in Hhx, Hhy.
    destruct (annotated_held d now st st' pos t t' x Hwf Han Hpos Hpos' Hx Hax Hhx)
      as [_ Hx'].
    destruct (annotated_held d now st st' pos t t' y Hwf Han Hpos Hpos' Hy Hay Hhy)
      as [_ Hy'].
    eapply NoDup_fmap_eq; [apply (wf_label_ids st' Hwf')|done|done|].
    unfold attached in Hx', Hy'.
    destruct (age_label_name now t) as [name|]; [|by apply elem_of_empty in Hx'].
    destruct (find_label st' name) as [l|]; [|by apply elem_of_empty in Hx'].
    apply elem_of_singleton in Hx', Hy'. congruence.
  - intros l Hl Hage.
    destruct (annotated_age_label d now st st' l Hwf Han Hl Hage)
      as (_ & pos & t & Hpos & Hin & Hname).
    destruct (annotated_thread_at d now st st' pos t Hwf Han Hpos)
      as (t' & Hpos' & Hid & HL).
    destruct (annotation_attached d now st st' pos t _ Hwf Han Hpos Hname)
      as (l' & Hl' & Hln & Hatt).
    assert (l' = l).
    { eapply NoDup_fmap_eq; [apply (wf_label_names st' Hwf')|done..]. }
    subst l'. rewrite Hin, Hatt in HL.
    pose proof Hname as Hname'. unfold age_label_name in Hname'.
    rewrite Hin in Hname'.
    destruct (thread_age now (thread_messages t)) as [[age|]|] eqn:Hage'; try done.
    destruct (Z.leb_spec MIN_AGE_TO_APPEND_LABEL age); [|done].
    exists pos, t, t', age. repeat split; try done.
    rewrite HL. set_solver.
Qed.

Lemma append_too_old_labels_sweep_complete_witness :
  ∃ st' c,
    runs (append_too_old_labels starts_with_ascii_digit annotation_time)
         annotated_store tt st' c
    ∧ (∀ t', t' ∈ store_threads st' →
         (length (age_labels_of starts_with_ascii_digit st' t') ≤ 1)%nat).
Proof.
  destruct (append_too_old_labels_sweep_complete starts_with_ascii_digit
              annotation_time annotated_store)
    as (st' & c & Hrun & _ & Hone & _); [vm_compute; reflexivity..|].
  exists st', c. split; [exact Hrun|exact Hone].
Defined.

(** ** What the annotation pass leaves alone *)

(** The names under the hourglass, where the age labels live. *)
Definition in_age_namespace (name : string) : bool :=
  match strip_prefix (String (ascii_of_nat 226)
                        (String (ascii_of_nat 140) (String (ascii_of_nat 155) ""))) name with
  | Some _ => true
  | None => false
  end.

Lemma age_label_re_match_namespace d name :
  age_label_re_match d name = true → in_age_namespace name = true.
Proof.
  unfold age_label_re_match, in_age_namespace.
  by destruct (strip_prefix _ name).
Qed.

Lemma label_prefix_namespace s : in_age_namespace (LABEL_PREFIX +:+ s) = true.
Proof. reflexivity. Qed.

Lemma age_label_name_namespace now t name :
  age_label_name now t = Some name → in_age_namespace name = true.
Proof.
  unfold age_label_name. destruct (in_inbox t); [|done].
  destruct (thread_age now (thread_messages t)) as [[age|]|]; try done.
  destruct (MIN_AGE_TO_APPEND_LABEL <=? age); [|done].
  destruct (age_string age) as [s|]; [|done].
  intros [= <-]. apply label_prefix_namespace.
Qed.

(** The labels [setup] creates. *)
Definition countdown_names : list string :=
  (bucket_name <$> range (INBOX_DAYS + 1)) ++ ["auto-archived"].

Lemma countdown_names_namespace name :
  name ∈ countdown_names → in_age_namespace name = false.
Proof.
  unfold countdown_names. rewrite elem_of_app, list_elem_of_fmap.
  intros [(i & -> & Hi)|Hname].
  - unfold bucket_name, in_age_namespace. cbn. done.
  - apply list_elem_of_singleton in Hname as ->. done.
Qed.

(** Outside the age namespace the labels of [st'] and what the threads
    hold of them are those of [st]. *)
Definition same_outside_namespace (st st' : Store) : Prop :=
  (∀ name, in_age_namespace name = false → find_label st' name = find_label st name)
  ∧ Forall2 (λ t t', thread_id t' = thread_id t
                     ∧ ∀ name, in_age_namespace name = false →
                         Remote.holds st' (thread_labels t') name
                         = Remote.holds st (thread_labels t) name)
            (store_threads st) (store_threads st').

Lemma holds_not_found st L name :
  find_label st name = None → Remote.holds st L name = false.
Proof.
  intros Hnone. apply not_true_is_false. unfold Remote.holds.
  intros (l & Hl & [Hname _]%andb_true_iff)%existsb_exists.
  apply find_label_None in Hnone. apply Hnone. apply String.eqb_eq in Hname.
  rewrite <- Hname. by apply list_elem_of_fmap_2, list_elem_of_In.
Qed.

Lemma find_label_unique st name l :
  well_formed st → l ∈ store_labels st → label_name l = name →
  find_label st name = Some l.
Proof.
  intros Hwf Hl Hname. unfold find_label. apply find_unique; [done| |].
  - by apply String.eqb_eq.
  - intros y Hy Hyn%String.eqb_eq.
    eapply NoDup_fmap_eq; [apply (wf_label_names st Hwf)|done|done|congruence].
Qed.

Lemma same_outside_namespace_intro st st' :
  well_formed st → well_formed st' →
  (∀ l, l ∈ store_labels st → in_age_namespace (label_name l) = false →
        l ∈ store_labels st') →
  (∀ l, l ∈ store_labels st' → in_age_namespace (label_name l) = false →
        l ∈ store_labels st) →
  Forall2 (λ t t', thread_id t' = thread_id t
                   ∧ ∀ l, l ∈ store_labels st →
                          in_age_namespace (label_name l) = false →
                          (label_id l ∈ thread_labels t' ↔ label_id l ∈ thread_labels t))
          (store_threads st) (store_threads st') →
  same_outside_namespace st st'.
Proof.
  intros Hwf Hwf' Hkeep Hnew Hthreads.
  assert (Hfind : ∀ name, in_age_namespace name = false →
                          find_label st' name = find_label st name).
  { intros name Hns. destruct (find_label st name) as [l|] eqn:Hf.
    - apply find_label_Some in Hf as [Hl Hname].
      apply find_label_unique; [done| |done]. apply Hkeep; [done|]. by rewrite Hname.
    - apply find_label_None. intros (l & -> & Hl)%list_elem_of_fmap.
      apply find_label_None in Hf. apply Hf, list_elem_of_fmap_2. by apply Hnew. }
  split; [done|].
  eapply Forall2_impl; [exact Hthreads|]. intros t t' [Hid Hmem].
  split; [done|]. intros name Hns.
  destruct (find_label st name) as [l|] eqn:Hf.
  - rewrite (holds_find st _ name l (wf_label_names st Hwf) Hf).
    rewrite (holds_find st' _ name l (wf_label_names st' Hwf'))
      by (by rewrite Hfind).
    apply find_label_Some in Hf as [Hl Hname]. apply bool_decide_ext, Hmem; [done|].
    by rewrite Hname.
  - rewrite (holds_not_found st) by done. apply holds_not_found. by rewrite Hfind.
Qed.

Lemma not_swept_outside_namespace d st l :
  well_formed st → l ∈ store_labels st → in_age_namespace (label_name l) = false →
  label_id l ∉ swept d st.
Proof.
  intros Hwf Hl Hns. unfold swept. rewrite elem_of_list_to_set.
  intros (l0 & Hid & [Hage Hl0]%elem_of_List_filter)%list_elem_of_fmap.
  assert (l = l0).
  { eapply NoDup_fmap_eq; [apply (wf_label_ids st Hwf)|done..]. }
  subst l0. apply age_label_re_match_namespace in Hage. congruence.
Qed.

Lemma sweep_same_outside_namespace d st :
  well_formed st → same_outside_namespace st (sweep d st).
Proof.
  intros Hwf. apply same_outside_namespace_intro; [done|by apply well_formed_sweep|..].
  - intros l Hl Hns. apply sweep_labels; [done|]. split; [done|].
    apply not_true_is_false. intros Hage%age_label_re_match_namespace. congruence.
  - intros l Hl _. by apply sweep_labels in Hl as [Hl _].
  - rewrite sweep_threads. apply Forall2_fmap_r, Forall_Forall2_diag, Forall_forall.
    intros t Ht. split; [done|]. intros l Hl Hns.
    cbn [swept_thread thread_labels set_labels].
    pose proof (not_swept_outside_namespace d st l Hwf Hl Hns) as Hnot.
    unfold swept in Hnot. rewrite elem_of_difference. tauto.
Qed.

Lemma annotation_same_outside_namespace d now st st' :
  well_formed st → annotation_done d now st st' → same_outside_namespace st st'.
Proof.
  intros Hwf Han. pose proof (an_wf _ _ _ _ Han) as Hwf'.
  destruct (an_labels _ _ _ _ Han) as (extra & Hlabels & Hextra).
  assert (Hkeep : ∀ l, l ∈ store_labels st → in_age_namespace (label_name l) = false →
                       l ∈ store_labels st').
  { intros l Hl Hns. rewrite Hlabels. apply elem_of_app. left.
    apply sweep_labels; [done|]. split; [done|].
    apply not_true_is_false. intros Hage%age_label_re_match_namespace. congruence. }
  apply same_outside_namespace_intro; [done|done|done| |].
  - intros l Hl Hns. rewrite Hlabels in Hl. apply elem_of_app in Hl as [Hl|Hl].
    + by apply sweep_labels in Hl as [Hl _].
    + destruct (Hextra l Hl) as (t & _ & _ & Hname).
      apply age_label_name_namespace in Hname. congruence.
  - apply Forall2_same_length_lookup_2.
    { pose proof (Forall2_length _ _ _ (an_threads _ _ _ _ Han)) as Hlen.
      by rewrite sweep_threads, length_fmap in Hlen. }
    intros pos t t' Hpos Hpos'.
    destruct (annotated_thread_at d now st st' pos t Hwf Han Hpos)
      as (t'' & Hpos'' & Hid & HL).
    assert (t'' = t') by congruence. subst t''.
    split; [done|]. intros l Hl Hns.
    pose proof (not_swept_outside_namespace d st l Hwf Hl Hns) as Hnot.
    unfold swept in Hnot. rewrite HL, elem_of_union, elem_of_difference.
    split; [|tauto]. intros [[Hmem _]|Hatt]; [done|]. exfalso.
    destruct (in_inbox t); [|by apply elem_of_empty in Hatt].
    destruct (age_label_name now t) as [name|] eqn:Hname;
      [|by rewrite attached_none in Hatt by done; apply elem_of_empty in Hatt].
    destruct (annotation_attached d now st st' pos t name Hwf Han Hpos Hname)
      as (l' & Hl' & Hln & Heq).
    rewrite Heq in Hatt. apply elem_of_singleton in Hatt.
    assert (l = l').
    { eapply NoDup_fmap_eq; [apply (wf_label_ids st' Hwf')|by apply Hkeep|done..]. }
    subst l'. apply age_label_name_namespace in Hname. congruence.
Qed.

(** The view of the countdown machine is a matter of labels outside the
    age namespace. *)
Lemma same_countdown_view st st' :
  well_formed st → well_formed st' → same_outside_namespace st st' →
  countdown_view st' = countdown_view st.
Proof.
  intros Hwf Hwf' [_ Hthreads]. unfold countdown_view.
  induction Hthreads as [|t t' ts ts' [Hid Hholds] _ IH]; [done|].
  rewrite !fmap_cons, IH. f_equal.
  assert (Hinbox : in_inbox t' = in_inbox t).
  { unfold in_inbox.
    pose proof (holds_find st (thread_labels t) "INBOX" _ (wf_label_names st Hwf)
                  (find_label_inbox st Hwf)) as H1.
    pose proof (holds_find st' (thread_labels t') "INBOX" _ (wf_label_names st' Hwf')
                  (find_label_inbox st' Hwf')) as H2.
    cbn [label_id] in H1, H2. rewrite <- H1, <- H2. by apply Hholds. }
  assert (Harch : is_archived st' t' = is_archived st t).
  { unfold is_archived. by apply Hholds. }
  assert (Hbuckets : buckets_of st' t' = buckets_of st t).
  { unfold buckets_of. apply filter_ext_in_iff.
    intros i Hi. unfold in_bucket. apply Hholds, countdown_names_namespace.
    unfold countdown_names. apply elem_of_app. left.
    by apply list_elem_of_fmap_2, list_elem_of_In. }
  by rewrite Hid, Hinbox, Harch, Hbuckets.
Qed.

(** The countdown labels of [st] are in [st'], no other label of [st'] has
    one of their names, and the countdown machine sees every thread of
    [st'] as it saw it in [st]. *)
Definition keeps_countdown (st st' : Store) : Prop :=
  (∀ l, l ∈ store_labels st → label_name l ∈ countdown_names → l ∈ store_labels st')
  ∧ (∀ name, name ∈ countdown_names → find_label st' name = find_label st name)
  ∧ countdown_view st' = countdown_view st.

Lemma same_outside_namespace_keeps_countdown st st' :
  well_formed st → well_formed st' → same_outside_namespace st st' →
  keeps_countdown st st'.
Proof.
  intros Hwf Hwf' Hsame.
  assert (Hfind : ∀ name, name ∈ countdown_names →
                          find_label st' name = find_label st name).
  { intros name Hname. by apply Hsame, countdown_names_namespace. }
  split; [|split; [done|by apply same_countdown_view]].
  intros l Hl Hname.
  pose proof (find_label_unique st _ l Hwf Hl eq_refl) as Hf.
  rewrite <- (Hfind _ Hname) in Hf. by apply find_label_Some in Hf as [? _].
Qed.

(** C8: no name [setup] gives a label matches the pattern of the sweep,
    whatever the table of digits; [remove_all_age_labels] runs to its end
    on every well-formed store and keeps the countdown labels and what
    the threads hold of them, and so does the whole of
    [append_too_old_labels]. *)
Theorem age_sweep_keeps_countdown_state (d : string → bool) (now : datetime)
    (st : Store) :
  store_ok st = true →
  (∀ name, name ∈ countdown_names → age_label_re_match d name = false)
  ∧ (∃ c, runs (remove_all_age_labels d) st tt (sweep d st) c
          ∧ keeps_countdown st (sweep d st))
  ∧ (annotatable now st = true →
     ∃ st' c, runs (append_too_old_labels d now) st tt st' c
              ∧ keeps_countdown st st').
Proof.
  intros Hok. apply store_ok_well_formed in Hok as Hwf. split; [|split].
  - intros name Hname%countdown_names_namespace.
    apply not_true_is_false. intros Hm%age_label_re_match_namespace. congruence.
  - destruct (runs_remove_all_age_labels d st Hwf) as [c Hc].
    exists c. split; [done|].
    apply same_outside_namespace_keeps_countdown;
      [done|by apply well_formed_sweep|by apply sweep_same_outside_namespace].
  - intros Hann.
    destruct (runs_annotation d now st Hwf Hann) as (st' & c & Hrun & Han).
    exists st', c. split; [done|].
    apply same_outside_namespace_keeps_countdown;
      [done|apply (an_wf _ _ _ _ Han)|].
    by eapply annotation_same_outside_namespace.
Qed.

Lemma age_sweep_keeps_countdown_state_witness :
  (∀ name, name ∈ countdown_names →
           age_label_re_match starts_with_ascii_digit name = false)
  ∧ (∃ c, runs (remove_all_age_labels starts_with_ascii_digit) annotated_store tt
               (sweep starts_with_ascii_digit annotated_store) c
          ∧ keeps_countdown annotated_store
              (sweep starts_with_ascii_digit annotated_store))
  ∧ (annotatable annotation_time annotated_store = true →
     ∃ st' c, runs (append_too_old_labels starts_with_ascii_digit annotation_time)
                   annotated_store tt st' c
              ∧ keeps_countdown annotated_store st').
Proof.
  apply (age_sweep_keeps_countdown_state starts_with_ascii_digit annotation_time
           annotated_store).
  vm_compute. reflexivity.
Defined.

(** ** Setting the labels up *)

(** The store once the label [name] has been looked up and created if it
    was missing. *)
Definition ensure_label (st : Store) (name : string) : Store :=
  match find_label st name with
  | Some _ => st
  | None => with_label (mk_label name (Remote.new_label_id st)) st
  end.

Definition ensure_labels (names : list string) (st : Store) : Store :=
  foldl ensure_label st names.

(** No label has the empty identifier, which [not get_label_id(name)]
    would take for a missing label. *)
Definition ids_not_empty (st : Store) : bool :=
  forallb (λ l, negb (String.eqb (label_id l) "")) (store_labels st).

Lemma ids_not_empty_found st name l :
  ids_not_empty st = true → find_label st name = Some l →
  falsy (label_id <$> find_label st name) = false.
Proof.
  intros Hids Hf. rewrite Hf. cbn [fmap option_fmap option_map falsy].
  unfold ids_not_empty in Hids. rewrite forallb_forall in Hids.
  apply find_label_Some in Hf as [Hl _].
  apply list_elem_of_In, Hids in Hl. by apply negb_true_iff in Hl.
Qed.

Lemma runs_create_label_found st name l :
  ids_not_empty st = true → find_label st name = Some l →
  runs (create_label_if_missing name) st tt st 1.
Proof.
  intros Hids Hf. unfold create_label_if_missing.
  eapply (runs_bind _ _ _ _ _ 1 _ _ 0); [apply runs_get_label_id|].
  rewrite (ids_not_empty_found st name l Hids Hf). apply runs_ret.
Qed.

Lemma runs_create_label_if_missing st name :
  ids_not_empty st = true →
  ∃ c, runs (create_label_if_missing name) st tt (ensure_label st name) c.
Proof.
  intros Hids. unfold ensure_label.
  destruct (find_label st name) as [l|] eqn:Hf.
  - exists 1%nat. by eapply runs_create_label_found.
  - exists (1 + (1 + 0))%nat. unfold create_label_if_missing.
    eapply runs_bind; [apply runs_get_label_id|]. rewrite Hf.
    cbn [fmap option_fmap option_map falsy].
    eapply runs_bind; [|apply runs_ret].
    apply runs_execute. unfold Remote.labels_create.
    fold (find_label st name) in *.
    assert (Hex : existsb (λ l, String.eqb (label_name l) name) (store_labels st)
                  = false).
    { apply not_true_is_false. intros (l & Hl & Hn)%existsb_exists.
      unfold find_label in Hf. eapply find_none in Hf; [|exact Hl]. congruence. }
    by rewrite Hex.
Qed.

Lemma ids_not_empty_ensure_label st name :
  ids_not_empty st = true → ids_not_empty (ensure_label st name) = true.
Proof.
  intros Hids. unfold ensure_label. destruct (find_label st name); [done|].
  unfold ids_not_empty, with_label in *. cbn [store_labels].
  rewrite forallb_app, Hids. reflexivity.
Qed.

Lemma well_formed_ensure_label st name :
  well_formed st → well_formed (ensure_label st name).
Proof.
  intros Hwf. unfold ensure_label. destruct (find_label st name) eqn:Hf; [done|].
  apply well_formed_with_label; [done|apply new_label_id_fresh|].
  by apply find_label_None.
Qed.

Lemma find_label_ensure_label st name other :
  is_Some (find_label st other) ∨ other = name →
  is_Some (find_label (ensure_label st name) other).
Proof.
  unfold ensure_label. intros [Hfound| ->].
  - destruct (find_label st name); [done|].
    rewrite find_label_with_label. by destruct Hfound as [l ->].
  - destruct (find_label st name) as [l|] eqn:Hf; [by rewrite Hf|].
    rewrite find_label_with_label, Hf. cbn [label_name].
    by rewrite String.eqb_refl.
Qed.

Lemma find_label_ensure_labels names st other :
  is_Some (find_label st other) ∨ other ∈ names →
  is_Some (find_label (ensure_labels names st) other).
Proof.
  unfold ensure_labels. revert st.
  induction names as [|n names IH]; intros st Hcase; simpl.
  - destruct Hcase as [H|H]; [done|by apply elem_of_nil in H].
  - apply IH. destruct Hcase as [H|[->|H]%elem_of_cons].
    + left. apply find_label_ensure_label. by left.
    + left. apply find_label_ensure_label. by right.
    + by right.
Qed.

(** What [setup] adds: labels of the given names that the store did not
    have, at the end of the list, and nothing else. *)
Definition extended_by (names : list string) (st st' : Store) : Prop :=
  store_threads st' = store_threads st
  ∧ ∃ extra, store_labels st' = (store_labels st ++ extra)%list
             ∧ ∀ l, l ∈ extra → label_name l ∈ names ∧ find_label st (label_name l) = None.

Lemma extended_by_ensure_labels names st :
  extended_by names st (ensure_labels names st).
Proof.
  unfold ensure_labels. revert st.
  induction names as [|n names IH]; intros st; simpl.
  - split; [done|]. exists []. split; [by rewrite app_nil_r|].
    by intros l ?%elem_of_nil.
  - destruct (IH (ensure_label st n)) as (Hthreads & extra & Hlabels & Hextra).
    unfold ensure_label in *. destruct (find_label st n) as [l0|] eqn:Hf.
    + split; [done|]. exists extra. split; [done|]. intros l Hl.
      destruct (Hextra l Hl) as [Hin Hnone]. split; [by right|done].
    + split; [done|]. exists (mk_label n (Remote.new_label_id st) :: extra).
      split.
      { rewrite Hlabels. unfold with_label. cbn [store_labels].
        by rewrite <- app_assoc. }
      intros l [->|Hl]%elem_of_cons.
      * split; [left|done].
      * destruct (Hextra l Hl) as [Hin Hnone]. split; [by right|].
        rewrite find_label_with_label in Hnone.
        by destruct (find_label st (label_name l)).
Qed.

Lemma for_each_fmap {A B} (g : A → B) (xs : list A) (body : B → M unit) :
  for_each (g <$> xs) body = for_each xs (λ x, body (g x)).
Proof.
  induction xs as [|x xs IH]; [done|]. rewrite fmap_cons. cbn [for_each].
  by rewrite IH.
Qed.

Lemma runs_ensure_labels names st :
  ids_not_empty st = true →
  ∃ c, runs (for_each names create_label_if_missing) st tt (ensure_labels names st) c.
Proof.
  unfold ensure_labels. revert st.
  induction names as [|n names IH]; intros st Hids; simpl.
  - exists 0%nat. apply runs_ret.
  - destruct (runs_create_label_if_missing st n Hids) as [c1 Hc1].
    destruct (IH (ensure_label st n) (ids_not_empty_ensure_label st n Hids))
      as [c2 Hc2].
    exists (c1 + c2)%nat. eapply runs_bind; eauto.
Qed.

Lemma setup_eq w :
  setup w = for_each countdown_names create_label_if_missing w.
Proof.
  unfold setup, countdown_names. rewrite for_each_app, for_each_fmap.
  unfold bind, bucket_name.
  destruct (for_each (range (INBOX_DAYS + 1))
              (λ i, create_label_if_missing ("x" +:+ str i)) w) as [[[]|] w1]; [|done].
  cbn [for_each]. unfold bind.
  by destruct (create_label_if_missing "auto-archived" w1) as [[[]|] w2].
Qed.

Lemma well_formed_ensure_labels names st :
  well_formed st → well_formed (ensure_labels names st).
Proof.
  unfold ensure_labels. revert st.
  induction names as [|n names IH]; intros st Hwf; simpl; [done|].
  by apply IH, well_formed_ensure_label.
Qed.

Lemma countdown_ready_found st :
  countdown_ready st = true
  ↔ ∀ name, name ∈ countdown_names → is_Some (find_label st name).
Proof.
  unfold countdown_ready, countdown_names.
  rewrite andb_true_iff, forallb_forall, bool_decide_eq_true. split.
  - intros [Hb Ha] name [(i & -> & Hi)%list_elem_of_fmap|Hn]%elem_of_app.
    + apply list_elem_of_In, Hb in Hi. by apply bool_decide_eq_true in Hi.
    + by apply list_elem_of_singleton in Hn as ->.
  - intros Hall. split.
    + intros i Hi. apply bool_decide_eq_true, Hall, elem_of_app. left.
      by apply list_elem_of_fmap_2, list_elem_of_In.
    + apply Hall, elem_of_app. right. by apply list_elem_of_singleton.
Qed.

(** [setup] on any store: it runs to its end, after which the bucket
    labels and the archived label exist; it creates labels of these names
    only, and only the missing ones, and touches no thread. *)
Theorem setup_creates_countdown_labels (st : Store) :
  store_ok st = true → ids_not_empty st = true →
  ∃ st' c,
    runs setup st tt st' c
    ∧ countdown_ready st' = true
    ∧ store_ok st' = true
    ∧ extended_by countdown_names st st'.
Proof.
  intros Hok Hids. apply store_ok_well_formed in Hok.
  destruct (runs_ensure_labels countdown_names st Hids) as [c Hc].
  exists (ensure_labels countdown_names st), c. split; [|split; [|split]].
  - intros n. rewrite setup_eq. apply Hc.
  - apply countdown_ready_found. intros name Hname.
    apply find_label_ensure_labels. by right.
  - by apply store_ok_well_formed, well_formed_ensure_labels.
  - apply extended_by_ensure_labels.
Qed.

Lemma setup_creates_countdown_labels_witness :
  ∃ st' c,
    runs setup (mk_store [mk_label "INBOX" "INBOX"; mk_label "x3" "Label_1"]
                         [mk_thread "t0" {["INBOX"; "Label_1"]} []]) tt st' c
    ∧ countdown_ready st' = true
    ∧ store_ok st' = true
    ∧ extended_by countdown_names
        (mk_store [mk_label "INBOX" "INBOX"; mk_label "x3" "Label_1"]
                  [mk_thread "t0" {["INBOX"; "Label_1"]} []]) st'.
Proof.
  apply (setup_creates_countdown_labels
           (mk_store [mk_label "INBOX" "INBOX"; mk_label "x3" "Label_1"]
                     [mk_thread "t0" {["INBOX"; "Label_1"]} []]));
    vm_compute; reflexivity.
Defined.

(** [setup] on a store that has the labels changes nothing, and makes the
    nine lookups only. *)
Theorem setup_idempotent (st : Store) :
  countdown_ready st = true → ids_not_empty st = true →
  runs setup st tt st 9.
Proof.
  intros Hready Hids.
  assert (Hall : ∀ names, (∀ name, name ∈ names → is_Some (find_label st name)) →
                          runs (for_each names create_label_if_missing) st tt st
                               (length names)).
  { induction names as [|n names IH]; intros Hfound; [apply runs_ret|].
    simpl. destruct (Hfound n) as [l Hl]; [left|].
    eapply (runs_bind _ _ _ _ _ 1); [by eapply runs_create_label_found|].
    apply IH. intros name Hname. apply Hfound. by right. }
  intros n. rewrite setup_eq.
  apply (Hall countdown_names). by apply countdown_ready_found.
Qed.

Lemma setup_idempotent_witness : runs setup example_store tt example_store 9.
Proof. apply (setup_idempotent example_store); vm_compute; reflexivity. Defined.

(** ** Looking labels up *)

(** [get_or_create_label] gives the identifier of a label of the name:
    the one the store has, or a new one at the end of the labels; called
    again it finds that label, gives the same identifier and leaves the
    store as it is. *)
Theorem get_or_create_label_stable (st : Store) (name : string) :
  ∃ l st' c,
    runs (get_or_create_label name) st (label_id l) st' c
    ∧ l ∈ store_labels st' ∧ label_name l = name
    ∧ store_threads st' = store_threads st
    ∧ (store_labels st' = store_labels st
       ∨ (name ∉ label_name <$> store_labels st)
         ∧ store_labels st' = (store_labels st ++ [l])%list)
    ∧ runs (get_or_create_label name) st' (label_id l) st' 1.
Proof.
  destruct (runs_get_or_create_label st name) as (l & st' & c & Hrun & Hfind & Hcase).
  exists l, st', c. destruct (find_label_Some _ _ _ Hfind) as [Hl Hname].
  split; [done|]. split; [done|]. split; [done|]. split; [|split].
  - destruct (find_label st name); [by destruct Hcase as [_ ->]|].
    by destruct Hcase as [_ ->].
  - destruct (find_label st name) eqn:Hf.
    + left. by destruct Hcase as [_ ->].
    + right. split; [by apply find_label_None|]. by destruct Hcase as [_ ->].
  - destruct (runs_get_or_create_label st' name) as (l2 & st2 & c2 & Hrun2 & _ & Hcase2).
    rewrite Hfind in Hcase2. destruct Hcase2 as [-> ->].
    unfold get_or_create_label.
    eapply (runs_bind _ _ _ _ _ 1 _ _ 0); [apply runs_get_all_labels|].
    fold (find_label st' name). rewrite Hfind. apply runs_ret.
Qed.

(** ** What the lookups leave alone *)

(** [m] never changes the store, whether it returns or raises and however
    many calls the transport serves. *)
Definition read_only {A} (m : M A) : Prop := ∀ w, remote (m w).2 = remote w.

Lemma read_only_ret {A} (a : A) : read_only (ret a).
Proof. by intros w. Qed.

Lemma read_only_bind {A B} (m : M A) (k : A → M B) :
  read_only m → (∀ a, read_only (k a)) → read_only (bind m k).
Proof.
  intros Hm Hk w. unfold bind. specialize (Hm w).
  destruct (m w) as [[a|] w1]; [|done]. by rewrite Hk.
Qed.

Lemma read_only_execute {A} (request : Store → option (A * Store)) :
  (∀ st a st', request st = Some (a, st') → st' = st) → read_only (execute request).
Proof.
  intros Hreq w. unfold execute. destruct (calls_left w); [done|].
  destruct (request (remote w)) as [[a st']|] eqn:Hr; [|done].
  by apply Hreq in Hr.
Qed.

Lemma read_only_labels_list : read_only (execute Remote.labels_list).
Proof. apply read_only_execute. by intros st a st' [= _ <-]. Qed.

Lemma read_only_threads_list q n tok : read_only (execute (Remote.threads_list q n tok)).
Proof.
  apply read_only_execute. intros st a st'. unfold Remote.threads_list.
  destruct (Query.parse q); [|done].
  destruct (match tok with Some s => Remote.offset_of_token s | None => Some 0%nat end);
    [|done].
  destruct (n <=? 0); [done|]. by intros [= _ <-].
Qed.

Lemma read_only_fetch_loop fuel q n :
  ∀ tok acc, read_only (fetch_loop fuel q n tok acc).
Proof.
  induction fuel as [|fuel IH]; intros tok acc; [by intros w|].
  cbn [fetch_loop]. apply read_only_bind; [apply read_only_threads_list|].
  intros response. destruct (falsy (nextPageToken response)); [apply read_only_ret|].
  apply IH.
Qed.

Lemma read_only_get_label_id name : read_only (get_label_id name).
Proof.
  apply read_only_bind; [apply read_only_labels_list|]. intros a. apply read_only_ret.
Qed.

Lemma read_only_collect {A B} (xs : list A) (f : A → M B) :
  (∀ x, read_only (f x)) → read_only (collect xs f).
Proof.
  intros Hf. induction xs as [|x xs IH]; [apply read_only_ret|].
  cbn [collect]. apply read_only_bind; [apply Hf|]. intros y.
  apply read_only_bind; [apply IH|]. intros ys. apply read_only_ret.
Qed.

(** The lookups of the script only read: [fetch_all_threads],
    [get_label_id], [day_labels] and [get_all_labels] leave the store as
    it is on every run, also on one the transport cuts short. *)
Theorem lookups_read_only :
  (∀ q, read_only (fetch_all_threads q))
  ∧ (∀ name, read_only (get_label_id name))
  ∧ read_only day_labels
  ∧ read_only get_all_labels.
Proof.
  split; [|split; [|split]].
  - intros q w. unfold fetch_all_threads, fetch_all_threads_by.
    apply read_only_fetch_loop.
  - apply read_only_get_label_id.
  - apply read_only_collect. intros i.
    apply read_only_bind; [apply read_only_get_label_id|]. intros a.
    apply read_only_ret.
  - apply read_only_bind; [apply read_only_labels_list|]. intros a.
    apply read_only_ret.
Qed.

(** ** The passes where there is nothing to do *)

Lemma search_nil st tms :
  (∀ t, t ∈ store_threads st → Remote.matches st tms t = false) →
  Remote.search st tms = [].
Proof. intros H. unfold Remote.search. by apply List_filter_nil. Qed.

(** With no thread in a bucket, [step_expiration] returns and leaves the
    store as it is, whether [setup] has been run or not: every bucket has
    an empty list of threads, and nothing is modified. *)
Theorem step_expiration_nothing_to_do (st : Store) :
  (∀ t, t ∈ store_threads st → buckets_of st t = []) →
  ∃ c, runs step_expiration st tt st c.
Proof.
  intros Hnone.
  assert (Hbody : ∀ order, Forall (λ i, 0 ≤ i ≤ INBOX_DAYS) order →
            ∃ c, runs (for_each order (step_bucket (day_labels_of st)
                                         (label_id <$> find_label st "auto-archived")))
                      st tt st c).
  { induction order as [|i order IH]; intros Horder.
    - exists 0%nat. apply runs_ret.
    - apply Forall_cons in Horder as [Hi Horder].
      destruct (IH Horder) as [c2 Hc2].
      destruct (runs_fetch_all_threads st _ _ (parse_bucket_query i Hi)) as [c1 Hc1].
      rewrite search_nil in Hc1.
      + exists (0 + (c1 + 0) + c2)%nat. cbn [for_each].
        eapply runs_bind; [|exact Hc2]. unfold step_bucket.
        rewrite getitem_day_labels by done.
        eapply runs_bind; [apply runs_ret|].
        eapply runs_bind; [exact Hc1|]. apply runs_ret.
      + intros t Ht. unfold Remote.matches, Remote.term_matches. cbn.
        rewrite andb_true_r.
        specialize (Hnone t Ht). unfold buckets_of in Hnone.
        assert (Hin : i ∈ List.filter (in_bucket st t) (range (INBOX_DAYS + 1)) →
                      False) by (rewrite Hnone; apply not_elem_of_nil).
        apply not_true_is_false. intros Hh. apply Hin.
        apply elem_of_List_filter. split; [done|]. apply in_range_iff. lia. }
  destruct (Hbody (range (INBOX_DAYS + 1))) as [c Hc].
  { apply Forall_forall. intros i Hi%in_range_iff. lia. }
  exists (8 + (1 + c))%nat. unfold step_expiration. rewrite step_expiration_in_eq.
  eapply runs_bind; [apply runs_day_labels|].
  eapply runs_bind; [apply runs_get_label_id|]. exact Hc.
Qed.

Lemma step_expiration_nothing_to_do_witness :
  ∃ c, runs step_expiration
         (mk_store [mk_label "INBOX" "INBOX"; mk_label "x1" "Label_1"]
                   [mk_thread "t0" {["INBOX"]} []]) tt
         (mk_store [mk_label "INBOX" "INBOX"; mk_label "x1" "Label_1"]
                   [mk_thread "t0" {["INBOX"]} []]) c.
Proof.
  apply (step_expiration_nothing_to_do
           (mk_store [mk_label "INBOX" "INBOX"; mk_label "x1" "Label_1"]
                     [mk_thread "t0" {["INBOX"]} []])).
  intros t Ht. apply list_elem_of_singleton in Ht. subst t. vm_compute. reflexivity.
Defined.

(** [add_inbox_expiration] before [setup]: without the label of bucket N
    the pass changes nothing; it returns when no thread is to be
    admitted and raises at the first one otherwise. *)
Theorem add_inbox_expiration_needs_setup (st : Store) :
  find_label st (bucket_name INBOX_DAYS) = None →
  ∃ c, ends add_inbox_expiration st
         (match Remote.search st admission_terms with
          | [] => Returned tt
          | _ => Raised
          end) st c.
Proof.
  intros Hl. rewrite add_inbox_expiration_eq.
  destruct (runs_fetch_all_threads st admission_query _ parse_admission_query)
    as [c Hc].
  destruct (Remote.search st admission_terms) as [|t ts] eqn:Hs.
  - exists (1 + (c + 0))%nat.
    eapply ends_bind; [apply runs_get_label_id|].
    eapply ends_bind; [exact Hc|]. apply runs_ends, runs_ret.
  - exists (1 + (c + 1))%nat.
    eapply ends_bind; [apply runs_get_label_id|].
    eapply ends_bind; [exact Hc|]. rewrite Hl. intros n. reflexivity.
Qed.

Lemma add_inbox_expiration_needs_setup_witness :
  ∃ c, ends add_inbox_expiration
         (mk_store [mk_label "INBOX" "INBOX"] [mk_thread "t0" {["INBOX"]} []])
         (match Remote.search
                  (mk_store [mk_label "INBOX" "INBOX"] [mk_thread "t0" {["INBOX"]} []])
                  admission_terms with
          | [] => Returned tt
          | _ => Raised
          end)
         (mk_store [mk_label "INBOX" "INBOX"] [mk_thread "t0" {["INBOX"]} []]) c.
Proof.
  apply (add_inbox_expiration_needs_setup
           (mk_store [mk_label "INBOX" "INBOX"] [mk_thread "t0" {["INBOX"]} []])).
  reflexivity.
Defined.

(** ** What admission does to a thread *)

(** The threads [add_inbox_expiration] labels: in the inbox, not starred,
    in no bucket. *)
Definition admissible (st : Store) (t : Thread) : bool :=
  in_inbox t && negb (bool_decide ("STARRED" ∈ thread_labels t))
  && forallb (λ i, negb (in_bucket st t i)) (range (INBOX_DAYS + 1)).

Lemma matches_admission_terms st t :
  Remote.matches st admission_terms t = admissible st t.
Proof.
  unfold Remote.matches, admission_terms, admissible.
  cbn [forallb Remote.term_matches Query.negated Query.term_atom Remote.atom_matches xorb].
  rewrite andb_assoc. f_equal.
Qed.

(** [add_inbox_expiration] after [setup]: it runs to its end, keeps the
    labels of the store, gives the label of bucket N to the threads that
    are in the inbox, not starred and in no bucket, and leaves every
    other thread as it is; afterwards no thread is left to admit. *)
Theorem add_inbox_expiration_effect (st : Store) (l : Label) :
  store_ok st = true → find_label st (bucket_name INBOX_DAYS) = Some l →
  ∃ st' c,
    runs add_inbox_expiration st tt st' c
    ∧ store_labels st' = store_labels st
    ∧ Forall2 (λ t t', t' = if admissible st t
                            then set_labels t (thread_labels t ∪ {[label_id l]})
                            else t)
              (store_threads st) (store_threads st')
    ∧ ∀ t', t' ∈ store_threads st' → admissible st' t' = false.
Proof.
  intros Hok Hl. apply store_ok_well_formed in Hok as Hwf.
  destruct (runs_add_inbox_expiration st l Hwf Hl) as [c Hc].
  exists (admission st), c. split; [done|]. split; [done|].
  assert (Hmod : ∀ L, modify_labels [bucket_id st INBOX_DAYS] [] L
                      = L ∪ {[label_id l]}).
  { intros L. unfold modify_labels, bucket_id, Remote.known_ids. rewrite Hl.
    cbn. set_solver. }
  split.
  - unfold admission, relabel. cbn [store_threads].
    apply Forall2_fmap_r, Forall_Forall2_diag, Forall_forall. intros t Ht.
    unfold compose. cbv beta.
    rewrite (matches_admission_terms st t), Hmod. by destruct (admissible st t).
  - intros t' Ht'. rewrite <- matches_admission_terms.
    unfold admission, relabel in Ht'. cbn [store_threads] in Ht'.
    apply list_elem_of_fmap in Ht' as (t & -> & Ht).
    destruct (Remote.matches st admission_terms t) eqn:Hm.
    + apply (matches_admission_bucket _ _ INBOX_DAYS); [done|].
      rewrite (holds_same_labels _ st) by done.
      rewrite (holds_find st _ _ l (wf_label_names st Hwf) Hl).
      cbn [thread_labels set_labels]. rewrite Hmod.
      apply bool_decide_eq_true. set_solver.
    + rewrite <- Hm. by apply matches_same_labels.
Qed.

Lemma add_inbox_expiration_effect_witness :
  ∃ st' c,
    runs add_inbox_expiration example_store tt st' c
    ∧ store_labels st' = store_labels example_store
    ∧ Forall2 (λ t t', t' = if admissible example_store t
                            then set_labels t (thread_labels t ∪ {["Label_7"]})
                            else t)
              (store_threads example_store) (store_threads st')
    ∧ ∀ t', t' ∈ store_threads st' → admissible st' t' = false.
Proof.
  apply (add_inbox_expiration_effect example_store (mk_label "x7" "Label_7"));
    vm_compute; reflexivity.
Defined.

(** ** What the cleanup does to a thread *)

(** The identifiers of the bucket labels. *)
Definition bucket_ids (st : Store) : gset string :=
  Remote.known_ids (day_labels_of st).*2.

Lemma bucket_id_in_bucket_ids st i l :
  0 ≤ i ≤ INBOX_DAYS → find_label st (bucket_name i) = Some l →
  label_id l ∈ bucket_ids st.
Proof.
  intros Hi Hl. unfold bucket_ids, Remote.known_ids.
  apply elem_of_list_to_set, list_elem_of_omap. exists (Some (label_id l)).
  split; [|done]. apply list_elem_of_fmap. exists (i, bucket_id st i). split.
  - unfold bucket_id. by rewrite Hl.
  - unfold day_labels_of.
    apply (list_elem_of_fmap_2 (λ i, (i, bucket_id st i))), in_range_iff. lia.
Qed.

Lemma known_ids_snoc ids x :
  Remote.known_ids (ids ++ [Some x]) = Remote.known_ids ids ∪ {[x]}.
Proof.
  unfold Remote.known_ids. rewrite omap_app, list_to_set_app_L. cbn. set_solver.
Qed.

(** The cleanup pass after [setup], thread by thread. *)
Lemma runs_strip_tags_effect (st : Store) :
  store_ok st = true → countdown_ready st = true →
  ∃ st' c,
    runs strip_tags_on_archived_emails st tt st' c
    ∧ store_labels st' = store_labels st
    ∧ Forall2 (λ t t', t' = if in_inbox t then t
                            else set_labels t (thread_labels t ∖ bucket_ids st))
              (store_threads st) (store_threads st')
    ∧ ∀ t', t' ∈ store_threads st' → in_inbox t' = false → buckets_of st' t' = [].
Proof.
  intros Hok Hready. apply store_ok_well_formed in Hok as Hwf.
  unfold strip_tags_on_archived_emails.
  set (body := λ item : Z * option string,
         let* threads := fetch_all_threads ("-in:inbox label:x" +:+ str item.1) in
         for_each threads
           (λ thread, execute (Remote.threads_modify (ref_id thread) [] [item.2]))).
  set (stripped := λ (done : list (Z * option string)) (t : Thread),
         if in_inbox t then t
         else set_labels t (thread_labels t ∖ Remote.known_ids done.*2)).
  destruct (runs_for_each
    (λ rest cur, store_labels cur = store_labels st ∧ thread_ids cur = thread_ids st
                 ∧ Forall (λ item, 0 ≤ item.1 ≤ INBOX_DAYS
                                   ∧ item.2 = bucket_id st item.1) rest
                 ∧ ∃ done, day_labels_of st = (done ++ rest)%list
                           ∧ Forall2 (λ t tc, tc = stripped done t)
                                     (store_threads st) (store_threads cur))
    body (day_labels_of st) st) as (st' & c & Hc & Hl' & _ & _ & done & Hdone & Hst').
  { split; [done|]. split; [done|]. split.
    - unfold day_labels_of. apply Forall_fmap, Forall_forall.
      intros i Hi%in_range_iff. simpl. split; [lia|done].
    - exists []. split; [done|].
      apply Forall_Forall2_diag, Forall_forall. intros t Ht. unfold stripped.
      destruct (in_inbox t); [done|]. cbn.
      replace (thread_labels t ∖ Remote.known_ids []) with (thread_labels t)
        by (unfold Remote.known_ids; cbn; set_solver).
      by rewrite set_labels_id. }
  { intros [i id] rest cur (Hl & Hids & Hrest & done & Hdone & Hcur).
    apply Forall_cons in Hrest as [[Hi Hid] Hrest]. simpl in Hi, Hid. subst id.
    destruct (runs_fetch_relabel
      (λ thread, execute (Remote.threads_modify (ref_id thread) [] [bucket_id st i]))
      (modify_labels [] [bucket_id st i]) cur _ _ (parse_strip_query i Hi))
      as [c Hc].
    { rewrite Hids. apply Hwf. }
    { intros r st1 Hl1 Hids1 Hr. exists 1%nat.
      apply runs_modify; [done| |congruence].
      cbn [forallb]. rewrite andb_true_r.
      rewrite (valid_label_id_same_labels st1 st) by congruence.
      by apply bucket_id_valid. }
    eexists _, c. split; [exact Hc|]. split; [done|].
    split; [by rewrite relabel_thread_ids|]. split; [done|].
    exists (done ++ [(i, bucket_id st i)])%list.
    split; [by rewrite <- app_assoc|].
    destruct (countdown_ready_bucket st i Hready Hi) as [li Hli].
    assert (Hbid : bucket_id st i = Some (label_id li)).
    { unfold bucket_id. by rewrite Hli. }
    unfold relabel. cbn [store_threads]. apply Forall2_fmap_r.
    eapply Forall2_impl; [exact Hcur|]. intros t tc ->.
    unfold compose, stripped. rewrite fmap_app. cbn [fmap list_fmap snd].
    rewrite Hbid, known_ids_snoc.
    unfold Remote.matches, Remote.term_matches.
    cbn [forallb Query.negated Query.term_atom Remote.atom_matches].
    destruct (in_inbox t) eqn:Hin.
    - unfold in_inbox in Hin. by rewrite Hin.
    - cbn [thread_labels set_labels].
      assert (Hnot : bool_decide ("INBOX" ∈ thread_labels t ∖ Remote.known_ids done.*2)
                     = false).
      { apply bool_decide_eq_false. apply bool_decide_eq_false in Hin. set_solver. }
      rewrite Hnot. cbn [xorb andb].
      rewrite (holds_same_labels cur st) by done.
      rewrite (holds_find st _ _ li (wf_label_names st Hwf) Hli), andb_true_r.
      unfold modify_labels, Remote.known_ids at 2 3. cbn [omap list_to_set].
      destruct (decide (label_id li ∈ thread_labels t ∖ Remote.known_ids done.*2))
        as [Hh|Hh].
      + rewrite bool_decide_eq_true_2 by done. cbn [thread_id thread_messages set_labels].
        destruct t as [tid L ms]. cbn. f_equal. set_solver.
      + rewrite bool_decide_eq_false_2 by done.
        destruct t as [tid L ms]. cbn in *. f_equal. set_solver. }
  rewrite app_nil_r in Hdone. subst done.
  exists st', (8 + c)%nat. split; [|split; [done|split]].
  - eapply runs_bind; [apply runs_day_labels|]. exact Hc.
  - exact Hst'.
  - intros t' Ht' Hout. apply list_elem_of_lookup in Ht' as [pos Hpos'].
    destruct (Forall2_lookup_r _ _ _ _ _ Hst' Hpos') as (t & Hpos & ->).
    unfold stripped in Hout |- *. destruct (in_inbox t) eqn:Hin; [congruence|].
    unfold buckets_of. apply List_filter_nil. intros i Hi%in_range_iff.
    unfold in_bucket. cbn [thread_labels set_labels].
    rewrite (holds_same_labels st' st) by done.
    destruct (countdown_ready_bucket st i Hready ltac:(lia)) as [li Hli].
    rewrite (holds_find st _ _ li (wf_label_names st Hwf) Hli).
    apply bool_decide_eq_false.
    pose proof (bucket_id_in_bucket_ids st i li ltac:(lia) Hli).
    fold (bucket_ids st). set_solver.
Qed.

(** ** The countdown over successive runs *)

(** [after_runs m n st st']: [n] runs of the pass [m] in a row, none of
    them interrupted, take the store [st] to [st']. *)
Fixpoint after_runs (m : M unit) (n : nat) (st st' : Store) : Prop :=
  match n with
  | O => st' = st
  | S k => ∃ mid c, runs m st tt mid c ∧ after_runs m k mid st'
  end.

Lemma find_label_id_known st name x :
  label_id <$> find_label st name = Some x → x ∈ Remote.label_ids st.
Proof.
  destruct (find_label st name) as [l|] eqn:Hf; [|done]. intros [= <-].
  apply find_label_Some in Hf as [Hl _]. by apply list_elem_of_fmap_2.
Qed.

Lemma known_ids_valid st (ids : list (option string)) :
  (∀ o x, o ∈ ids → o = Some x → x ∈ Remote.label_ids st) →
  Remote.known_ids ids ⊆ list_to_set (Remote.label_ids st).
Proof.
  intros H x. unfold Remote.known_ids.
  rewrite !elem_of_list_to_set, list_elem_of_omap. intros (o & Ho & Hx).
  eapply H; eauto.
Qed.

Lemma advance_labels_known st i L :
  L ⊆ list_to_set (Remote.label_ids st) →
  advance_labels st i L ⊆ list_to_set (Remote.label_ids st).
Proof.
  intros HL. unfold advance_labels, modify_labels.
  assert (Hb : ∀ k, Remote.known_ids [bucket_id st k]
                    ⊆ list_to_set (Remote.label_ids st)).
  { intros k. apply known_ids_valid. intros o x ->%list_elem_of_singleton Hx.
    by eapply find_label_id_known. }
  assert (Ha : Remote.known_ids [archived_id st]
               ⊆ list_to_set (Remote.label_ids st)).
  { apply known_ids_valid. intros o x ->%list_elem_of_singleton Hx.
    by eapply find_label_id_known. }
  pose proof (Hb (i - 1)). destruct (i =? 0); set_solver.
Qed.

Lemma well_formed_advance st :
  well_formed st → well_formed (advance_all_at_once st).
Proof.
  intros [H1 H2 H3 H4 H5]. split; try done.
  - fold (thread_ids (advance_all_at_once st)).
    unfold advance_all_at_once. by rewrite map_labels_thread_ids.
  - intros t' (t & -> & Ht)%list_elem_of_fmap. cbn [thread_labels set_labels].
    change (Remote.label_ids (advance_all_at_once st)) with (Remote.label_ids st).
    destruct (bucket_of_labels st (thread_labels t)); [|by apply H4].
    by apply advance_labels_known, H4.
Qed.

Lemma filter_single {A} (f : A → bool) (l : list A) (a : A) :
  NoDup l → a ∈ l → (∀ x, x ∈ l → f x = true ↔ x = a) → List.filter f l = [a].
Proof.
  induction l as [|y l IH]; intros Hnd Ha Hf; [by apply elem_of_nil in Ha|].
  apply NoDup_cons in Hnd as [Hy Hnd]. cbn [List.filter].
  destruct (f y) eqn:Hfy.
  - apply Hf in Hfy; [|left]. subst y. f_equal.
    apply List_filter_nil. intros x Hx. apply not_true_is_false.
    intros Hfx. apply Hf in Hfx; [|by right]. by subst x.
  - apply elem_of_cons in Ha as [->|Ha].
    + rewrite (proj2 (Hf y ltac:(left))) in Hfy; done.
    + apply IH; [done|done|]. intros x Hx. apply Hf. by right.
Qed.

Lemma buckets_of_single st t j :
  buckets_of st t = [j] →
  0 ≤ j ≤ INBOX_DAYS ∧ only_bucket st (thread_labels t) j.
Proof.
  intros Hb. unfold buckets_of in Hb.
  assert (Hmem : ∀ i, i ∈ List.filter (in_bucket st t) (range (INBOX_DAYS + 1))
                      ↔ i = j).
  { intros i. rewrite Hb. apply list_elem_of_singleton. }
  pose proof (proj2 (Hmem j) eq_refl) as Hjin.
  apply elem_of_List_filter in Hjin as [Hj Hin%in_range_iff].
  split; [lia|]. split; [done|]. intros k Hk Hne.
  apply not_true_is_false. intros Hh. apply Hne, Hmem.
  apply elem_of_List_filter. split; [done|]. apply in_range_iff. lia.
Qed.

(** One run, seen from a thread in the bucket [j] and no other. *)
Lemma advance_thread st pos t j :
  well_formed st → countdown_ready st = true →
  store_threads st !! pos = Some t → buckets_of st t = [j] →
  ∃ t', store_threads (advance_all_at_once st) !! pos = Some t'
        ∧ thread_id t' = thread_id t
        ∧ if j =? 0
          then is_archived (advance_all_at_once st) t' = true
               ∧ buckets_of (advance_all_at_once st) t' = []
               ∧ in_inbox t' = false
          else buckets_of (advance_all_at_once st) t' = [j - 1]
               ∧ in_inbox t' = in_inbox t.
Proof.
  intros Hwf Hready Hpos Hb.
  destruct (buckets_of_single st t j Hb) as [Hj Honly].
  exists (set_labels t (advance_labels st j (thread_labels t))).
  split; [|split; [done|]].
  { unfold advance_all_at_once, map_labels. cbn [store_threads].
    rewrite list_lookup_fmap, Hpos. cbn.
    by rewrite (bucket_of_labels_Some st _ j). }
  assert (Hholds : ∀ i, 0 ≤ i ≤ INBOX_DAYS →
            in_bucket (advance_all_at_once st)
              (set_labels t (advance_labels st j (thread_labels t))) i
            = (0 <? j) && (i =? j - 1)).
  { intros i Hi. unfold in_bucket. cbn [thread_labels set_labels].
    rewrite (holds_same_labels _ st) by done.
    by apply advance_labels_bucket. }
  destruct (Z.eqb_spec j 0) as [->|Hne].
  - destruct (advance_labels_archives st _ Hwf Hready Honly) as [Harch Hinbox].
    split; [|split].
    + unfold is_archived. cbn [thread_labels set_labels].
      by rewrite (holds_same_labels _ st).
    + unfold buckets_of. apply List_filter_nil. intros i Hi%in_range_iff.
      by rewrite Hholds by lia.
    + unfold in_inbox. cbn [thread_labels set_labels]. by apply bool_decide_eq_false.
  - split.
    + unfold buckets_of. apply filter_single; [apply NoDup_range| |].
      * apply in_range_iff. lia.
      * intros i Hi%in_range_iff. rewrite Hholds by lia.
        rewrite (proj2 (Z.ltb_lt 0 j)) by lia. cbn [andb]. apply Z.eqb_eq.
    + unfold in_inbox. cbn [thread_labels set_labels]. apply bool_decide_ext.
      destruct (countdown_ready_bucket st j Hready Hj) as [lj Hlj].
      destruct (countdown_ready_bucket st (j - 1) Hready ltac:(lia)) as [lp Hlp].
      pose proof (bucket_id_not_inbox st Hwf j lj Hj Hlj).
      pose proof (bucket_id_not_inbox st Hwf (j - 1) lp ltac:(lia) Hlp).
      unfold advance_labels, modify_labels, Remote.known_ids, bucket_id.
      rewrite (proj2 (Z.eqb_neq j 0)) by done. rewrite Hlj, Hlp. cbn. set_solver.
Qed.

(** The countdown of a thread in the bucket [j] and no other, over [k]
    runs of the pass: up to [j] runs move it down by one bucket each, and
    the run after that archives it. *)
Lemma countdown_after_runs (k : nat) :
  ∀ (st : Store) (pos : nat) (t : Thread) (j : Z),
    store_ok st = true → countdown_ready st = true → one_bucket_at_most st = true →
    store_threads st !! pos = Some t → buckets_of st t = [j] →
    Z.of_nat k ≤ j + 1 →
    ∃ st' t',
      after_runs step_expiration k st st'
      ∧ store_threads st' !! pos = Some t' ∧ thread_id t' = thread_id t
      ∧ if Z.of_nat k <=? j
        then buckets_of st' t' = [j - Z.of_nat k] ∧ in_inbox t' = in_inbox t
        else is_archived st' t' = true ∧ buckets_of st' t' = []
             ∧ in_inbox t' = false.
Proof.
  induction k as [|k IH]; intros st pos t j Hok Hready Hone Hpos Hb Hk.
  - exists st, t. destruct (buckets_of_single st t j Hb) as [Hj _].
    split; [done|]. split; [done|]. split; [done|].
    rewrite (proj2 (Z.leb_le (Z.of_nat 0) j)) by lia.
    by rewrite Z.sub_0_r.
  - apply store_ok_well_formed in Hok as Hwf.
    destruct (runs_step_expiration st Hwf Hready Hone) as [c Hc].
    destruct (advance_thread st pos t j Hwf Hready Hpos Hb) as (t1 & Hpos1 & Hid1 & H1).
    destruct (Z.eqb_spec j 0) as [->|Hne].
    + assert (k = 0%nat) by lia. subst k.
      exists (advance_all_at_once st), t1.
      split; [by exists (advance_all_at_once st), c|].
      split; [done|]. split; [done|]. exact H1.
    + destruct (buckets_of_single st t j Hb) as [Hj _]. destruct H1 as [Hb1 Hin1].
      destruct (IH (advance_all_at_once st) pos t1 (j - 1)) as (st' & t' & Hruns & Hpos' & Hid' & H').
      { by apply store_ok_well_formed, well_formed_advance. }
      { exact Hready. }
      { by apply advance_one_bucket_at_most. }
      { exact Hpos1. }
      { exact Hb1. }
      { lia. }
      exists st', t'. split; [by exists (advance_all_at_once st), c|].
      split; [done|]. split; [congruence|].
      destruct (Z.leb_spec (Z.of_nat k) (j - 1)) as [Hle|Hgt].
      * rewrite (proj2 (Z.leb_le (Z.of_nat (S k)) j)) by lia.
        destruct H' as [Hb' Hin']. split; [|congruence].
        rewrite Hb'. f_equal. lia.
      * rewrite (proj2 (Z.leb_gt (Z.of_nat (S k)) j)) by lia. exact H'.
Qed.

(** ** Ages in whole days *)

Lemma datetime_to_date_valid d :
  Calendar.valid d = true →
  datetime_to_date d = Some (mk_datetime (year d) (month d) (day d) 0 0 0 0).
Proof.
  unfold datetime_to_date, Calendar.make, Calendar.valid.
  cbn [year month day hour minute second microsecond].
  rewrite !andb_true_iff.
  intros [[[[[[[[[[[[[H1 H2] H3] H4] H5] H6] _] _] _] _] _] _] _] _].
  by rewrite H1, H2, H3, H4, H5, H6.
Qed.

(** [date_diff_in_days] counts calendar days: for two datetimes it is the
    difference of the ordinals of their dates, whatever the times of day;
    so it is 0 within one day, and swapping the arguments changes the
    sign. *)
Theorem date_diff_in_days_counts_dates (d1 d2 : datetime) :
  Calendar.valid d1 = true → Calendar.valid d2 = true →
  ∃ n, date_diff_in_days d1 d2 = Some n
       ∧ n = Calendar.ymd2ord (year d2) (month d2) (day d2)
             - Calendar.ymd2ord (year d1) (month d1) (day d1)
       ∧ date_diff_in_days d2 d1 = Some (- n)
       ∧ ((year d1, month d1, day d1) = (year d2, month d2, day d2) → n = 0).
Proof.
  intros H1 H2. unfold date_diff_in_days.
  rewrite (datetime_to_date_valid d1 H1), (datetime_to_date_valid d2 H2).
  unfold Calendar.sub_days. cbn [year month day hour minute second microsecond].
  set (o1 := Calendar.ymd2ord (year d1) (month d1) (day d1)).
  set (o2 := Calendar.ymd2ord (year d2) (month d2) (day d2)).
  assert (Hdiv : ∀ k, ((k * 86400 + (0 * 3600 + 0 * 60 + 0 - (0 * 3600 + 0 * 60 + 0)))
                       * 1000000 + (0 - 0)) / 86400000000 = k).
  { intros k. replace ((k * 86400 + (0 * 3600 + 0 * 60 + 0 - (0 * 3600 + 0 * 60 + 0)))
                       * 1000000 + (0 - 0)) with (k * 86400000000) by lia.
    by apply Z.div_mul. }
  exists (o2 - o1). rewrite !Hdiv. split; [done|]. split; [done|]. split.
  - f_equal. lia.
  - intros [= Hy Hm Hd]. unfold o1, o2. rewrite Hy, Hm, Hd. lia.
Qed.

Lemma date_diff_in_days_counts_dates_witness :
  ∃ n, date_diff_in_days (mk_datetime 2023 11 14 23 59 59 999999)
                         (mk_datetime 2023 11 15 0 0 0 0) = Some n
       ∧ n = Calendar.ymd2ord 2023 11 15 - Calendar.ymd2ord 2023 11 14
       ∧ date_diff_in_days (mk_datetime 2023 11 15 0 0 0 0)
                           (mk_datetime 2023 11 14 23 59 59 999999) = Some (- n)
       ∧ ((2023, 11, 14) = (2023, 11, 15) → n = 0).
Proof.
  apply (date_diff_in_days_counts_dates (mk_datetime 2023 11 14 23 59 59 999999)
           (mk_datetime 2023 11 15 0 0 0 0)); reflexivity.
Defined.

(** ** The names of the age labels *)

Lemma str_starts_with_digit z s :
  0 ≤ z → starts_with_ascii_digit (str z +:+ s) = true.
Proof.
  intros Hz. unfold str. destruct z as [|p|p]; [done| |lia].
  unfold Z.to_int, NilZero.string_of_int, NilZero.string_of_uint.
  destruct (Pos.to_uint p); reflexivity.
Qed.

Lemma nearest_nonneg a n : 0 ≤ a → 0 < n → 0 ≤ Rounding.nearest a n.
Proof. intros Ha Hn. unfold Rounding.nearest. apply Z.div_pos; lia. Qed.

Lemma age_label_re_match_prefix d s :
  age_label_re_match d (LABEL_PREFIX +:+ s) = d s.
Proof. reflexivity. Qed.

(** Every name [add_age_label] gives to an age from 0 up matches the
    pattern of [remove_all_age_labels], for any table of decimal digits
    that has the ASCII digits: the labels of one run are those the next
    run sweeps. *)
Theorem age_label_names_match_sweep (d : string → bool) (age : Z) :
  (∀ x, starts_with_ascii_digit x = true → d x = true) →
  0 ≤ age < 2 ^ 52 →
  ∃ s, age_string age = Some s
       ∧ age_label_re_match d (LABEL_PREFIX +:+ s) = true.
Proof.
  intros Hd [Hlo Hhi]. rewrite (age_string_cases age Hhi). eexists. split; [done|].
  rewrite age_label_re_match_prefix. apply Hd.
  destruct (age <? 31); [by apply str_starts_with_digit|].
  destruct (age <? 365); apply str_starts_with_digit, nearest_nonneg; lia.
Qed.

Lemma age_label_names_match_sweep_witness :
  ∃ s, age_string 364 = Some s
       ∧ age_label_re_match starts_with_ascii_digit (LABEL_PREFIX +:+ s) = true.
Proof.
  apply (age_label_names_match_sweep starts_with_ascii_digit 364); [done|lia].
Defined.

(** ** The sweep and the threads that get no label *)

(** [remove_all_age_labels]: it runs to its end on every well-formed
    store, deletes the labels whose names match the pattern and no others,
    takes their identifiers off every thread, in the inbox or not, and
    leaves a well-formed store; run again it finds nothing to delete. *)
Theorem remove_all_age_labels_effect (d : string → bool) (st : Store) :
  store_ok st = true →
  ∃ st' c,
    runs (remove_all_age_labels d) st tt st' c
    ∧ (∀ l, l ∈ store_labels st'
            ↔ l ∈ store_labels st ∧ age_label_re_match d (label_name l) = false)
    ∧ Forall2 (λ t t', t' = set_labels t (thread_labels t ∖ swept d st))
              (store_threads st) (store_threads st')
    ∧ store_ok st' = true
    ∧ runs (remove_all_age_labels d) st' tt st' 1.
Proof.
  intros Hok. apply store_ok_well_formed in Hok as Hwf.
  destruct (runs_remove_all_age_labels d st Hwf) as [c Hc].
  exists (sweep d st), c. split; [done|]. split; [|split; [|split]].
  - intros l. by apply sweep_labels.
  - rewrite sweep_threads. apply Forall2_fmap_r, Forall_Forall2_diag, Forall_forall.
    by intros t Ht.
  - by apply store_ok_well_formed, well_formed_sweep.
  - unfold remove_all_age_labels.
    eapply (runs_bind _ _ _ _ _ 1 _ _ 0); [apply runs_get_all_labels|].
    rewrite List_filter_nil; [apply runs_ret|].
    intros l Hl. by apply sweep_labels in Hl as [_ Hl].
Qed.

Lemma remove_all_age_labels_effect_witness :
  ∃ st' c,
    runs (remove_all_age_labels starts_with_ascii_digit) annotated_store tt st' c
    ∧ (∀ l, l ∈ store_labels st'
            ↔ l ∈ store_labels annotated_store
              ∧ age_label_re_match starts_with_ascii_digit (label_name l) = false)
    ∧ Forall2 (λ t t', t' = set_labels t (thread_labels t
                                           ∖ swept starts_with_ascii_digit annotated_store))
              (store_threads annotated_store) (store_threads st')
    ∧ store_ok st' = true
    ∧ runs (remove_all_age_labels starts_with_ascii_digit) st' tt st' 1.
Proof.
  apply (remove_all_age_labels_effect starts_with_ascii_digit annotated_store).
  vm_compute. reflexivity.
Defined.

(** A thread outside the inbox, or without messages, gets no age label:
    when [append_too_old_labels] is over it has the labels it had less
    the swept ones, and holds no label of the age pattern. *)
Theorem append_too_old_labels_skips (d : string → bool) (now : datetime)
    (st : Store) (pos : nat) (t : Thread) :
  store_ok st = true → annotatable now st = true →
  store_threads st !! pos = Some t →
  in_inbox t = false ∨ thread_messages t = [] →
  ∃ st' c t',
    runs (append_too_old_labels d now) st tt st' c
    ∧ store_threads st' !! pos = Some t' ∧ thread_id t' = thread_id t
    ∧ thread_labels t' = thread_labels t ∖ swept d st
    ∧ age_labels_of d st' t' = [].
Proof.
  intros Hok Hann Hpos Hskip. apply store_ok_well_formed in Hok as Hwf.
  destruct (runs_annotation d now st Hwf Hann) as (st' & c & Hrun & Han).
  destruct (annotated_thread_at d now st st' pos t Hwf Han Hpos)
    as (t' & Hpos' & Hid & HL).
  assert (Hname : age_label_name now t = None).
  { unfold age_label_name. destruct Hskip as [->| ->]; [done|].
    by destruct (in_inbox t). }
  rewrite (attached_none now st' t Hname) in HL.
  exists st', c, t'. split; [done|]. split; [done|]. split; [done|]. split.
  - rewrite HL. unfold swept. destruct (in_inbox t); set_solver.
  - unfold age_labels_of. apply List_filter_nil. intros l Hl.
    apply not_true_is_false. intros [Hage Hheld]%andb_true_iff.
    apply bool_decide_eq_true in Hheld.
    destruct (annotated_held d now st st' pos t t' l Hwf Han Hpos Hpos' Hl Hage Hheld)
      as [_ Hatt].
    rewrite (attached_none now st' t Hname) in Hatt. by apply elem_of_empty in Hatt.
Qed.

Lemma append_too_old_labels_skips_witness :
  ∃ st' c t',
    runs (append_too_old_labels starts_with_ascii_digit annotation_time)
         annotated_store tt st' c
    ∧ store_threads st' !! 4%nat = Some t' ∧ thread_id t' = "t4"
    ∧ age_labels_of starts_with_ascii_digit st' t' = [].
Proof.
  destruct (append_too_old_labels_skips starts_with_ascii_digit annotation_time
              annotated_store 4
              (mk_thread "t4" {["Label_8"; "Label_10"]} [mk_message 1600000000000]))
    as (st' & c & t' & Hrun & Hpos & Hid & _ & Hnone);
    [vm_compute; reflexivity..|left; vm_compute; reflexivity|].
  exists st', c, t'. split; [exact Hrun|]. split; [exact Hpos|].
  split; [exact Hid|exact Hnone].
Defined.

(** The countdown of a thread: in the bucket [j] and no other, it is in
    the bucket [j - k] after [k] runs of [step_expiration], for [k] up to
    [j], and as much in the inbox as before; the run after that archives
    it, takes its last bucket label and takes it out of the inbox.  The
    runs are those of the pass alone, on a store where no thread has two
    bucket labels. *)
Theorem step_expiration_countdown (st : Store) (pos : nat) (t : Thread) (j : Z) :
  store_ok st = true → countdown_ready st = true → one_bucket_at_most st = true →
  store_threads st !! pos = Some t → buckets_of st t = [j] →
  (∀ k : nat, Z.of_nat k ≤ j →
     ∃ st' t', after_runs step_expiration k st st'
               ∧ store_threads st' !! pos = Some t' ∧ thread_id t' = thread_id t
               ∧ buckets_of st' t' = [j - Z.of_nat k] ∧ in_inbox t' = in_inbox t)
  ∧ ∃ st' t', after_runs step_expiration (Z.to_nat j + 1) st st'
              ∧ store_threads st' !! pos = Some t' ∧ thread_id t' = thread_id t
              ∧ is_archived st' t' = true ∧ buckets_of st' t' = []
              ∧ in_inbox t' = false.
Proof.
  intros Hok Hready Hone Hpos Hb.
  destruct (buckets_of_single st t j Hb) as [Hj _]. split.
  - intros k Hk.
    destruct (countdown_after_runs k st pos t j Hok Hready Hone Hpos Hb ltac:(lia))
      as (st' & t' & Hruns & Hpos' & Hid & H').
    rewrite (proj2 (Z.leb_le (Z.of_nat k) j)) in H' by done.
    by exists st', t'.
  - destruct (countdown_after_runs (Z.to_nat j + 1) st pos t j Hok Hready Hone Hpos Hb
                ltac:(lia)) as (st' & t' & Hruns & Hpos' & Hid & H').
    rewrite (proj2 (Z.leb_gt (Z.of_nat (Z.to_nat j + 1)) j)) in H' by lia.
    by exists st', t'.
Qed.

Lemma step_expiration_countdown_witness :
  ∃ st' t',
    after_runs step_expiration 4 example_store st'
    ∧ store_threads st' !! 1%nat = Some t' ∧ thread_id t' = "t1"
    ∧ is_archived st' t' = true ∧ buckets_of st' t' = [] ∧ in_inbox t' = false.
Proof.
  destruct (step_expiration_countdown example_store 1
              (mk_thread "t1" {["INBOX"; "Label_3"]} [mk_message 1707000000000]) 3)
    as [_ (st' & t' & Hruns & Hpos & Hid & H)]; [vm_compute; reflexivity..|].
  exists st', t'. split; [exact Hruns|]. split; [exact Hpos|]. split; [exact Hid|].
  exact H.
Defined.

(** ** From the inbox to the archive *)

Lemma admission_thread st pos t l :
  well_formed st → countdown_ready st = true →
  find_label st (bucket_name INBOX_DAYS) = Some l →
  store_threads st !! pos = Some t → admissible st t = true →
  store_threads (admission st) !! pos
  = Some (set_labels t (thread_labels t ∪ {[label_id l]}))
  ∧ buckets_of (admission st) (set_labels t (thread_labels t ∪ {[label_id l]}))
    = [INBOX_DAYS].
Proof.
  intros Hwf Hready Hl Hpos Hadm. rewrite <- matches_admission_terms in Hadm.
  assert (Hmod : modify_labels [bucket_id st INBOX_DAYS] [] (thread_labels t)
                 = thread_labels t ∪ {[label_id l]}).
  { unfold modify_labels, bucket_id, Remote.known_ids. rewrite Hl. cbn. set_solver. }
  split.
  - unfold admission, relabel. cbn [store_threads].
    rewrite list_lookup_fmap, Hpos. cbn [fmap option_fmap option_map].
    by rewrite Hadm, Hmod.
  - unfold buckets_of. apply filter_single; [apply NoDup_range|by apply in_range_iff|].
    intros i Hi%in_range_iff. unfold in_bucket. cbn [thread_labels set_labels].
    rewrite (holds_same_labels _ st) by done.
    destruct (countdown_ready_bucket st i Hready ltac:(lia)) as [li Hli].
    rewrite (holds_find st _ _ li (wf_label_names st Hwf) Hli), bool_decide_eq_true.
    destruct (decide (i = INBOX_DAYS)) as [->|Hne].
    + assert (li = l) by congruence. subst li. set_solver.
    + split; [|done]. intros Hmem. exfalso.
      pose proof (matches_admission_no_bucket st t i Hadm ltac:(lia)) as Hno.
      rewrite (holds_find st _ _ li (wf_label_names st Hwf) Hli) in Hno.
      apply bool_decide_eq_false in Hno.
      pose proof (bucket_ids_differ st Hwf i INBOX_DAYS li l ltac:(lia) ltac:(done)
                    Hne Hli Hl).
      set_solver.
Qed.

(** The life of a new thread: a thread that is in the inbox, not starred
    and in no bucket gets the label of bucket N from
    [add_inbox_expiration]; [step_expiration] then leaves it in the inbox
    for [INBOX_DAYS] runs, one bucket lower each time, and archives it on
    run [INBOX_DAYS + 1].  The runs are those of the two passes alone, on
    a store where no thread has two bucket labels. *)
Theorem admitted_thread_is_archived (st : Store) (pos : nat) (t : Thread) :
  store_ok st = true → countdown_ready st = true → one_bucket_at_most st = true →
  store_threads st !! pos = Some t → admissible st t = true →
  ∃ st1 c,
    runs add_inbox_expiration st tt st1 c
    ∧ (∀ k : nat, (k ≤ Z.to_nat INBOX_DAYS)%nat →
         ∃ st' t', after_runs step_expiration k st1 st'
                   ∧ store_threads st' !! pos = Some t' ∧ thread_id t' = thread_id t
                   ∧ buckets_of st' t' = [INBOX_DAYS - Z.of_nat k]
                   ∧ in_inbox t' = true)
    ∧ ∃ st' t', after_runs step_expiration (Z.to_nat INBOX_DAYS + 1) st1 st'
                ∧ store_threads st' !! pos = Some t' ∧ thread_id t' = thread_id t
                ∧ is_archived st' t' = true ∧ buckets_of st' t' = []
                ∧ in_inbox t' = false.
Proof.
  intros Hok Hready Hone Hpos Hadm. apply store_ok_well_formed in Hok as Hwf.
  destruct (countdown_ready_bucket st INBOX_DAYS Hready ltac:(done)) as [l Hl].
  destruct (runs_add_inbox_expiration st l Hwf Hl) as [c Hc].
  destruct (admission_thread st pos t l Hwf Hready Hl Hpos Hadm) as [Hpos1 Hb1].
  set (t1 := set_labels t (thread_labels t ∪ {[label_id l]})) in *.
  assert (Hok1 : store_ok (admission st) = true).
  { by eapply store_ok_well_formed, well_formed_admit. }
  assert (Hone1 : one_bucket_at_most (admission st) = true).
  { by apply admit_one_bucket_at_most. }
  assert (Hin1 : in_inbox t1 = true).
  { unfold admissible in Hadm. apply andb_true_iff in Hadm as [[Hin _]%andb_true_iff _].
    unfold in_inbox in *. cbn [t1 thread_labels set_labels].
    apply bool_decide_eq_true in Hin. apply bool_decide_eq_true. set_solver. }
  exists (admission st), c. split; [done|]. split.
  - intros k Hk.
    destruct (countdown_after_runs k (admission st) pos t1 INBOX_DAYS
                Hok1 Hready Hone1 Hpos1 Hb1 ltac:(unfold INBOX_DAYS in *; lia))
      as (st' & t' & Hruns & Hpos' & Hid & H').
    rewrite (proj2 (Z.leb_le (Z.of_nat k) INBOX_DAYS)) in H'
      by (unfold INBOX_DAYS in *; lia).
    destruct H' as [Hb' Hin']. exists st', t'. repeat split; try done. congruence.
  - destruct (countdown_after_runs (Z.to_nat INBOX_DAYS + 1) (admission st) pos t1
                INBOX_DAYS Hok1 Hready Hone1 Hpos1 Hb1 ltac:(unfold INBOX_DAYS; lia))
      as (st' & t' & Hruns & Hpos' & Hid & H').
    rewrite (proj2 (Z.leb_gt (Z.of_nat (Z.to_nat INBOX_DAYS + 1)) INBOX_DAYS)) in H'
      by (unfold INBOX_DAYS; lia).
    by exists st', t'.
Qed.

Lemma admitted_thread_is_archived_witness :
  ∃ st1 c,
    runs add_inbox_expiration example_store tt st1 c
    ∧ ∃ st' t', after_runs step_expiration (Z.to_nat INBOX_DAYS + 1) st1 st'
                ∧ store_threads st' !! 3%nat = Some t' ∧ thread_id t' = "t3"
                ∧ is_archived st' t' = true ∧ buckets_of st' t' = []
                ∧ in_inbox t' = false.
Proof.
  destruct (admitted_thread_is_archived example_store 3
              (mk_thread "t3" {["INBOX"]} [mk_message 1709000000000]))
    as (st1 & c & Hrun & _ & Hend); [vm_compute; reflexivity..|].
  exists st1, c. split; [exact Hrun|exact Hend].
Defined.

(** [strip_tags_on_archived_emails] after [setup]: it runs to its end,
    keeps the labels of the store, takes every bucket label off the
    threads outside the inbox and leaves the threads of the inbox as they
    are; afterwards no thread outside the inbox is in a bucket. *)
Theorem strip_tags_on_archived_emails_effect (st : Store) :
  store_ok st = true → countdown_ready st = true →
  ∃ st' c,
    runs strip_tags_on_archived_emails st tt st' c
    ∧ store_labels st' = store_labels st
    ∧ Forall2 (λ t t', t' = if in_inbox t then t
                            else set_labels t (thread_labels t ∖ bucket_ids st))
              (store_threads st) (store_threads st')
    ∧ ∀ t', t' ∈ store_threads st' → in_inbox t' = false → buckets_of st' t' = [].
Proof.
  intros Hok Hready.
  destruct (runs_strip_tags_effect st Hok Hready) as (st' & c & Hrun & Hl & Hts & Hnone).
  exists st', c. split; [exact Hrun|]. split; [exact Hl|]. split; [exact Hts|].
  exact Hnone.
Qed.

Lemma strip_tags_on_archived_emails_effect_witness :
  ∃ st' c,
    runs strip_tags_on_archived_emails example_store tt st' c
    ∧ store_labels st' = store_labels example_store
    ∧ Forall2 (λ t t', t' = if in_inbox t then t
                            else set_labels t (thread_labels t ∖ bucket_ids example_store))
              (store_threads example_store) (store_threads st')
    ∧ ∀ t', t' ∈ store_threads st' → in_inbox t' = false → buckets_of st' t' = [].
Proof.
  apply (strip_tags_on_archived_emails_effect example_store); vm_compute; reflexivity.
Defined.

(** ** Threads archived by hand *)

Lemma shrinks_well_formed st st' :
  well_formed st → store_labels st' = store_labels st → shrinks st st' →
  well_formed st'.
Proof.
  intros [H1 H2 H3 H4 H5] Hl Hs.
  assert (Hids : thread_id <$> store_threads st' = thread_id <$> store_threads st).
  { unfold shrinks in Hs. clear -Hs.
    induction Hs as [|t t' ts ts' [Hid _] _ IH]; [done|].
    rewrite !fmap_cons. f_equal; [exact Hid|exact IH]. }
  split.
  - unfold Remote.label_ids. by rewrite Hl.
  - by rewrite Hl.
  - by rewrite Hids.
  - intros t' [k Hk]%list_elem_of_lookup.
    destruct (Forall2_lookup_r _ _ _ k t' Hs Hk) as (t & Hkt & _ & Hsub).
    unfold Remote.label_ids. rewrite Hl.
    pose proof (H4 t ltac:(eapply list_elem_of_lookup_2; eauto)) as Ht.
    unfold Remote.label_ids in Ht. set_solver.
  - by rewrite Hl.
Qed.

Lemma countdown_ready_same_labels st st' :
  store_labels st' = store_labels st → countdown_ready st' = countdown_ready st.
Proof. intros Hl. unfold countdown_ready, find_label. by rewrite Hl. Qed.

Lemma bucket_ids_elem st x :
  x ∈ bucket_ids st →
  ∃ i l, 0 ≤ i ≤ INBOX_DAYS ∧ find_label st (bucket_name i) = Some l ∧ x = label_id l.
Proof.
  unfold bucket_ids, Remote.known_ids, day_labels_of.
  rewrite elem_of_list_to_set, list_elem_of_omap.
  intros (o & Ho & Hx). apply list_elem_of_fmap in Ho as ([i o'] & -> & Hio).
  apply list_elem_of_fmap in Hio as (i' & [= -> ->] & Hi%in_range_iff).
  cbn in Hx. unfold bucket_id in Hx.
  destruct (find_label st (bucket_name i')) as [l|] eqn:Hf; [|done].
  injection Hx as <-. exists i', l. split; [lia|done].
Qed.

(** A thread the user has archived is never marked as archived by the
    machine when the cleanup runs before the advance: after
    [strip_tags_on_archived_emails] and [step_expiration] a thread that
    was outside the inbox has lost its bucket labels and nothing else, is
    in no bucket, and has the archived label only if it had it before. *)
Theorem hand_archived_thread_stays_unmarked (st : Store) (pos : nat) (t : Thread) :
  store_ok st = true → countdown_ready st = true → one_bucket_at_most st = true →
  store_threads st !! pos = Some t → in_inbox t = false →
  ∃ st1 c1 st2 c2,
    runs strip_tags_on_archived_emails st tt st1 c1
    ∧ runs step_expiration st1 tt st2 c2
    ∧ store_threads st2 !! pos
      = Some (set_labels t (thread_labels t ∖ bucket_ids st))
    ∧ buckets_of st2 (set_labels t (thread_labels t ∖ bucket_ids st)) = []
    ∧ is_archived st2 (set_labels t (thread_labels t ∖ bucket_ids st))
      = is_archived st t.
Proof.
  intros Hok Hready Hone Hpos Hout. apply store_ok_well_formed in Hok as Hwf.
  destruct (runs_strip_tags_effect st Hok Hready)
    as (st1 & c1 & Hrun1 & Hl1 & Hts & Hnone).
  set (t1 := set_labels t (thread_labels t ∖ bucket_ids st)).
  assert (Hs : shrinks st st1).
  { unfold shrinks. eapply Forall2_impl; [exact Hts|]. intros u u' ->.
    destruct (in_inbox u); [done|]. split; [done|]. cbn. set_solver. }
  pose proof (shrinks_well_formed st st1 Hwf Hl1 Hs) as Hwf1.
  assert (Hready1 : countdown_ready st1 = true).
  { by rewrite (countdown_ready_same_labels st st1). }
  pose proof (proj1 (shrinks_one_bucket_at_most st st1 Hl1 Hs) Hone) as Hone1.
  destruct (runs_step_expiration st1 Hwf1 Hready1 Hone1) as [c2 Hc2].
  destruct (Forall2_lookup_l _ _ _ pos t Hts Hpos) as (t1' & Hpos1 & Ht1).
  rewrite Hout in Ht1. fold t1 in Ht1. subst t1'.
  assert (Hin1 : in_inbox t1 = false).
  { unfold in_inbox in *. cbn [t1 thread_labels set_labels].
    apply bool_decide_eq_false in Hout. apply bool_decide_eq_false. set_solver. }
  assert (Hb1 : buckets_of st1 t1 = []).
  { apply Hnone; [|done]. eapply list_elem_of_lookup_2; eauto. }
  assert (Hnob : bucket_of_labels st1 (thread_labels t1) = None).
  { apply bucket_of_labels_None. intros i Hi. apply not_true_is_false. intros Hh.
    assert (Hmem : i ∈ buckets_of st1 t1).
    { unfold buckets_of. apply elem_of_List_filter. split; [done|].
      apply in_range_iff. lia. }
    rewrite Hb1 in Hmem. by apply elem_of_nil in Hmem. }
  exists st1, c1, (advance_all_at_once st1), c2.
  split; [done|]. split; [done|]. split; [|split].
  - unfold advance_all_at_once, map_labels. cbn [store_threads].
    rewrite list_lookup_fmap, Hpos1. cbn [fmap option_fmap option_map].
    by rewrite Hnob, set_labels_id.
  - unfold buckets_of in *. rewrite <- Hb1. apply filter_ext_in_iff.
    intros i _. unfold in_bucket. by apply holds_same_labels.
  - unfold is_archived. rewrite (holds_same_labels _ st) by done.
    destruct (countdown_ready_archived st Hready) as [la Hla].
    rewrite !(holds_find st _ _ la (wf_label_names st Hwf) Hla).
    apply bool_decide_ext. cbn [t1 thread_labels set_labels].
    rewrite elem_of_difference. split; [tauto|]. intros Hmem. split; [done|].
    intros (i & li & Hi & Hli & Heq)%bucket_ids_elem.
    by apply (bucket_id_not_archived st Hwf i li la Hi Hli Hla).
Qed.

Lemma hand_archived_thread_stays_unmarked_witness :
  ∃ st1 c1 st2 c2,
    runs strip_tags_on_archived_emails
         (mk_store example_labels
            [mk_thread "t0" {["Label_0"]} []; mk_thread "t1" {["INBOX"; "Label_2"]} []])
         tt st1 c1
    ∧ runs step_expiration st1 tt st2 c2
    ∧ store_threads st2 !! 0%nat
      = Some (set_labels (mk_thread "t0" {["Label_0"]} [])
                (thread_labels (mk_thread "t0" {["Label_0"]} [])
                 ∖ bucket_ids
                     (mk_store example_labels
                        [mk_thread "t0" {["Label_0"]} [];
                         mk_thread "t1" {["INBOX"; "Label_2"]} []]))).
Proof.
  destruct (hand_archived_thread_stays_unmarked
              (mk_store example_labels
                 [mk_thread "t0" {["Label_0"]} []; mk_thread "t1" {["INBOX"; "Label_2"]} []])
              0 (mk_thread "t0" {["Label_0"]} []))
    as (st1 & c1 & st2 & c2 & H1 & H2 & H3 & _); [vm_compute; reflexivity..|].
  exists st1, c1, st2, c2. split; [exact H1|]. split; [exact H2|exact H3].
Defined.
